(** * Rectangles in a circle: the placement engine of [packing_logic.py]

    A shallow embedding of the collision test (Separating Axis Theorem),
    the containment check, the grid search with its gap-fill passes and
    the optimizer, followed by the properties stated for them.

    Numbers.  Python's [float] is IEEE 754 binary64; it is modelled by
    Rocq's primitive [float], whose [+ - * / sqrt] and comparisons are the
    same correctly rounded operations.  Python's [int] is [Z].

    Outcomes.  A call either returns, raises one of the built-in
    exceptions, or runs for ever; the [while] loops take fuel and answer
    [Diverge] when it runs out. *)

From Stdlib Require Import ZArith List Bool String DecimalString Floats Lia.
Import ListNotations.

(** ** Outcomes of a call *)

Inductive exn : Set :=
| ZeroDivisionError
| OverflowError
| ValueError
| IndexError.

Inductive outcome (A : Type) : Type :=
| Ret (a : A)
| Raise (e : exn)
| Diverge.

Arguments Ret {A} a.
Arguments Raise {A} e.
Arguments Diverge {A}.

Definition bind {A B : Type} (m : outcome A) (k : A -> outcome B) : outcome B :=
  match m with
  | Ret a => k a
  | Raise e => Raise e
  | Diverge => Diverge
  end.

Notation "x <- m ;; k" := (bind m (fun x => k))
  (at level 61, m at next level, right associativity).
Notation "' p <- m ;; k" := (bind m (fun x => let p := x in k))
  (at level 61, p pattern, m at next level, right associativity).

(** ** Python's float operations *)

Open Scope float_scope.

(** [a > b] and [a >= b]. *)
Definition fgt (a b : float) : bool := b <? a.
Definition fge (a b : float) : bool := b <=? a.

(** [a / b] with a divisor that is not a literal: Python raises on a zero
    divisor (of either sign) instead of answering an infinity or a NaN. *)
Definition fdiv (a b : float) : outcome float :=
  if b =? 0 then Raise ZeroDivisionError else Ret (a / b).

(** [math.sqrt]: a domain error below zero, the IEEE square root otherwise
    (NaN is passed through). *)
Definition math_sqrt (x : float) : outcome float :=
  if x <? 0 then Raise ValueError else Ret (sqrt x).

(** The built-ins [min(a, b)] and [max(a, b)]: the second argument replaces
    the first only when it compares strictly smaller (greater). *)
Definition min2 (a b : float) : float := if b <? a then b else a.
Definition max2 (a b : float) : float := if fgt b a then b else a.

(** [min(xs)] and [max(xs)] on a list; the empty list is a [ValueError]. *)
Definition min_list (xs : list float) : outcome float :=
  match xs with
  | [] => Raise ValueError
  | x :: rest => Ret (fold_left min2 rest x)
  end.

Definition max_list (xs : list float) : outcome float :=
  match xs with
  | [] => Raise ValueError
  | x :: rest => Ret (fold_left max2 rest x)
  end.

(** [int(x)]: truncation towards zero; infinities and NaN raise. *)
Definition py_int (x : float) : outcome Z :=
  match Prim2SF x with
  | S754_zero _ => Ret 0%Z
  | S754_finite s m e => Ret (cond_Zopp s (Z.shiftl (Zpos m) e))
  | S754_infinity _ => Raise OverflowError
  | S754_nan => Raise ValueError
  end.

(** The value of an [int] as a float, rounded to nearest even. *)
Definition of_int (z : Z) : float :=
  SF2Prim (binary_normalize prec emax z 0 false).

(** An [int] operand of a float operation is first converted, rounding to
    nearest even; an [int] beyond the float range raises. *)
Definition float_of_int (z : Z) : outcome float :=
  let f := of_int z in
  if is_infinity f then Raise OverflowError else Ret f.

(** A [for] loop over a list, threading the loop state. *)
Fixpoint for_each {A S : Type} (body : A -> S -> outcome S) (items : list A)
    (s : S) : outcome S :=
  match items with
  | [] => Ret s
  | a :: rest => s' <- body a s ;; for_each body rest s'
  end.

(** A [while] loop: one unit of fuel per iteration. *)
Fixpoint while {S : Type} (fuel : nat) (cond : S -> bool)
    (body : S -> outcome S) (s : S) : outcome S :=
  if cond s then
    match fuel with
    | O => Diverge
    | Datatypes.S n => s' <- body s ;; while n cond body s'
    end
  else Ret s.

(** [range(lo, hi)]. *)
Definition range (lo hi : Z) : list Z :=
  map (fun n => (lo + Z.of_nat n)%Z) (seq 0 (Z.to_nat (hi - lo))).

(** [math.pi] and [math.radians]. *)
Definition math_pi : float := 0x1.921fb54442d18p+1.
Definition math_radians (deg : float) : float := deg * (math_pi / 180).

(** ** What the language runtime supplies

    [math.cos], [math.sin] and the power behind [x ** 2] come from the
    platform's C library, and the built-in [sum] changed its rounding
    between interpreter versions; IEEE 754 fixes none of them.  They are
    taken as a parameter of the model. *)
Record runtime : Type := {
  math_cos : float -> outcome float;
  math_sin : float -> outcome float;
  pow2 : float -> outcome float;      (* x ** 2 *)
  float_sum : list float -> float     (* sum(xs) for a non-empty xs *)
}.

(** [sum(xs)] starts from the integer [0], which is its answer on an empty
    sequence. *)
Definition py_sum (rt : runtime) (xs : list float) : float :=
  match xs with
  | [] => 0
  | _ => float_sum rt xs
  end.

(** A reference runtime for running the model: the two angles the packer
    uses with the values the C library gives for them, squares rounded
    correctly with Python's overflow check, and left-to-right summation.
    Angles outside the table are answered with NaN. *)
Definition cos_quarter : float := 0x1.1a62633145c07p-54. (* cos(radians(90)) *)

Definition ref_cos (x : float) : outcome float :=
  if x =? 0 then Ret 1
  else if x =? math_radians 90 then Ret cos_quarter
  else Ret nan.

Definition ref_sin (x : float) : outcome float :=
  if x =? 0 then Ret 0
  else if x =? math_radians 90 then Ret 1
  else Ret nan.

Definition ref_pow2 (x : float) : outcome float :=
  let y := x * x in
  if is_infinity y && negb (is_infinity x) then Raise OverflowError else Ret y.

Definition ref_runtime : runtime := {|
  math_cos := ref_cos;
  math_sin := ref_sin;
  pow2 := ref_pow2;
  float_sum := fun xs => fold_left add xs 0
|}.

(** The summation of later interpreters (3.12 on): Neumaier's compensated
    sum, the running sum [f] with the lost low parts collected in [c]. *)
Definition neumaier_sum (xs : list float) : float :=
  let '(f, c) :=
    fold_left (fun (st : float * float) v =>
                 let '(f, c) := st in
                 let t := f + v in
                 if fge (abs f) (abs v) then (t, c + ((f - t) + v))
                 else (t, c + ((v - t) + f)))
              xs (0, 0) in
  if negb (c =? 0) && negb (is_infinity c) && negb (is_nan c) then f + c
  else f.

Definition compensated_runtime : runtime := {|
  math_cos := ref_cos;
  math_sin := ref_sin;
  pow2 := ref_pow2;
  float_sum := neumaier_sum
|}.

(** ** Data model *)

Record Position : Type := { x : float; y : float }.

Record Circle : Type := { radius : float; position : Position }.

Record Rectangle : Type := {
  rect_position : Position;
  width : float;
  height : float;
  rotation : float
}.

Definition vec : Type := (float * float)%type.

Section Engine.

Variable rt : runtime.

(** ** Geometry primitives *)

(** [Rectangle.get_corners]: the four half-extent offsets rotated about the
    centre, in the order bottom-left, bottom-right, top-right, top-left. *)
Definition get_corners (r : Rectangle) : outcome (list Position) :=
  let rad := math_radians (rotation r) in
  cos_r <- math_cos rt rad ;;
  sin_r <- math_sin rt rad ;;
  let hw := width r / 2 in
  let hh := height r / 2 in
  let local_corners := [(- hw, - hh); (hw, - hh); (hw, hh); (- hw, hh)] in
  Ret (map (fun l : vec =>
              let (lx, ly) := l in
              let rx := lx * cos_r - ly * sin_r in
              let ry := lx * sin_r + ly * cos_r in
              {| x := x (rect_position r) + rx; y := y (rect_position r) + ry |})
           local_corners).

(** ** Collision detection with the Separating Axis Theorem *)

Definition dot_product (v1 v2 : vec) : float :=
  fst v1 * fst v2 + snd v1 * snd v2.

Definition normalize_vector (v : vec) : outcome vec :=
  a <- pow2 rt (fst v) ;;
  b <- pow2 rt (snd v) ;;
  length <- math_sqrt (a + b) ;;
  if length =? 0 then Ret (0, 0)
  else Ret (fst v / length, snd v / length).

Definition get_edge_normal (v1 v2 : vec) : outcome vec :=
  let edge := (fst v2 - fst v1, snd v2 - snd v1) in
  normalize_vector (- snd edge, fst edge).

Definition project_polygon (axis : vec) (vertices : list vec) : outcome vec :=
  let projections := map (dot_product axis) vertices in
  lo <- min_list projections ;;
  hi <- max_list projections ;;
  Ret (lo, hi).

Definition epsilon : float := 0x1.0c6f7a0b5ed8dp-20. (* 1e-6 *)

(** The gap of two projections: positive when they overlap, zero when they
    touch, negative when they are apart. *)
Definition gap (proj1 proj2 : vec) : float :=
  min2 (snd proj1) (snd proj2) - max2 (fst proj1) (fst proj2).

Definition projections_overlap (proj1 proj2 : vec) (tolerance : float) : bool :=
  let gap := gap proj1 proj2 in
  if tolerance <? epsilon then fgt gap epsilon
  else fgt gap (- tolerance - epsilon).

(** [corners[i]]. *)
Definition index (corners : list vec) (i : nat) : outcome vec :=
  match nth_error corners i with
  | Some v => Ret v
  | None => Raise IndexError
  end.

(** One round of the loop of [sat_rectangles_collide]: the axis of edge [i]
    of the first rectangle, then the axis of edge [i] of the second.  It
    answers [false] when a separating axis is found. *)
Definition sat_round (rect1_corners rect2_corners : list vec)
    (tolerance : float) (i : nat) : outcome bool :=
  a <- index rect1_corners i ;;
  b <- index rect1_corners ((i + 1) mod 4) ;;
  axis1 <- get_edge_normal a b ;;
  proj1_r1 <- project_polygon axis1 rect1_corners ;;
  proj1_r2 <- project_polygon axis1 rect2_corners ;;
  if negb (projections_overlap proj1_r1 proj1_r2 tolerance) then Ret false
  else
    c <- index rect2_corners i ;;
    d <- index rect2_corners ((i + 1) mod 4) ;;
    axis2 <- get_edge_normal c d ;;
    proj2_r1 <- project_polygon axis2 rect1_corners ;;
    proj2_r2 <- project_polygon axis2 rect2_corners ;;
    Ret (projections_overlap proj2_r1 proj2_r2 tolerance).

Fixpoint sat_rounds (rect1_corners rect2_corners : list vec)
    (tolerance : float) (rounds : list nat) : outcome bool :=
  match rounds with
  | [] => Ret true
  | i :: rest =>
      overlapping <- sat_round rect1_corners rect2_corners tolerance i ;;
      if overlapping then sat_rounds rect1_corners rect2_corners tolerance rest
      else Ret false
  end.

Definition sat_rectangles_collide (rect1_corners rect2_corners : list vec)
    (tolerance : float) : outcome bool :=
  sat_rounds rect1_corners rect2_corners tolerance (seq 0 4).

(** The projections the test looks at, in the order of the loop: for each
    round the pair on the axis of the first rectangle, then the pair on the
    axis of the second.  All eight are computed, whether or not an earlier
    one already separates the rectangles. *)
Definition axis_projections (rect1_corners rect2_corners : list vec) (a b : vec)
    : outcome (vec * vec) :=
  axis <- get_edge_normal a b ;;
  proj_r1 <- project_polygon axis rect1_corners ;;
  proj_r2 <- project_polygon axis rect2_corners ;;
  Ret (proj_r1, proj_r2).

Definition round_projections (rect1_corners rect2_corners : list vec) (i : nat)
    : outcome ((vec * vec) * (vec * vec)) :=
  a <- index rect1_corners i ;;
  b <- index rect1_corners ((i + 1) mod 4) ;;
  pair1 <- axis_projections rect1_corners rect2_corners a b ;;
  c <- index rect2_corners i ;;
  d <- index rect2_corners ((i + 1) mod 4) ;;
  pair2 <- axis_projections rect1_corners rect2_corners c d ;;
  Ret (pair1, pair2).

Fixpoint tested_projections (rect1_corners rect2_corners : list vec)
    (rounds : list nat) : outcome (list (vec * vec)) :=
  match rounds with
  | [] => Ret []
  | i :: rest =>
      pairs <- round_projections rect1_corners rect2_corners i ;;
      more <- tested_projections rect1_corners rect2_corners rest ;;
      Ret (fst pairs :: snd pairs :: more)
  end.

(** The gaps on the tested axes. *)
Definition pair_gap (pair : vec * vec) : float := gap (fst pair) (snd pair).

Definition axis_gaps (rect1_corners rect2_corners : list vec) (rounds : list nat)
    : outcome (list float) :=
  pairs <- tested_projections rect1_corners rect2_corners rounds ;;
  Ret (map pair_gap pairs).

(** The decision [projections_overlap] takes on a gap. *)
Definition gap_overlaps (tolerance gap : float) : bool :=
  if tolerance <? epsilon then fgt gap epsilon
  else fgt gap (- tolerance - epsilon).

Definition corner_pairs (corners : list Position) : list vec :=
  map (fun c => (x c, y c)) corners.

Definition rectangles_overlap (rect1 rect2 : Rectangle) (tolerance : float)
    : outcome bool :=
  corners1 <- get_corners rect1 ;;
  corners2 <- get_corners rect2 ;;
  sat_rectangles_collide (corner_pairs corners1) (corner_pairs corners2) tolerance.

Fixpoint rectangle_overlaps_any (rect : Rectangle)
    (placed_rectangles : list Rectangle) (tolerance : float) : outcome bool :=
  match placed_rectangles with
  | [] => Ret false
  | placed_rect :: rest =>
      hit <- rectangles_overlap rect placed_rect tolerance ;;
      if hit then Ret true
      else rectangle_overlaps_any rect rest tolerance
  end.

(** ** The packer *)

Record RectanglePacker : Type := {
  circle_diameter : float;
  rect_width : float;
  rect_height : float;
  packer_radius : float;
  tolerance : float;
  safe_zone : float;
  effective_radius : float
}.

(** [RectanglePacker.__init__]. *)
Definition new_packer (circle_diameter rect_width rect_height tolerance safe_zone : float)
    : RectanglePacker :=
  {| circle_diameter := circle_diameter;
     rect_width := rect_width;
     rect_height := rect_height;
     packer_radius := circle_diameter / 2;
     tolerance := tolerance;
     safe_zone := safe_zone;
     effective_radius := circle_diameter / 2 - safe_zone |}.

Record PackingResult : Type := {
  rectangles : list Rectangle;
  circle : option Circle;
  count : Z;
  strategy : string;
  efficiency : float;
  waste : float;
  used_area : float;
  total_area : float
}.

(** [PackingResult.__init__]. *)
Definition new_result : PackingResult :=
  {| rectangles := []; circle := None; count := 0; strategy := "";
     efficiency := 0; waste := 0; used_area := 0; total_area := 0 |}.

(** The distance of a corner from the origin, as the containment check
    computes it: [math.sqrt(corner.x ** 2 + corner.y ** 2)]. *)
Definition corner_distance (corner : Position) : outcome float :=
  a <- pow2 rt (x corner) ;;
  b <- pow2 rt (y corner) ;;
  math_sqrt (a + b).

Variable self : RectanglePacker.

(** Fuel for each [while] loop of a run. *)
Variable fuel : nat.

(** The distance test of one corner: [true] when the corner lies beyond
    the effective radius. *)
Definition corner_outside (corner : Position) : outcome bool :=
  distance <- corner_distance corner ;;
  Ret (fgt distance (effective_radius self)).

Fixpoint all_corners_inside (corners : list Position) : outcome bool :=
  match corners with
  | [] => Ret true
  | corner :: rest =>
      outside <- corner_outside corner ;;
      if outside then Ret false else all_corners_inside rest
  end.

Definition _rectangle_fits_in_circle (rect : Rectangle) : outcome bool :=
  corners <- get_corners rect ;;
  all_corners_inside corners.

(** A candidate is appended to the accepted list when it fits in the
    circle and collides with nothing accepted so far. *)
Definition place_if_free (new_rect : Rectangle) (filled_rects : list Rectangle)
    : outcome (list Rectangle) :=
  fits <- _rectangle_fits_in_circle new_rect ;;
  if fits then
    hit <- rectangle_overlaps_any new_rect filled_rects (tolerance self) ;;
    if hit then Ret filled_rects else Ret (filled_rects ++ [new_rect])
  else Ret filled_rects.

Definition _validate_pair_row (r : Rectangle) (others : list Rectangle)
    : outcome bool :=
  hit <- rectangle_overlaps_any r others (tolerance self) ;;
  Ret (negb hit).

(** [_validate_no_overlaps]: every pair [i < j], row by row. *)
Fixpoint _validate_no_overlaps (rectangles : list Rectangle) : outcome bool :=
  match rectangles with
  | [] => Ret true
  | r :: rest =>
      ok <- _validate_pair_row r rest ;;
      if ok then _validate_no_overlaps rest else Ret false
  end.

Definition _calculate_efficiency (result : PackingResult) : outcome PackingResult :=
  match circle result with
  | None => Ret result
  | Some c =>
      r2 <- pow2 rt (radius c) ;;
      let total := math_pi * r2 in
      let used :=
        py_sum rt (map (fun _ => rect_width self * rect_height self)
                       (rectangles result)) in
      if fgt total 0 then
        let eff := (used / total) * 100 in
        Ret {| rectangles := rectangles result; circle := circle result;
               count := count result; strategy := strategy result;
               efficiency := eff; waste := 100 - eff;
               used_area := used; total_area := total |}
      else
        Ret {| rectangles := rectangles result; circle := circle result;
               count := count result; strategy := strategy result;
               efficiency := 0; waste := 100;
               used_area := used; total_area := total |}
  end.

Definition make_rect (center_x center_y rotation : float) : Rectangle :=
  {| rect_position := {| x := center_x; y := center_y |};
     width := rect_width self;
     height := rect_height self;
     rotation := rotation |}.

Definition len (rects : list Rectangle) : Z := Z.of_nat (List.length rects).

(** ** The strict grid strategy for one base orientation *)

Section StrictGrid.

Variable rotation : Z.

(** Footprint of the base orientation, the alternate orientation and the
    step sizes, which include the clearance. *)
Definition cell_w : float :=
  if (rotation =? 90)%Z then rect_height self else rect_width self.
Definition cell_h : float :=
  if (rotation =? 90)%Z then rect_width self else rect_height self.
Definition alt_rotation : Z := if (rotation =? 90)%Z then 0%Z else 90%Z.

Definition ortho_w : float := cell_h.
Definition ortho_h : float := cell_w.

Definition grid_step_x : float := cell_w + tolerance self.
Definition grid_step_y : float := cell_h + tolerance self.
Definition ortho_step_x : float := ortho_w + tolerance self.
Definition ortho_step_y : float := ortho_h + tolerance self.

(** The base grid of one offset: the accepted rectangles and the bounding
    box of their edges. *)
Record grid_state : Type := {
  current_rects : list Rectangle;
  min_x : float;
  max_x : float;
  min_y : float;
  max_y : float
}.

Definition empty_grid : grid_state :=
  {| current_rects := []; min_x := infinity; max_x := neg_infinity;
     min_y := infinity; max_y := neg_infinity |}.

Definition grid_cell (offset_x offset_y start_x start_y : float) (r c : Z)
    (g : grid_state) : outcome grid_state :=
  fc <- float_of_int c ;;
  let cell_x := start_x + fc * grid_step_x + offset_x in
  fr <- float_of_int r ;;
  let cell_y := start_y + fr * grid_step_y + offset_y in
  let center_x := cell_x + cell_w / 2 in
  let center_y := cell_y + cell_h / 2 in
  let rect := make_rect center_x center_y (of_int rotation) in
  fits <- _rectangle_fits_in_circle rect ;;
  if fits then
    Ret {| current_rects := current_rects g ++ [rect];
           min_x := min2 (min_x g) (center_x - cell_w / 2);
           max_x := max2 (max_x g) (center_x + cell_w / 2);
           min_y := min2 (min_y g) (center_y - cell_h / 2);
           max_y := max2 (max_y g) (center_y + cell_h / 2) |}
  else Ret g.

Definition base_grid (offset_x offset_y : float) : outcome grid_state :=
  let start_x := - packer_radius self - cell_w in
  let start_y := - packer_radius self - cell_h in
  qx <- fdiv (circle_diameter self + 2 * cell_w) grid_step_x ;;
  ix <- py_int qx ;;
  let cols := (ix + 2)%Z in
  qy <- fdiv (circle_diameter self + 2 * cell_h) grid_step_y ;;
  iy <- py_int qy ;;
  let rows := (iy + 2)%Z in
  for_each (fun r g =>
              for_each (grid_cell offset_x offset_y start_x start_y r)
                       (range 0 cols) g)
           (range 0 rows) empty_grid.

(** The lattice indices scanned along an edge: from just below [-radius]
    to just above [radius], aligned with [start_scan]. *)
Definition scan_indices (start_scan step : float) : outcome (list Z) :=
  q1 <- fdiv (- packer_radius self - start_scan) step ;;
  i1 <- py_int q1 ;;
  let k_start := (i1 - 1)%Z in
  q2 <- fdiv (packer_radius self - start_scan) step ;;
  i2 <- py_int q2 ;;
  let k_end := (i2 + 2)%Z in
  Ret (range k_start k_end).

(** One scan line of an edge fill: candidates in the alternate orientation
    at [start_scan + k * step]; [at_coord] places the scanned coordinate. *)
Definition scan_line (at_coord : float -> Rectangle) (start_scan step : float)
    (filled_rects : list Rectangle) : outcome (list Rectangle) :=
  ks <- scan_indices start_scan step ;;
  for_each (fun k filled =>
              fk <- float_of_int k ;;
              place_if_free (at_coord (start_scan + fk * step)) filled)
           ks filled_rects.

Definition edge_state : Type := (float * list Rectangle)%type.

(** 1. Fill right. *)
Definition fill_right (g : grid_state) (filled_rects : list Rectangle)
    : outcome (list Rectangle) :=
  st <- while fuel
          (fun st : edge_state => fst st - ortho_w / 2 <? packer_radius self)
          (fun st =>
             let curr_x := fst st in
             let start_scan_y := min_y g + ortho_h / 2 in
             filled <- scan_line
                         (fun curr_y => make_rect curr_x curr_y (of_int alt_rotation))
                         start_scan_y ortho_step_y (snd st) ;;
             Ret (curr_x + ortho_step_x, filled))
          (max_x g + tolerance self + ortho_w / 2, filled_rects) ;;
  Ret (snd st).

(** 2. Fill left. *)
Definition fill_left (g : grid_state) (filled_rects : list Rectangle)
    : outcome (list Rectangle) :=
  st <- while fuel
          (fun st : edge_state => fgt (fst st + ortho_w / 2) (- packer_radius self))
          (fun st =>
             let curr_x := fst st in
             let start_scan_y := min_y g + ortho_h / 2 in
             filled <- scan_line
                         (fun curr_y => make_rect curr_x curr_y (of_int alt_rotation))
                         start_scan_y ortho_step_y (snd st) ;;
             Ret (curr_x - ortho_step_x, filled))
          (min_x g - tolerance self - ortho_w / 2, filled_rects) ;;
  Ret (snd st).

(** 3. Fill top. *)
Definition fill_top (g : grid_state) (filled_rects : list Rectangle)
    : outcome (list Rectangle) :=
  st <- while fuel
          (fun st : edge_state => fst st - ortho_h / 2 <? packer_radius self)
          (fun st =>
             let curr_y := fst st in
             let start_scan_x := min_x g + ortho_w / 2 in
             filled <- scan_line
                         (fun curr_x => make_rect curr_x curr_y (of_int alt_rotation))
                         start_scan_x ortho_step_x (snd st) ;;
             Ret (curr_y + ortho_step_y, filled))
          (max_y g + tolerance self + ortho_h / 2, filled_rects) ;;
  Ret (snd st).

(** 4. Fill bottom. *)
Definition fill_bottom (g : grid_state) (filled_rects : list Rectangle)
    : outcome (list Rectangle) :=
  st <- while fuel
          (fun st : edge_state => fgt (fst st + ortho_h / 2) (- packer_radius self))
          (fun st =>
             let curr_y := fst st in
             let start_scan_x := min_x g + ortho_w / 2 in
             filled <- scan_line
                         (fun curr_x => make_rect curr_x curr_y (of_int alt_rotation))
                         start_scan_x ortho_step_x (snd st) ;;
             Ret (curr_y - ortho_step_y, filled))
          (min_y g - tolerance self - ortho_h / 2, filled_rects) ;;
  Ret (snd st).

(** 5. Centre fill, top and bottom: a single column in the base
    orientation, stacked outwards until a candidate fails.  The state is
    the next [curr_y], the accepted rectangles and whether the loop was
    left by [break]. *)
Definition strip_state : Type := (float * list Rectangle * bool)%type.

Definition center_step (g : grid_state) (next_y : float -> float)
    (st : strip_state) : outcome strip_state :=
  let '(curr_y, filled_rects, _) := st in
  let grid_center_x := (min_x g + max_x g) / 2 in
  let new_rect := make_rect grid_center_x curr_y (of_int rotation) in
  fits <- _rectangle_fits_in_circle new_rect ;;
  if fits then
    hit <- rectangle_overlaps_any new_rect filled_rects (tolerance self) ;;
    if hit then Ret (curr_y, filled_rects, true)
    else Ret (next_y curr_y, filled_rects ++ [new_rect], false)
  else Ret (curr_y, filled_rects, true).

Definition center_top (g : grid_state) (filled_rects : list Rectangle)
    : outcome (list Rectangle) :=
  st <- while fuel
          (fun st : strip_state =>
             let '(curr_y, _, broke) := st in
             negb broke && (curr_y + cell_h / 2 <=? packer_radius self))
          (center_step g (fun curr_y => curr_y + grid_step_y))
          (max_y g + tolerance self + cell_h / 2, filled_rects, false) ;;
  Ret (snd (fst st)).

Definition center_bottom (g : grid_state) (filled_rects : list Rectangle)
    : outcome (list Rectangle) :=
  st <- while fuel
          (fun st : strip_state =>
             let '(curr_y, _, broke) := st in
             negb broke && fge (curr_y - cell_h / 2) (- packer_radius self))
          (center_step g (fun curr_y => curr_y - grid_step_y))
          (min_y g - tolerance self - cell_h / 2, filled_rects, false) ;;
  Ret (snd (fst st)).

(** The best list so far and its length. *)
Definition search_state : Type := (list Rectangle * Z)%type.

(** One offset of the search.  After the edge fills [best_rects] may be
    bound to the very list the centre fills go on appending to, so a first
    update that fired sees their additions as well. *)
Definition try_offset (i j : Z) (st : search_state) : outcome search_state :=
  let '(best_rects, max_count) := st in
  fi <- float_of_int i ;;
  let offset_x := (grid_step_x / 10) * fi in
  fj <- float_of_int j ;;
  let offset_y := (grid_step_y / 10) * fj in
  g <- base_grid offset_x offset_y ;;
  match current_rects g with
  | [] => Ret st
  | _ =>
      filled1 <- fill_right g (current_rects g) ;;
      filled2 <- fill_left g filled1 ;;
      filled3 <- fill_top g filled2 ;;
      filled4 <- fill_bottom g filled3 ;;
      let first := (len filled4 >? max_count)%Z in
      let max_count1 := if first then len filled4 else max_count in
      filled5 <- center_top g filled4 ;;
      filled6 <- center_bottom g filled5 ;;
      let best_rects1 := if first then filled6 else best_rects in
      if (len filled6 >? max_count1)%Z then Ret (filled6, len filled6)
      else Ret (best_rects1, max_count1)
  end.

Definition offset_search : outcome search_state :=
  for_each (fun i st => for_each (try_offset i) (range 0 10) st)
           (range 0 10) ([], 0%Z).

End StrictGrid.

(** ** Systematic gap fill *)

(** The candidate at a scan point is accepted when it fits and collides
    with nothing; the second test is not made when the first fails. *)
Definition fits_and_free (rect : Rectangle) (filled_rects : list Rectangle)
    : outcome bool :=
  fits <- _rectangle_fits_in_circle rect ;;
  if fits then
    hit <- rectangle_overlaps_any rect filled_rects (tolerance self) ;;
    Ret (negb hit)
  else Ret false.

(** Orientation 0 first, then 90; the first accepted one ends the point. *)
Fixpoint scan_point (scan_x scan_y : float) (rotations : list float)
    (filled_rects : list Rectangle) : outcome (list Rectangle) :=
  match rotations with
  | [] => Ret filled_rects
  | rotation :: rest =>
      let rect := make_rect scan_x scan_y rotation in
      ok <- fits_and_free rect filled_rects ;;
      if ok then Ret (filled_rects ++ [rect])
      else scan_point scan_x scan_y rest filled_rects
  end.

Definition _systematic_gap_fill (placed_rectangles : list Rectangle)
    : outcome (list Rectangle) :=
  let scan_step := min2 (rect_width self) (rect_height self) / 2 in
  st <- while fuel
          (fun st : edge_state => fst st <=? packer_radius self)
          (fun st =>
             let scan_y := fst st in
             row <- while fuel
                      (fun st : edge_state => fst st <=? packer_radius self)
                      (fun st =>
                         let scan_x := fst st in
                         filled <- scan_point scan_x scan_y [0; 90] (snd st) ;;
                         Ret (scan_x + scan_step, filled))
                      (- packer_radius self, snd st) ;;
             Ret (scan_y + scan_step, snd row))
          (- packer_radius self, placed_rectangles) ;;
  Ret (snd st).

(** ** The strategy and the optimizer *)

Definition string_of_int (z : Z) : string :=
  NilZero.string_of_int (Z.to_int z).

Definition _strict_grid_packing (rotation : Z) : outcome PackingResult :=
  let circle :=
    {| radius := packer_radius self; position := {| x := 0; y := 0 |} |} in
  let strategy :=
    ("Strict Grid (Rot: " ++ string_of_int rotation ++ "° + Fill)")%string in
  '(best_rects, max_count) <- offset_search rotation ;;
  match best_rects with
  | [] =>
      Ret {| rectangles := best_rects; circle := Some circle;
             count := max_count; strategy := strategy;
             efficiency := 0; waste := 0; used_area := 0; total_area := 0 |}
  | _ =>
      best_rects' <- _systematic_gap_fill best_rects ;;
      Ret {| rectangles := best_rects'; circle := Some circle;
             count := len best_rects'; strategy := strategy;
             efficiency := 0; waste := 0; used_area := 0; total_area := 0 |}
  end.

(** [max(results, key=lambda r: r.count)]: the first result of the largest
    count. *)
Definition max_by_count (first : PackingResult) (others : list PackingResult)
    : PackingResult :=
  fold_left (fun best r => if (count r >? count best)%Z then r else best)
            others first.

Definition valid_results (results : list PackingResult)
    : outcome (list PackingResult) :=
  for_each (fun result valid =>
              ok <- _validate_no_overlaps (rectangles result) ;;
              if ok then Ret (valid ++ [result]) else Ret valid)
           results [].

Definition find_optimal_packing : outcome PackingResult :=
  result0 <- _strict_grid_packing 0 ;;
  result90 <- _strict_grid_packing 90 ;;
  let results := [result0; result90] in
  valid <- valid_results results ;;
  let best :=
    match valid with
    | first :: others => max_by_count first others
    | [] => max_by_count result0 [result90]
    end in
  _calculate_efficiency best.

End Engine.

(** * Properties *)

(** ** Reasoning about outcomes and loops *)

Lemma bind_Ret {A B : Type} (m : outcome A) (k : A -> outcome B) (b : B) :
  bind m k = Ret b -> exists a, m = Ret a /\ k a = Ret b.
Proof.
  destruct m as [a | e |]; simpl; intros H; try discriminate.
  exists a; split; [reflexivity | exact H].
Qed.

(** Splits a returning [bind] into its two returning halves, and a
    returning conditional into its branches. *)
Ltac run_inv H :=
  lazymatch type of H with
  | bind _ _ = Ret _ =>
      let a := fresh "v" in
      let Ha := fresh "Hv" in
      let Hk := fresh "Hk" in
      apply bind_Ret in H; destruct H as [a [Ha Hk]];
      cbv beta in Hk; try run_inv Hk
  | Ret _ = Ret _ => injection H as H; try subst
  | (if ?c then _ else _) = Ret _ =>
      let Hc := fresh "Hc" in
      destruct c eqn:Hc; try run_inv H
  | (let '(_, _) := ?p in _) = Ret _ =>
      destruct p; try run_inv H
  | _ => idtac
  end.

Lemma for_each_invariant {A S : Type} (P : S -> Prop)
    (body : A -> S -> outcome S) (items : list A) :
  (forall a s s', P s -> body a s = Ret s' -> P s') ->
  forall s s', P s -> for_each body items s = Ret s' -> P s'.
Proof.
  intros Hbody. induction items as [| a rest IH]; simpl; intros s s' Hs H.
  - injection H as <-. exact Hs.
  - apply bind_Ret in H. destruct H as [s1 [H1 H2]].
    eapply IH; [| exact H2]. eapply Hbody; eassumption.
Qed.

Lemma while_invariant {S : Type} (P : S -> Prop) (cond : S -> bool)
    (body : S -> outcome S) :
  (forall s s', P s -> cond s = true -> body s = Ret s' -> P s') ->
  forall fuel s s', P s -> while fuel cond body s = Ret s' ->
                    P s' /\ cond s' = false.
Proof.
  intros Hbody. induction fuel as [| n IH]; intros s s' Hs H; simpl in H.
  - destruct (cond s) eqn:Hc; [discriminate |].
    injection H as <-. split; assumption.
  - destruct (cond s) eqn:Hc.
    + apply bind_Ret in H. destruct H as [s1 [H1 H2]].
      eapply IH; [| exact H2]. eapply Hbody; eassumption.
    + injection H as <-. split; assumption.
Qed.

(** ** What every accepted rectangle satisfies *)

Section Accepted.

Variable rt : runtime.
Variable self : RectanglePacker.

(** A rectangle of the run: built by [make_rect] in one of the orientations
    [rots], and passed by the containment check. *)
Definition accepted (rots : list float) (r : Rectangle) : Prop :=
  (exists cx cy rot, In rot rots /\ r = make_rect self cx cy rot) /\
  _rectangle_fits_in_circle rt self r = Ret true.

Lemma accepted_weaken (rots rots' : list float) (r : Rectangle) :
  incl rots rots' -> accepted rots r -> accepted rots' r.
Proof.
  intros Hincl [[cx [cy [rot [Hin Hr]]]] Hfits]. split; [| exact Hfits].
  exists cx, cy, rot. split; [apply Hincl; exact Hin | exact Hr].
Qed.

Lemma accepted_make (rots : list float) (cx cy rot : float) :
  In rot rots ->
  _rectangle_fits_in_circle rt self (make_rect self cx cy rot) = Ret true ->
  accepted rots (make_rect self cx cy rot).
Proof.
  intros Hin Hfits. split; [| exact Hfits]. exists cx, cy, rot. auto.
Qed.

Lemma Forall_snoc {A : Type} (P : A -> Prop) (l : list A) (a : A) :
  Forall P l -> P a -> Forall P (l ++ [a]).
Proof.
  intros Hl Ha. apply Forall_app. split; [exact Hl | constructor; [exact Ha | constructor]].
Qed.

Lemma place_if_free_accepted (rots : list float) (cx cy rot : float)
    (filled filled' : list Rectangle) :
  In rot rots ->
  Forall (accepted rots) filled ->
  place_if_free rt self (make_rect self cx cy rot) filled = Ret filled' ->
  Forall (accepted rots) filled'.
Proof.
  intros Hin Hall H. unfold place_if_free in H. run_inv H; try exact Hall.
  apply Forall_snoc; [exact Hall | apply accepted_make; assumption].
Qed.

Section GridAccepted.

Variable fuel : nat.
Variable rotation : Z.

Let rots : list float := [of_int rotation; of_int (alt_rotation rotation)].

Lemma grid_cell_accepted (ox oy sx sy : float) (r c : Z) (g g' : grid_state) :
  Forall (accepted rots) (current_rects g) ->
  grid_cell rt self rotation ox oy sx sy r c g = Ret g' ->
  Forall (accepted rots) (current_rects g').
Proof.
  intros Hall H. unfold grid_cell in H. run_inv H; simpl; try exact Hall.
  apply Forall_snoc; [exact Hall |].
  apply accepted_make; [left; reflexivity | assumption].
Qed.

Lemma base_grid_accepted (ox oy : float) (g : grid_state) :
  base_grid rt self rotation ox oy = Ret g ->
  Forall (accepted rots) (current_rects g).
Proof.
  intros H. unfold base_grid in H. run_inv H.
  match goal with Hf : for_each _ _ _ = Ret _ |- _ => revert Hf end.
  apply (for_each_invariant (fun g => Forall (accepted rots) (current_rects g)));
    [| constructor].
  intros r g0 g1 Hg0.
  apply (for_each_invariant (fun g => Forall (accepted rots) (current_rects g)));
    [| exact Hg0].
  intros c g2 g3 Hg2 Hcell. eapply grid_cell_accepted; eassumption.
Qed.

Lemma scan_line_accepted (at_coord : float -> Rectangle) (start step : float)
    (filled filled' : list Rectangle) :
  (forall c, exists cx cy, at_coord c = make_rect self cx cy (of_int (alt_rotation rotation))) ->
  Forall (accepted rots) filled ->
  scan_line rt self at_coord start step filled = Ret filled' ->
  Forall (accepted rots) filled'.
Proof.
  intros Hat Hall H. unfold scan_line in H. run_inv H.
  match goal with Hf : for_each _ _ _ = Ret _ |- _ => revert Hf end.
  apply for_each_invariant; [| exact Hall].
  intros k s s' Hs Hbody. run_inv Hbody.
  match goal with
  | Hp : place_if_free _ _ (at_coord ?c) _ = Ret _ |- _ =>
      destruct (Hat c) as [cx [cy Hc]]; rewrite Hc in Hp;
      eapply place_if_free_accepted; [| exact Hs | exact Hp]
  end.
  right; left; reflexivity.
Qed.

(** The four edge fills share one shape: a loop over [edge_state] whose
    body runs one scan line. *)
Lemma edge_fill_accepted (cond : edge_state -> bool)
    (body : edge_state -> outcome edge_state) (start : float)
    (filled : list Rectangle) (st : edge_state) :
  (forall s s', Forall (accepted rots) (snd s) -> body s = Ret s' ->
                Forall (accepted rots) (snd s')) ->
  Forall (accepted rots) filled ->
  while fuel cond body (start, filled) = Ret st ->
  Forall (accepted rots) (snd st).
Proof.
  intros Hbody Hall H.
  apply (while_invariant (fun s : edge_state => Forall (accepted rots) (snd s)))
    in H; [tauto | | exact Hall].
  intros s s' Hs _ Hb. eapply Hbody; eassumption.
Qed.

Ltac edge_fill :=
  let H := fresh "H" in
  intros ? H; run_inv H;
  match goal with
  | Hw : while _ _ _ _ = Ret _ |- _ =>
      eapply edge_fill_accepted; [| eassumption | exact Hw]
  end;
  let Hs := fresh "Hs" in
  let Hb := fresh "Hb" in
  intros ? ? Hs Hb; cbv beta in Hb; run_inv Hb; simpl;
  match goal with
  | Hl : scan_line _ _ _ _ _ _ = Ret _ |- _ =>
      eapply scan_line_accepted; [| exact Hs | exact Hl]
  end;
  intros c; eexists; eexists; reflexivity.

Lemma fill_right_accepted (g : grid_state) (filled filled' : list Rectangle) :
  Forall (accepted rots) filled ->
  fill_right rt self fuel rotation g filled = Ret filled' ->
  Forall (accepted rots) filled'.
Proof. unfold fill_right. edge_fill. Qed.

Lemma fill_left_accepted (g : grid_state) (filled filled' : list Rectangle) :
  Forall (accepted rots) filled ->
  fill_left rt self fuel rotation g filled = Ret filled' ->
  Forall (accepted rots) filled'.
Proof. unfold fill_left. edge_fill. Qed.

Lemma fill_top_accepted (g : grid_state) (filled filled' : list Rectangle) :
  Forall (accepted rots) filled ->
  fill_top rt self fuel rotation g filled = Ret filled' ->
  Forall (accepted rots) filled'.
Proof. unfold fill_top. edge_fill. Qed.

Lemma fill_bottom_accepted (g : grid_state) (filled filled' : list Rectangle) :
  Forall (accepted rots) filled ->
  fill_bottom rt self fuel rotation g filled = Ret filled' ->
  Forall (accepted rots) filled'.
Proof. unfold fill_bottom. edge_fill. Qed.

(** The centre fills only append, and what they append is accepted. *)
Definition strip_ok (n : nat) (st : strip_state) : Prop :=
  Forall (accepted rots) (snd (fst st)) /\ (n <= List.length (snd (fst st)))%nat.

Lemma center_step_ok (g : grid_state) (next_y : float -> float) (n : nat)
    (st st' : strip_state) :
  strip_ok n st ->
  center_step rt self rotation g next_y st = Ret st' ->
  strip_ok n st'.
Proof.
  intros [Hall Hlen] H. unfold center_step in H.
  destruct st as [[curr_y filled] broke]. simpl in Hall, Hlen.
  run_inv H; unfold strip_ok; simpl; try (split; assumption).
  split.
  - apply Forall_snoc; [exact Hall |].
    apply accepted_make; [left; reflexivity | assumption].
  - rewrite length_app. simpl. lia.
Qed.

Lemma center_loop_ok (cond : strip_state -> bool) (g : grid_state)
    (next_y : float -> float) (start : float) (filled : list Rectangle)
    (st : strip_state) :
  Forall (accepted rots) filled ->
  while fuel cond (center_step rt self rotation g next_y) (start, filled, false)
    = Ret st ->
  strip_ok (List.length filled) st.
Proof.
  intros Hall H.
  apply (while_invariant (strip_ok (List.length filled))) in H; [tauto | |].
  - intros s s' Hs _ Hb. eapply center_step_ok; eassumption.
  - split; simpl; [exact Hall | lia].
Qed.

Lemma center_top_ok (g : grid_state) (filled filled' : list Rectangle) :
  Forall (accepted rots) filled ->
  center_top rt self fuel rotation g filled = Ret filled' ->
  Forall (accepted rots) filled' /\ (List.length filled <= List.length filled')%nat.
Proof.
  intros Hall H. unfold center_top in H. run_inv H.
  eapply center_loop_ok; eassumption.
Qed.

Lemma center_bottom_ok (g : grid_state) (filled filled' : list Rectangle) :
  Forall (accepted rots) filled ->
  center_bottom rt self fuel rotation g filled = Ret filled' ->
  Forall (accepted rots) filled' /\ (List.length filled <= List.length filled')%nat.
Proof.
  intros Hall H. unfold center_bottom in H. run_inv H.
  eapply center_loop_ok; eassumption.
Qed.

(** The search state: the best list is accepted throughout, and
    [max_count] is its length. *)
Definition search_ok (st : search_state) : Prop :=
  Forall (accepted rots) (fst st) /\ snd st = len (fst st).

Lemma try_offset_ok (i j : Z) (st st' : search_state) :
  search_ok st ->
  try_offset rt self fuel rotation i j st = Ret st' ->
  search_ok st'.
Proof.
  intros [Hall Hcount] H. unfold try_offset in H.
  destruct st as [best_rects max_count]. simpl in Hall, Hcount.
  run_inv H.
  1: split; [exact Hall | reflexivity].
  all: match goal with Hg : base_grid _ _ _ _ _ = Ret ?g |- _ =>
    pose proof (base_grid_accepted _ _ _ Hg) as Hgrid
  end.
  all: match goal with Hcur : current_rects _ = _ :: _ |- _ =>
    rewrite Hcur in Hgrid
  end.
  all: repeat match goal with
    | Hf : fill_right _ _ _ _ _ _ = Ret _ |- _ =>
        apply fill_right_accepted in Hf; [| assumption]
    | Hf : fill_left _ _ _ _ _ _ = Ret _ |- _ =>
        apply fill_left_accepted in Hf; [| assumption]
    | Hf : fill_top _ _ _ _ _ _ = Ret _ |- _ =>
        apply fill_top_accepted in Hf; [| assumption]
    | Hf : fill_bottom _ _ _ _ _ _ = Ret _ |- _ =>
        apply fill_bottom_accepted in Hf; [| assumption]
    | Hf : center_top _ _ _ _ _ _ = Ret _ |- _ =>
        apply center_top_ok in Hf; [destruct Hf | assumption]
    | Hf : center_bottom _ _ _ _ _ _ = Ret _ |- _ =>
        apply center_bottom_ok in Hf; [destruct Hf | assumption]
    end.
  all: unfold search_ok, len in *; simpl.
  all: repeat match goal with
    | Hc : (?a >? ?b)%Z = _ |- _ =>
        destruct (Z.gtb_spec a b); try discriminate; clear Hc
    | |- context [(?a >? ?b)%Z] => destruct (Z.gtb_spec a b)
    end.
  all: split; [assumption | lia].
Qed.

Lemma offset_search_ok (st : search_state) :
  offset_search rt self fuel rotation = Ret st -> search_ok st.
Proof.
  unfold offset_search. apply for_each_invariant.
  - intros i s s' Hs. apply for_each_invariant; [| exact Hs].
    intros j s0 s1 Hs0 Hb. eapply try_offset_ok; eassumption.
  - split; [constructor | reflexivity].
Qed.

End GridAccepted.

Lemma fits_and_free_fits (rect : Rectangle) (filled : list Rectangle) :
  fits_and_free rt self rect filled = Ret true ->
  _rectangle_fits_in_circle rt self rect = Ret true.
Proof.
  intros H. unfold fits_and_free in H. run_inv H; [assumption | discriminate].
Qed.

(** The systematic scan appends accepted rectangles of orientation 0 or 90. *)
Lemma scan_point_accepted (rots rotations : list float) (sx sy : float)
    (filled filled' : list Rectangle) :
  incl rotations rots ->
  Forall (accepted rots) filled ->
  scan_point rt self sx sy rotations filled = Ret filled' ->
  Forall (accepted rots) filled'.
Proof.
  induction rotations as [| rot rest IH]; simpl; intros Hincl Hall H.
  - injection H as <-. exact Hall.
  - apply bind_Ret in H. destruct H as [ok [Hok H]]. destruct ok.
    + injection H as <-. apply Forall_snoc; [exact Hall |].
      apply accepted_make; [apply Hincl; left; reflexivity |].
      eapply fits_and_free_fits. exact Hok.
    + apply IH; [| exact Hall | exact H].
      intros a Ha. apply Hincl. right. exact Ha.
Qed.

Lemma systematic_gap_fill_accepted (fuel : nat) (placed filled : list Rectangle) :
  Forall (accepted [0; 90]) placed ->
  _systematic_gap_fill rt self fuel placed = Ret filled ->
  Forall (accepted [0; 90]) filled.
Proof.
  intros Hall H. unfold _systematic_gap_fill in H. run_inv H.
  match goal with Hw : while _ _ _ _ = Ret _ |- _ =>
    apply (while_invariant (fun s : edge_state => Forall (accepted [0; 90]) (snd s)))
      in Hw; [tauto | | exact Hall]
  end.
  intros s s' Hs _ Hb. cbv beta in Hb. run_inv Hb. simpl.
  match goal with Hw : while _ _ _ _ = Ret _ |- _ =>
    apply (while_invariant (fun s : edge_state => Forall (accepted [0; 90]) (snd s)))
      in Hw; [tauto | | exact Hs]
  end.
  intros s0 s1 Hs0 _ Hb. cbv beta in Hb. run_inv Hb. simpl.
  eapply scan_point_accepted; [| exact Hs0 | eassumption].
  apply incl_refl.
Qed.

End Accepted.

(** ** The result of a run *)

Section Results.

Variable rt : runtime.
Variable self : RectanglePacker.
Variable fuel : nat.

Definition origin_circle : Circle :=
  {| radius := packer_radius self; position := {| x := 0; y := 0 |} |}.

Lemma base_rotations (rotation : Z) :
  rotation = 0%Z \/ rotation = 90%Z ->
  incl [of_int rotation; of_int (alt_rotation rotation)] [0; 90].
Proof.
  intros [-> | ->]; intros a [<- | [<- | []]]; simpl; auto.
Qed.

Lemma strict_grid_packing_result (rotation : Z) (r : PackingResult) :
  rotation = 0%Z \/ rotation = 90%Z ->
  _strict_grid_packing rt self fuel rotation = Ret r ->
  Forall (accepted rt self [0; 90]) (rectangles r) /\
  count r = len (rectangles r) /\
  circle r = Some origin_circle.
Proof.
  intros Hrot H. unfold _strict_grid_packing in H.
  apply bind_Ret in H. destruct H as [[best_rects max_count] [Hsearch H]].
  apply offset_search_ok in Hsearch. destruct Hsearch as [Hall Hcount].
  simpl in Hall, Hcount.
  assert (Hall' : Forall (accepted rt self [0; 90]) best_rects).
  { eapply Forall_impl; [| exact Hall].
    intros a. apply accepted_weaken. apply base_rotations. exact Hrot. }
  cbv beta iota in H. destruct best_rects as [| r0 rest].
  - injection H as <-. simpl. auto.
  - apply bind_Ret in H. destruct H as [filled [Hfill H]].
    injection H as <-. simpl.
    apply systematic_gap_fill_accepted in Hfill; auto.
Qed.

Lemma max_by_count_In (first : PackingResult) (others : list PackingResult) :
  In (max_by_count first others) (first :: others).
Proof.
  unfold max_by_count. revert first.
  induction others as [| r rest IH]; intros first; simpl.
  - left. reflexivity.
  - destruct (IH (if (count r >? count first)%Z then r else first)) as [H | H].
    + destruct (count r >? count first)%Z; rewrite <- H; auto.
    + right. right. exact H.
Qed.

(** The valid results are results that passed the validation, in order. *)
Lemma valid_results_spec (results valid : list PackingResult) :
  valid_results rt self results = Ret valid ->
  forall v, In v valid ->
    In v results /\ _validate_no_overlaps rt self (rectangles v) = Ret true.
Proof.
  unfold valid_results.
  set (P := fun acc : list PackingResult => forall v, In v acc ->
         In v results /\ _validate_no_overlaps rt self (rectangles v) = Ret true).
  assert (Hgen : forall items acc, incl items results -> P acc ->
            for_each (fun result valid =>
                        ok <- _validate_no_overlaps rt self (rectangles result) ;;
                        if ok then Ret (valid ++ [result]) else Ret valid)
                     items acc = Ret valid -> P valid).
  { induction items as [| r rest IH]; intros acc Hincl Hacc H; simpl in H.
    - injection H as <-. exact Hacc.
    - apply bind_Ret in H. destruct H as [acc' [Hstep H]].
      apply IH in H; [exact H | intros a Ha; apply Hincl; right; exact Ha |].
      apply bind_Ret in Hstep. destruct Hstep as [ok [Hok Hstep]].
      destruct ok; injection Hstep as <-; [| exact Hacc].
      intros v Hv. apply in_app_or in Hv. destruct Hv as [Hv | [<- | []]].
      + apply Hacc. exact Hv.
      + split; [apply Hincl; left; reflexivity | exact Hok]. }
  apply Hgen; [apply incl_refl | intros v []].
Qed.

(** The returned result is one of the two strategy results with its
    metrics filled in. *)
Lemma find_optimal_packing_origin (res : PackingResult) :
  find_optimal_packing rt self fuel = Ret res ->
  exists rotation best,
    (rotation = 0%Z \/ rotation = 90%Z) /\
    _strict_grid_packing rt self fuel rotation = Ret best /\
    _calculate_efficiency rt self best = Ret res.
Proof.
  intros H. unfold find_optimal_packing in H.
  apply bind_Ret in H. destruct H as [r0 [H0 H]].
  apply bind_Ret in H. destruct H as [r90 [H90 H]].
  apply bind_Ret in H. destruct H as [valid [Hvalid H]].
  assert (Hbest : forall best, In best [r0; r90] ->
            exists rotation, (rotation = 0%Z \/ rotation = 90%Z) /\
              _strict_grid_packing rt self fuel rotation = Ret best).
  { intros best [<- | [<- | []]]; [exists 0%Z | exists 90%Z]; auto. }
  destruct valid as [| first others].
  - destruct (Hbest _ (max_by_count_In r0 [r90])) as [rotation [Hrot Hs]].
    exists rotation, (max_by_count r0 [r90]). auto.
  - pose proof (valid_results_spec _ _ Hvalid) as Hspec.
    destruct (max_by_count_In first others) as [Hin | Hin].
    + destruct (Hspec first) as [Hres _]; [left; reflexivity |].
      destruct (Hbest _ Hres) as [rotation [Hrot Hs]].
      exists rotation, first. rewrite <- Hin in H. auto.
    + destruct (Hspec (max_by_count first others)) as [Hres _]; [right; exact Hin |].
      destruct (Hbest _ Hres) as [rotation [Hrot Hs]].
      exists rotation, (max_by_count first others). auto.
Qed.

Lemma calculate_efficiency_result (best res : PackingResult) (c : Circle) :
  circle best = Some c ->
  _calculate_efficiency rt self best = Ret res ->
  rectangles res = rectangles best /\
  count res = count best /\
  circle res = circle best /\
  strategy res = strategy best /\
  exists r2, pow2 rt (radius c) = Ret r2 /\
    total_area res = math_pi * r2 /\
    used_area res =
      py_sum rt (map (fun _ => rect_width self * rect_height self)
                     (rectangles best)) /\
    (fgt (total_area res) 0 = true ->
       efficiency res = used_area res / total_area res * 100 /\
       waste res = 100 - efficiency res) /\
    (fgt (total_area res) 0 = false ->
       efficiency res = 0 /\ waste res = 100).
Proof.
  intros Hc H. unfold _calculate_efficiency in H. rewrite Hc in H.
  apply bind_Ret in H. destruct H as [r2 [Hr2 H]].
  destruct (fgt (math_pi * r2) 0) eqn:Hpos; injection H as <-; simpl;
    do 4 (split; [first [reflexivity | symmetry; exact Hc] |]); exists r2;
    (split; [exact Hr2 |]); do 2 (split; [reflexivity |]);
    (split; intros Hf; rewrite Hpos in Hf; try discriminate);
    auto.
Qed.

(** Every rectangle of a returned result was accepted in orientation 0 or
    90, and the result carries the circle and the length of its list. *)
Lemma find_optimal_packing_accepted (res : PackingResult) :
  find_optimal_packing rt self fuel = Ret res ->
  Forall (accepted rt self [0; 90]) (rectangles res) /\
  count res = len (rectangles res) /\
  circle res = Some origin_circle.
Proof.
  intros H. apply find_optimal_packing_origin in H.
  destruct H as [rotation [best [Hrot [Hbest Heff]]]].
  apply strict_grid_packing_result in Hbest; [| exact Hrot].
  destruct Hbest as [Hall [Hcount Hcircle]].
  destruct (calculate_efficiency_result _ _ _ Hcircle Heff)
    as [Hrects [Hcnt [Hcirc _]]].
  rewrite Hrects, Hcnt, Hcirc. auto.
Qed.

End Results.

(** ** A run of the model, used to exercise the statements below *)

Definition demo_packer : RectanglePacker := new_packer 20 15 10 0 0.

(** The result of a run that returns. *)
Definition returned (o : outcome PackingResult) : PackingResult :=
  match o with
  | Ret r => r
  | _ => new_result
  end.

Definition demo_result : PackingResult :=
  Eval vm_compute in returned (find_optimal_packing ref_runtime demo_packer 8).

Lemma demo_run : find_optimal_packing ref_runtime demo_packer 8 = Ret demo_result.
Proof. vm_compute. reflexivity. Qed.

(** A run that returns five rectangles. *)
Definition five_packer : RectanglePacker := new_packer 40 15 10 0 0.

Definition five_result : PackingResult :=
  Eval vm_compute in returned (find_optimal_packing ref_runtime five_packer 50).

Lemma five_run : find_optimal_packing ref_runtime five_packer 50 = Ret five_result.
Proof. vm_compute. reflexivity. Qed.



(** ** Orientation restriction *)

(** C5: every rectangle of a result returned by [find_optimal_packing] has
    rotation exactly 0 or exactly 90. *)
Theorem orientation_restriction (rt : runtime) (self : RectanglePacker)
    (fuel : nat) (res : PackingResult) :
  find_optimal_packing rt self fuel = Ret res ->
  Forall (fun r => rotation r = 0 \/ rotation r = 90) (rectangles res).
Proof.
  intros H. apply find_optimal_packing_accepted in H. destruct H as [Hall _].
  eapply Forall_impl; [| exact Hall].
  intros r [[cx [cy [rot [Hin ->]]]] _]. simpl.
  destruct Hin as [<- | [<- | []]]; auto.
Qed.

Lemma orientation_restriction_witness :
  find_optimal_packing ref_runtime demo_packer 8 = Ret demo_result /\
  Forall (fun r => rotation r = 0 \/ rotation r = 90) (rectangles demo_result).
Proof.
  split; [exact demo_run |].
  apply (@orientation_restriction ref_runtime demo_packer 8). exact demo_run.
Defined.

(** ** Comparisons of floats

    The comparisons of primitive floats are those of their [spec_float]
    images; the facts below are proved there. *)

Lemma SFcompare_antisym (a b : spec_float) :
  SFcompare b a = option_map CompOpp (SFcompare a b).
Proof.
  destruct a as [sa | sa | | sa ma ea], b as [sb | sb | | sb mb eb];
    try destruct sa; try destruct sb; try reflexivity; simpl;
    rewrite (Z.compare_antisym ea eb);
    destruct (ea ?= eb)%Z; simpl; try reflexivity;
    rewrite (Pos.compare_cont_antisym ma mb Eq); simpl;
    destruct (Pos.compare_cont Eq ma mb); reflexivity.
Qed.

Lemma ltb_not_leb (a b : float) : (a <? b) = true -> (b <=? a) = false.
Proof.
  rewrite ltb_spec, leb_spec. unfold SFltb, SFleb.
  rewrite (SFcompare_antisym (Prim2SF a) (Prim2SF b)).
  destruct (SFcompare (Prim2SF a) (Prim2SF b)) as [[| |] |]; simpl;
    intros H; try discriminate; reflexivity.
Qed.

Lemma leb_not_ltb (a b : float) : (a <=? b) = true -> (b <? a) = false.
Proof.
  rewrite ltb_spec, leb_spec. unfold SFltb, SFleb.
  rewrite (SFcompare_antisym (Prim2SF a) (Prim2SF b)).
  destruct (SFcompare (Prim2SF a) (Prim2SF b)) as [[| |] |]; simpl;
    intros H; try discriminate; reflexivity.
Qed.

(** A float that compares equal to zero is one of the two zeros. *)
Lemma eqb_zero (a : float) :
  (a =? 0) = true -> exists s, Prim2SF a = S754_zero s.
Proof.
  rewrite eqb_spec. unfold SFeqb.
  replace (Prim2SF 0) with (S754_zero false) by reflexivity.
  destruct (Prim2SF a) as [s | s | | s m e]; simpl; intros H; try discriminate.
  - exists s. reflexivity.
  - destruct s; discriminate.
  - destruct s; discriminate.
Qed.

(** ** The overlap test of two projections *)

(** C2: [projections_overlap] answers [gap > epsilon] when the tolerance is
    below epsilon and [gap > -tolerance - epsilon] when it is at least
    epsilon, with [gap = min(max1, max2) - max(min1, min2)]; a zero gap is
    not an overlap at tolerance zero. *)
Theorem projections_overlap_spec (proj1 proj2 : vec) (tolerance : float) :
  gap proj1 proj2
    = min2 (snd proj1) (snd proj2) - max2 (fst proj1) (fst proj2) /\
  ((tolerance <? epsilon) = true ->
     projections_overlap proj1 proj2 tolerance
       = fgt (gap proj1 proj2) epsilon) /\
  ((epsilon <=? tolerance) = true ->
     projections_overlap proj1 proj2 tolerance
       = fgt (gap proj1 proj2) (- tolerance - epsilon)) /\
  ((gap proj1 proj2 =? 0) = true -> (tolerance =? 0) = true ->
     projections_overlap proj1 proj2 tolerance = false).
Proof.
  split; [reflexivity |]. unfold projections_overlap. repeat split.
  - intros ->. reflexivity.
  - intros H. rewrite (leb_not_ltb _ _ H). reflexivity.
  - intros Hgap Htol.
    destruct (eqb_zero _ Hgap) as [sg Hg], (eqb_zero _ Htol) as [st Ht].
    assert (Hlt : (tolerance <? epsilon) = true).
    { rewrite ltb_spec, Ht. reflexivity. }
    rewrite Hlt. unfold fgt. rewrite ltb_spec, Hg. reflexivity.
Qed.

Lemma projections_overlap_spec_witness :
  ((0 <? epsilon) = true /\ (epsilon <=? 2) = true /\
   (gap (0, 1) (1, 2) =? 0) = true /\ (0 =? 0) = true) /\
  projections_overlap (0, 1) (1, 2) 0 = fgt (gap (0, 1) (1, 2)) epsilon /\
  projections_overlap (0, 1) (1, 2) 2 = fgt (gap (0, 1) (1, 2)) (- 2 - epsilon) /\
  projections_overlap (0, 1) (1, 2) 0 = false.
Proof.
  split; [repeat split |].
  destruct (projections_overlap_spec (0, 1) (1, 2) 0) as [_ [H1 [_ H3]]].
  destruct (projections_overlap_spec (0, 1) (1, 2) 2) as [_ [_ [H2 _]]].
  split; [apply H1; reflexivity |].
  split; [apply H2; reflexivity | apply H3; reflexivity].
Defined.

(** ** The collision test in terms of the gaps *)

Section Gaps.

Variable rt : runtime.

Definition pair_overlaps (tolerance : float) (pair : vec * vec) : bool :=
  projections_overlap (fst pair) (snd pair) tolerance.

(** Opens a returning [axis_projections]: the normal and both projections
    are returned too. *)
Ltac open_axis_projections H :=
  unfold axis_projections in H;
  match type of H with
  | context [get_edge_normal ?r ?a ?b] =>
      destruct (get_edge_normal r a b) as [? | |]; cbn [bind] in H |- *;
      try discriminate H
  end;
  repeat match type of H with
  | context [project_polygon ?axis ?c] =>
      destruct (project_polygon axis c) as [? | |]; cbn [bind] in H |- *;
      try discriminate H
  end;
  injection H as H.

Lemma sat_round_projections (c1 c2 : list vec) (tolerance : float) (i : nat)
    (pair1 pair2 : vec * vec) :
  round_projections rt c1 c2 i = Ret (pair1, pair2) ->
  sat_round rt c1 c2 tolerance i
    = Ret (pair_overlaps tolerance pair1 && pair_overlaps tolerance pair2).
Proof.
  unfold round_projections, sat_round. intros H.
  destruct (index c1 i) as [a | |]; cbn [bind] in *; try discriminate.
  destruct (index c1 ((i + 1) mod 4)) as [b | |]; cbn [bind] in *;
    try discriminate.
  destruct (axis_projections rt c1 c2 a b) as [q1 | |] eqn:H1; cbn [bind] in *;
    try discriminate.
  destruct (index c2 i) as [c | |]; cbn [bind] in *; try discriminate.
  destruct (index c2 ((i + 1) mod 4)) as [d | |]; cbn [bind] in *;
    try discriminate.
  destruct (axis_projections rt c1 c2 c d) as [q2 | |] eqn:H2; cbn [bind] in *;
    try discriminate.
  injection H as <- <-.
  open_axis_projections H1. subst q1. unfold pair_overlaps at 1. cbn [fst snd].
  match goal with |- context [negb ?t] => destruct t end; cbn [negb andb];
    [| reflexivity].
  open_axis_projections H2. subst q2. reflexivity.
Qed.

Lemma sat_rounds_projections (c1 c2 : list vec) (tolerance : float)
    (rounds : list nat) (pairs : list (vec * vec)) :
  tested_projections rt c1 c2 rounds = Ret pairs ->
  sat_rounds rt c1 c2 tolerance rounds
    = Ret (forallb (pair_overlaps tolerance) pairs).
Proof.
  revert pairs. induction rounds as [| i rest IH]; simpl; intros pairs H.
  - injection H as <-. reflexivity.
  - destruct (round_projections rt c1 c2 i) as [[q1 q2] | |] eqn:Hr;
      simpl in H; try discriminate.
    destruct (tested_projections rt c1 c2 rest) as [more | |]; simpl in H;
      try discriminate.
    injection H as <-.
    rewrite (sat_round_projections c1 c2 tolerance i q1 q2 Hr).
    cbn [bind forallb].
    destruct (pair_overlaps tolerance q1); simpl; [| reflexivity].
    destruct (pair_overlaps tolerance q2); simpl; [| reflexivity].
    apply IH. reflexivity.
Qed.

Lemma sat_rounds_gaps (c1 c2 : list vec) (tolerance : float)
    (rounds : list nat) (gaps : list float) :
  axis_gaps rt c1 c2 rounds = Ret gaps ->
  sat_rounds rt c1 c2 tolerance rounds
    = Ret (forallb (gap_overlaps tolerance) gaps).
Proof.
  unfold axis_gaps. intros H. apply bind_Ret in H.
  destruct H as [pairs [Hpairs H]]. injection H as <-.
  rewrite (sat_rounds_projections c1 c2 tolerance rounds pairs Hpairs).
  f_equal. clear Hpairs.
  induction pairs as [| q rest IH]; simpl; [reflexivity |].
  rewrite IH. reflexivity.
Qed.

End Gaps.

(** ** The touch boundary *)

(** Corner lists of axis-parallel boxes, in the order of [get_corners]. *)
Definition box (x0 y0 x1 y1 : float) : list vec :=
  [(x0, y0); (x1, y0); (x1, y1); (x0, y1)].

Definition hundredth : float := 0x1.47ae147ae147bp-7. (* 0.01 *)

Lemma axis_gaps_first (rt : runtime) (c1 c2 : list vec) (gaps : list float) :
  axis_gaps rt c1 c2 (seq 0 4) = Ret gaps ->
  exists g rest, gaps = g :: rest.
Proof.
  unfold axis_gaps. intros H. apply bind_Ret in H.
  destruct H as [pairs [Hpairs H]]. injection H as <-.
  simpl in Hpairs. apply bind_Ret in Hpairs. destruct Hpairs as [gs [_ Hp]].
  apply bind_Ret in Hp. destruct Hp as [more [_ Hp]]. injection Hp as <-.
  eexists. eexists. reflexivity.
Qed.

(** C4, as amended: at tolerance 0 two corner sets whose gap is zero on
    every tested axis do not collide, two corner sets whose gap exceeds
    epsilon on every tested axis do, and a gap that does not exceed epsilon
    on one tested axis is enough for the answer [False], whatever the
    other gaps are. *)
Theorem touch_boundary (rt : runtime) (c1 c2 : list vec) (gaps : list float) :
  axis_gaps rt c1 c2 (seq 0 4) = Ret gaps ->
  (Forall (fun g => (g =? 0) = true) gaps ->
     sat_rectangles_collide rt c1 c2 0 = Ret false) /\
  (Forall (fun g => fgt g epsilon = true) gaps ->
     sat_rectangles_collide rt c1 c2 0 = Ret true) /\
  (Exists (fun g => fgt g epsilon = false) gaps ->
     sat_rectangles_collide rt c1 c2 0 = Ret false).
Proof.
  intros H. unfold sat_rectangles_collide.
  rewrite (sat_rounds_gaps rt c1 c2 0 (seq 0 4) gaps H).
  assert (Hzero : forall g, gap_overlaps 0 g = fgt g epsilon) by reflexivity.
  split; [| split]; intros Hall.
  - destruct (axis_gaps_first _ _ _ _ H) as [g [rest ->]].
    apply Forall_inv in Hall. cbn [forallb]. rewrite Hzero.
    destruct (eqb_zero _ Hall) as [s Hs].
    unfold fgt. rewrite ltb_spec, Hs. reflexivity.
  - f_equal. apply forallb_forall. intros g Hg. rewrite Hzero.
    rewrite Forall_forall in Hall. apply Hall. exact Hg.
  - f_equal. apply Exists_exists in Hall. destruct Hall as [g [Hin Hg]].
    destruct (forallb (gap_overlaps 0) gaps) eqn:Hf; [| reflexivity].
    rewrite forallb_forall in Hf. specialize (Hf g Hin).
    rewrite Hzero, Hg in Hf. discriminate.
Qed.

(** A gap of half of epsilon. *)
Definition half_epsilon : float := epsilon / 2.

Lemma touch_boundary_witness :
  (axis_gaps ref_runtime (box 0 0 1 1) (box 1 1 2 2) (seq 0 4)
     = Ret [0; 0; 0; 0; 0; 0; 0; 0] /\
   sat_rectangles_collide ref_runtime (box 0 0 1 1) (box 1 1 2 2) 0 = Ret false)
  /\
  (axis_gaps ref_runtime (box 0 0 2 2) (box 1 1 3 3) (seq 0 4)
     = Ret [1; 1; 1; 1; 1; 1; 1; 1] /\
   sat_rectangles_collide ref_runtime (box 0 0 2 2) (box 1 1 3 3) 0 = Ret true)
  /\
  (axis_gaps ref_runtime
       (box 0 0 hundredth 1) (box 0 (- half_epsilon) 1 half_epsilon) (seq 0 4)
     = Ret [half_epsilon; half_epsilon; hundredth; hundredth;
            half_epsilon; half_epsilon; hundredth; hundredth] /\
   fgt half_epsilon epsilon = false /\
   sat_rectangles_collide ref_runtime
     (box 0 0 hundredth 1) (box 0 (- half_epsilon) 1 half_epsilon) 0 = Ret false).
Proof.
  split; [| split]; (split; [vm_compute; reflexivity |]).
  - apply (@touch_boundary ref_runtime (box 0 0 1 1) (box 1 1 2 2)
             [0; 0; 0; 0; 0; 0; 0; 0]); [vm_compute; reflexivity |].
    repeat constructor.
  - apply (@touch_boundary ref_runtime (box 0 0 2 2) (box 1 1 3 3)
             [1; 1; 1; 1; 1; 1; 1; 1]); [vm_compute; reflexivity |].
    repeat constructor.
  - split; [reflexivity |].
    apply (@touch_boundary ref_runtime
             (box 0 0 hundredth 1) (box 0 (- half_epsilon) 1 half_epsilon)
             [half_epsilon; half_epsilon; hundredth; hundredth;
              half_epsilon; half_epsilon; hundredth; hundredth]);
      [vm_compute; reflexivity |].
    apply Exists_cons_hd. reflexivity.
Defined.

(** The claim as first stated asks only for gaps [>= 0] next to the one of
    0.01.  A thin box below a unit box, touching it along an edge, has the
    gap 0.01 on the horizontal axes and the gap 0 on the vertical ones, and
    the test separates them. *)
Lemma touch_boundary_counterexample :
  ~ (forall c1 c2 gaps,
       axis_gaps ref_runtime c1 c2 (seq 0 4) = Ret gaps ->
       Exists (fun g => g = hundredth) gaps ->
       Forall (fun g => fge g 0 = true) gaps ->
       sat_rectangles_collide ref_runtime c1 c2 0 = Ret true).
Proof.
  intros H.
  specialize (H (box 0 0 hundredth 1) (box 0 1 1 2)
                [0; 0; hundredth; hundredth; 0; 0; hundredth; hundredth]).
  assert (Hfalse : sat_rectangles_collide ref_runtime
                     (box 0 0 hundredth 1) (box 0 1 1 2) 0 = Ret false)
    by (vm_compute; reflexivity).
  rewrite H in Hfalse; [discriminate | vm_compute; reflexivity | |].
  - apply Exists_cons_tl, Exists_cons_tl, Exists_cons_hd. reflexivity.
  - repeat constructor.
Qed.

(** ** No overlap *)

Definition spaced_packer : RectanglePacker := new_packer 40 15 10 1 0.

Definition spaced_result : PackingResult :=
  Eval vm_compute in returned (find_optimal_packing ref_runtime spaced_packer 100).

(** C1, at a tolerance of 1: both strategy results fail the final
    validation, the fallback returns the larger one, and its first two
    rectangles, neighbours in the base grid at a distance of exactly the
    tolerance, collide under the test. *)
Theorem spaced_grid_collides :
  exists r1 r2 rest,
    find_optimal_packing ref_runtime spaced_packer 100 = Ret spaced_result /\
    rectangles spaced_result = r1 :: r2 :: rest /\
    rectangles_overlap ref_runtime r1 r2 (tolerance spaced_packer) = Ret true /\
    _validate_no_overlaps ref_runtime spaced_packer (rectangles spaced_result)
      = Ret false.
Proof.
  do 3 eexists.
  split; [vm_compute; reflexivity |].
  split; [reflexivity |].
  split; vm_compute; reflexivity.
Qed.

(** ** Metrics *)




(** Three rectangles of 1.3 by 0.9 in a circle of diameter 3: the sum of
    the three areas is 3.5100000000000007 under either summation, the
    product [3 * 1.3 * 0.9] is 3.5100000000000002. *)
Definition small_packer : RectanglePacker :=
  new_packer 3 0x1.4cccccccccccdp+0 0x1.ccccccccccccdp-1 0 0.


Definition small_result_compensated : PackingResult :=
  Eval vm_compute in
    returned (find_optimal_packing compensated_runtime small_packer 100).


(** The same under the compensated summation. *)
Lemma small_result_compensated_used_area :
  find_optimal_packing compensated_runtime small_packer 100
    = Ret small_result_compensated /\
  count small_result_compensated = 3%Z /\
  (used_area small_result_compensated
     =? 3 * rect_width small_packer * rect_height small_packer) = false.
Proof. repeat split; vm_compute; reflexivity. Qed.

(** ** Symmetry of the overlap test *)






Lemma is_nan_Prim2SF (a : float) :
  is_nan a = false -> Prim2SF a <> S754_nan.
Proof.
  unfold is_nan. rewrite eqb_spec. unfold SFeqb. intros H Hnan.
  rewrite Hnan in H. discriminate.
Qed.








Section Symmetry.

Variable rt : runtime.




End Symmetry.

Definition centred (cx cy w h : float) : Rectangle :=
  {| rect_position := {| x := cx; y := cy |}; width := w; height := h;
     rotation := 0 |}.

Definition unit_square : Rectangle := centred 0 0 1 1.

Definition shifted_square : Rectangle := centred 3 0 1 1.

(** A square of side 1e200 centred at (0, 1e201). *)
Definition huge_square : Rectangle :=
  centred 0 0x1.a20df0dcd3af1p+667 0x1.4e718d7d7625ap+664 0x1.4e718d7d7625ap+664.


Definition unit_square_corners : list Position :=
  Eval vm_compute in
    match get_corners ref_runtime unit_square with Ret c => c | _ => [] end.





(** ** Containment *)

Section Containment.

Variable rt : runtime.

(** Every corner of [r] has a distance from the origin that the check
    computes and does not find greater than [bound]. *)
Definition corners_not_beyond (bound : float) (r : Rectangle) : Prop :=
  exists corners,
    get_corners rt r = Ret corners /\
    Forall (fun corner =>
              exists distance,
                corner_distance rt corner = Ret distance /\
                fgt distance bound = false)
           corners.

Lemma all_corners_inside_spec (self : RectanglePacker) (corners : list Position) :
  all_corners_inside rt self corners = Ret true ->
  Forall (fun corner =>
            exists distance,
              corner_distance rt corner = Ret distance /\
              fgt distance (effective_radius self) = false)
         corners.
Proof.
  induction corners as [| corner rest IH]; intros H; [constructor |].
  cbn [all_corners_inside] in H. unfold corner_outside in H.
  apply bind_Ret in H. destruct H as [outside [Hout H]].
  apply bind_Ret in Hout. destruct Hout as [distance [Hd Hout]].
  injection Hout as <-.
  destruct (fgt distance (effective_radius self)) eqn:Hgt; [discriminate |].
  constructor; [exists distance; auto | apply IH; exact H].
Qed.

Lemma accepted_corners (self : RectanglePacker) (rots : list float)
    (r : Rectangle) :
  accepted rt self rots r -> corners_not_beyond (effective_radius self) r.
Proof.
  intros [_ H]. unfold _rectangle_fits_in_circle in H.
  apply bind_Ret in H. destruct H as [corners [Hc H]].
  exists corners. split; [exact Hc | apply all_corners_inside_spec; exact H].
Qed.

End Containment.

(** ** A circle without room *)

(** Nothing positive is below a bound that is zero or less. *)
Lemma not_beyond_nonpositive (bound distance : float) :
  (bound <=? 0) = true -> fgt distance bound = false -> fgt distance 0 = false.
Proof.
  unfold fgt. rewrite leb_spec, !ltb_spec.
  replace (Prim2SF 0) with (S754_zero false) by reflexivity.
  destruct (Prim2SF bound) as [sb | sb | | sb mb eb],
           (Prim2SF distance) as [sd | sd | | sd md ed];
    try destruct sb; try destruct sd; simpl; intros H1 H2;
    try reflexivity; discriminate.
Qed.

(** No area over a positive area is 0 percent, and leaves 100. *)
Lemma zero_share (total : float) :
  fgt total 0 = true -> 0 / total * 100 = 0 /\ 100 - 0 / total * 100 = 100.
Proof.
  intros H. assert (Hz : 0 / total = 0).
  { apply Prim2SF_inj. rewrite div_spec. unfold fgt in H. rewrite ltb_spec in H.
    replace (Prim2SF 0) with (S754_zero false) in * by reflexivity.
    destruct (Prim2SF total) as [s | s | | s m e]; try destruct s;
      try discriminate H; reflexivity. }
  rewrite Hz. split; reflexivity.
Qed.

Definition tiny_packer : RectanglePacker :=
  new_packer 0x1.e9e369aa2b597p-662 0x1.25eed8ffb39c1p-662 0x1.25eed8ffb39c1p-662
             0 0x1.e9e369aa2b597p-663.

Definition tiny_result : PackingResult :=
  Eval vm_compute in returned (find_optimal_packing ref_runtime tiny_packer 50).

Definition closed_packer : RectanglePacker := new_packer 20 15 10 0 10.

Definition closed_result : PackingResult :=
  Eval vm_compute in returned (find_optimal_packing ref_runtime closed_packer 50).

(** What the containment check leaves of the claim for every runtime: when
    the effective radius is zero or less, a rectangle is returned only if
    the distance of each of its corners is computed as a value that is not
    greater than zero, and a result without rectangles has count 0,
    efficiency 0 and waste 100. *)
Lemma degenerate_effective_radius (rt : runtime) (self : RectanglePacker)
    (fuel : nat) (res : PackingResult) :
  (effective_radius self <=? 0) = true ->
  find_optimal_packing rt self fuel = Ret res ->
  Forall (corners_not_beyond rt 0) (rectangles res) /\
  (rectangles res = [] ->
   count res = 0%Z /\ efficiency res = 0 /\ waste res = 100).
Proof.
  intros Hdeg H. pose proof (find_optimal_packing_accepted _ _ _ _ H)
    as [Hall [Hcount Hcircle]].
  split.
  - eapply Forall_impl; [| exact Hall].
    intros r Hr. apply accepted_corners in Hr.
    destruct Hr as [corners [Hc Hin]]. exists corners. split; [exact Hc |].
    eapply Forall_impl; [| exact Hin].
    intros corner [distance [Hd Hgt]]. exists distance. split; [exact Hd |].
    exact (not_beyond_nonpositive _ _ Hdeg Hgt).
  - intros Hempty. split; [rewrite Hcount, Hempty; reflexivity |].
    apply find_optimal_packing_origin in H.
    destruct H as [rotation [best [Hrot [Hbest Heff]]]].
    apply strict_grid_packing_result in Hbest; [| exact Hrot].
    destruct Hbest as [_ [_ Hc]].
    destruct (calculate_efficiency_result _ _ _ _ _ Hc Heff)
      as [Hrects [_ [_ [_ [r2 [_ [_ [Hused [Hpos Hnonpos]]]]]]]]].
    rewrite <- Hrects, Hempty in Hused. cbn [map py_sum] in Hused.
    destruct (fgt (total_area res) 0) eqn:Htotal.
    + destruct (Hpos eq_refl) as [He Hw]. rewrite Hw, He, Hused.
      apply zero_share. exact Htotal.
    + apply Hnonpos. reflexivity.
Qed.

(** Scenario C at ordinary sizes: diameter 20, 15 x 10, safe zone 10. *)
Lemma closed_circle_is_empty :
  (effective_radius closed_packer <=? 0) = true /\
  find_optimal_packing ref_runtime closed_packer 50 = Ret closed_result /\
  rectangles closed_result = [] /\
  count closed_result = 0%Z /\ efficiency closed_result = 0 /\
  waste closed_result = 100.
Proof. repeat split; vm_compute; reflexivity. Qed.

(** C6 fails in the code when the squares of the corner coordinates
    underflow.  With diameter 1e-199, a 6e-200 square and a safe zone of
    5e-200 the inputs are positive and the effective radius is 0; the first
    rectangle of the result is centred at (-8e-200, -8e-200), its first
    corner is not at the origin, yet the distance of that corner is computed
    as 0.0, the containment check answers [True], and 41 rectangles are
    returned. *)
Theorem zero_radius_underflow :
  exists r rest c corners,
    (0 <? circle_diameter tiny_packer) = true /\
    (0 <? rect_width tiny_packer) = true /\
    (0 <? rect_height tiny_packer) = true /\
    (circle_diameter tiny_packer / 2 <=? safe_zone tiny_packer) = true /\
    (effective_radius tiny_packer =? 0) = true /\
    find_optimal_packing ref_runtime tiny_packer 50 = Ret tiny_result /\
    rectangles tiny_result = r :: rest /\
    count tiny_result = 41%Z /\
    get_corners ref_runtime r = Ret (c :: corners) /\
    (x c <? 0) = true /\ (y c <? 0) = true /\
    corner_distance ref_runtime c = Ret 0 /\
    _rectangle_fits_in_circle ref_runtime tiny_packer r = Ret true.
Proof.
  do 4 eexists.
  do 6 (split; [vm_compute; reflexivity |]).
  split; [reflexivity |].
  split; [reflexivity |].
  split; [vm_compute; reflexivity |].
  repeat split; vm_compute; reflexivity.
Qed.

(** * Rounding

    The comparisons and the correctly rounded sums of doubles, read through
    an integer image of every float.  [SpecFloat] computes a rounding by
    shifting the mantissa; the facts below relate that computation to
    integer arithmetic, where order and monotonicity are proved. *)

Module Rounding.

Local Open Scope Z_scope.

(** Number of binary digits. *)
Definition digits (m : positive) : Z := Z.pos (digits2_pos m).

Lemma digits_pos (m : positive) : 1 <= digits m.
Proof. unfold digits. lia. Qed.

Lemma pow2_succ (n : Z) : 0 <= n -> 2 ^ (n + 1) = 2 * 2 ^ n.
Proof. intros H. rewrite Z.pow_add_r by lia. rewrite Z.pow_1_r. ring. Qed.

Lemma pow2_pos (n : Z) : 0 <= n -> 0 < 2 ^ n.
Proof. intros H. apply Z.pow_pos_nonneg; lia. Qed.

Lemma pow2_le (a b : Z) : 0 <= a <= b -> 2 ^ a <= 2 ^ b.
Proof. intros H. apply Z.pow_le_mono_r; lia. Qed.

Lemma pow2_pred (n : Z) : 0 < n -> 2 ^ n = 2 * 2 ^ (n - 1).
Proof.
  intros H. rewrite <- pow2_succ by lia. f_equal. lia.
Qed.

Lemma digits_bounds (m : positive) :
  2 ^ (digits m - 1) <= Z.pos m < 2 ^ digits m.
Proof.
  unfold digits. induction m as [p IH | p IH |]; cbn [digits2_pos].
  - rewrite Pos2Z.inj_succ. change (Z.pos p~1) with (2 * Z.pos p + 1).
    replace (Z.succ (Z.pos (digits2_pos p)) - 1)
      with (Z.pos (digits2_pos p)) by lia.
    unfold Z.succ. rewrite pow2_succ by lia.
    rewrite (pow2_pred (Z.pos (digits2_pos p))) in * by lia. lia.
  - rewrite Pos2Z.inj_succ. change (Z.pos p~0) with (2 * Z.pos p).
    replace (Z.succ (Z.pos (digits2_pos p)) - 1)
      with (Z.pos (digits2_pos p)) by lia.
    unfold Z.succ. rewrite pow2_succ by lia.
    rewrite (pow2_pred (Z.pos (digits2_pos p))) in * by lia. lia.
  - cbn. lia.
Qed.

(** The digits are determined by the bounds. *)
Lemma digits_unique (m : positive) (d : Z) :
  2 ^ (d - 1) <= Z.pos m < 2 ^ d -> digits m = d.
Proof.
  intros [Hlo Hhi]. pose proof (digits_bounds m) as [Hlo' Hhi'].
  pose proof (digits_pos m) as Hd.
  assert (Hd0 : 0 < d).
  { destruct (Z_lt_le_dec 0 d) as [H | H]; [exact H |].
    exfalso. destruct (Z.eq_dec d 0) as [-> | Hne].
    - cbn in Hhi. lia.
    - rewrite (Z.pow_neg_r 2 d) in Hhi by lia. lia. }
  destruct (Z_lt_le_dec (digits m) d) as [H | H].
  - exfalso. assert (2 ^ digits m <= 2 ^ (d - 1)) by (apply pow2_le; lia). lia.
  - destruct (Z_lt_le_dec d (digits m)) as [H' | H']; [| lia].
    exfalso. assert (2 ^ d <= 2 ^ (digits m - 1)) by (apply pow2_le; lia). lia.
Qed.

Lemma digits_shift (m : positive) (j : Z) (mz : positive) :
  0 <= j -> Z.pos mz = Z.pos m * 2 ^ j -> digits mz = digits m + j.
Proof.
  intros Hj Hmz. apply digits_unique. rewrite Hmz.
  pose proof (digits_bounds m) as [Hlo Hhi]. pose proof (digits_pos m).
  replace (digits m + j - 1) with (digits m - 1 + j) by lia.
  rewrite !Z.pow_add_r by lia. pose proof (pow2_pos j Hj). nia.
Qed.

(** ** Floats as integers

    Every finite double is an integer multiple of [2 ^ emin]; [key] is
    that integer, with the infinities placed beyond every finite one. *)
Definition emin : Z := -1074.

Definition huge : Z := 2 ^ 2098.

Definition key (f : spec_float) : Z :=
  match f with
  | S754_zero _ => 0
  | S754_infinity s => cond_Zopp s huge
  | S754_nan => 0
  | S754_finite s m e => cond_Zopp s (Z.pos m * 2 ^ (e - emin))
  end.

Lemma huge_pos : 0 < huge.
Proof. unfold huge. apply pow2_pos. lia. Qed.

Lemma bounded_spec (m : positive) (e : Z) :
  bounded prec emax m e = true ->
  emin <= e <= 971 /\ digits m <= 53 /\ (emin < e -> digits m = 53) /\
  Z.max (digits m + e - 53) emin = e.
Proof.
  unfold bounded, canonical_mantissa, fexp, SpecFloat.emin, prec, emax, emin,
    digits.
  rewrite andb_true_iff, Z.eqb_eq, Z.leb_le. lia.
Qed.

Lemma pow2_split (a b : Z) : 0 <= a -> 0 <= b -> 2 ^ (a + b) = 2 ^ a * 2 ^ b.
Proof. intros Ha Hb. apply Z.pow_add_r; assumption. Qed.

Lemma finite_key_bounds (m : positive) (e : Z) :
  bounded prec emax m e = true -> 0 < Z.pos m * 2 ^ (e - emin) < huge.
Proof.
  intros H. apply bounded_spec in H. destruct H as [He [Hd _]].
  pose proof (digits_bounds m) as [_ Hm].
  assert (H53 : 2 ^ digits m <= 2 ^ 53)
    by (apply pow2_le; pose proof (digits_pos m); lia).
  assert (HP : 0 < 2 ^ (e - emin)) by (apply pow2_pos; lia).
  assert (HP' : 2 ^ (e - emin) <= 2 ^ 2045)
    by (apply pow2_le; unfold emin in *; lia).
  split; [lia |].
  unfold huge. replace 2098 with (53 + 2045) by lia.
  rewrite pow2_split by lia.
  assert (0 < 2 ^ 53) by (apply pow2_pos; lia).
  nia.
Qed.

Lemma key_lt (m1 m2 : positive) (e1 e2 : Z) :
  bounded prec emax m1 e1 = true -> bounded prec emax m2 e2 = true ->
  e1 < e2 ->
  Z.pos m1 * 2 ^ (e1 - emin) < Z.pos m2 * 2 ^ (e2 - emin).
Proof.
  intros H1 H2 He. apply bounded_spec in H1, H2.
  destruct H1 as [He1 [Hd1 _]], H2 as [He2 [_ [Hd2 _]]].
  pose proof (digits_bounds m1) as [_ Hm1].
  pose proof (digits_bounds m2) as [Hm2 _].
  rewrite Hd2 in Hm2 by lia.
  assert (H53 : 2 ^ digits m1 <= 2 ^ 53)
    by (apply pow2_le; pose proof (digits_pos m1); lia).
  replace (e2 - emin) with ((e2 - e1 - 1) + (1 + (e1 - emin))) by lia.
  rewrite !pow2_split by lia. rewrite Z.pow_1_r.
  assert (HP : 0 < 2 ^ (e1 - emin)) by (apply pow2_pos; lia).
  assert (HA : 0 < 2 ^ (e2 - e1 - 1)) by (apply pow2_pos; lia).
  rewrite (pow2_pred 53) in H53 by lia. change (53 - 1) with 52 in *.
  assert (0 < 2 ^ 52) by (apply pow2_pos; lia).
  assert (Z.pos m1 * 2 ^ (e1 - emin) < 2 * 2 ^ 52 * 2 ^ (e1 - emin))
    by (apply Z.mul_lt_mono_pos_r; lia).
  assert (Z.pos m2 * 1 <= Z.pos m2 * 2 ^ (e2 - e1 - 1))
    by (apply Z.mul_le_mono_nonneg_l; lia).
  assert (2 ^ 52 * (2 * 2 ^ (e1 - emin))
          <= Z.pos m2 * 2 ^ (e2 - e1 - 1) * (2 * 2 ^ (e1 - emin)))
    by (apply Z.mul_le_mono_nonneg_r; lia).
  lia.
Qed.

Lemma magnitude_compare (m1 m2 : positive) (e1 e2 : Z) :
  bounded prec emax m1 e1 = true -> bounded prec emax m2 e2 = true ->
  match e1 ?= e2 with
  | Eq => Pos.compare_cont Eq m1 m2
  | Lt => Lt
  | Gt => Gt
  end = (Z.pos m1 * 2 ^ (e1 - emin) ?= Z.pos m2 * 2 ^ (e2 - emin)).
Proof.
  intros H1 H2. destruct (Z.compare_spec e1 e2) as [-> | He | He].
  - pose proof (bounded_spec _ _ H2) as [He2 _].
    rewrite <- Zmult_compare_compat_r
      by (apply Z.lt_gt, pow2_pos; lia).
    reflexivity.
  - symmetry. apply Z.compare_lt_iff. apply key_lt; assumption.
  - symmetry. apply Z.compare_gt_iff. apply key_lt; assumption.
Qed.

(** The comparison of two valid floats is the comparison of their keys. *)
Lemma SFcompare_key (a b : spec_float) :
  valid_binary a = true -> valid_binary b = true ->
  a <> S754_nan -> b <> S754_nan ->
  SFcompare a b = Some (key a ?= key b).
Proof.
  pose proof huge_pos as Hhuge.
  destruct a as [sa | sa | | sa ma ea], b as [sb | sb | | sb mb eb];
    intros Ha Hb Hna Hnb; try congruence; cbn [valid_binary] in Ha, Hb;
    try pose proof (finite_key_bounds _ _ Ha) as Hka;
    try pose proof (finite_key_bounds _ _ Hb) as Hkb;
    cbn [SFcompare key]; f_equal.
  all: try (try destruct sa; try destruct sb; cbn [cond_Zopp]; symmetry;
            first [apply Z.compare_eq_iff; lia | apply Z.compare_lt_iff; lia
                  | apply Z.compare_gt_iff; lia]).
  - destruct sa, sb; cbn [cond_Zopp].
    + rewrite Z.compare_opp, <- (magnitude_compare mb ma eb ea Hb Ha).
      rewrite (Z.compare_antisym eb ea).
      destruct (eb ?= ea); cbn [CompOpp]; try reflexivity.
      rewrite (Pos.compare_cont_antisym ma mb Eq). reflexivity.
    + symmetry. apply Z.compare_lt_iff. lia.
    + symmetry. apply Z.compare_gt_iff. lia.
    + apply magnitude_compare; assumption.
Qed.

(** ** Rounding to nearest even, on integers

    [rne v] keeps the 53 leading binary digits of [v > 0]: [v] is cut at
    [2 ^ k] and the quotient goes up when the remainder is above the half,
    or at the half with an odd quotient. *)
Definition round_up (q r p : Z) : bool :=
  (p <? 2 * r) || ((p =? 2 * r) && Z.odd q).

Definition cut (v : Z) : Z := Z.max (Z.log2 v + 1 - 53) 0.

Definition rne (v : Z) : Z :=
  let p := 2 ^ cut v in
  (v / p + if round_up (v / p) (v mod p) p then 1 else 0) * p.

Lemma cut_nonneg (v : Z) : 0 <= cut v.
Proof. unfold cut. lia. Qed.

Lemma cut_mono (v1 v2 : Z) : v1 <= v2 -> cut v1 <= cut v2.
Proof.
  intros H. unfold cut. pose proof (Z.log2_le_mono v1 v2 H). lia.
Qed.

Lemma log2_bounds (v : Z) :
  0 < v -> 2 ^ Z.log2 v <= v < 2 ^ (Z.log2 v + 1).
Proof.
  intros H. pose proof (Z.log2_spec v H) as Hs.
  unfold Z.succ in Hs. exact Hs.
Qed.

Lemma rne_floor_ceil (v : Z) :
  0 < v ->
  let p := 2 ^ cut v in
  (rne v = v / p * p \/ rne v = (v / p + 1) * p) /\
  v / p * p <= v < (v / p + 1) * p /\ 0 < p.
Proof.
  intros Hv p. assert (Hp : 0 < p) by (apply pow2_pos, cut_nonneg).
  split; [| split; [| exact Hp]].
  - unfold rne. fold p. destruct (round_up (v / p) (v mod p) p); [right | left];
      f_equal; lia.
  - pose proof (Z.div_mod v p ltac:(lia)) as Hdm.
    pose proof (Z.mod_pos_bound v p Hp) as Hr. lia.
Qed.

Lemma rne_small (v : Z) : 0 < v -> cut v = 0 -> rne v = v.
Proof.
  intros Hv Hk. unfold rne. rewrite Hk. change (2 ^ 0) with 1.
  rewrite Z.div_1_r, Z.mod_1_r. unfold round_up. cbn. lia.
Qed.

Lemma rne_large (v : Z) :
  0 < v -> 0 < cut v ->
  2 ^ Z.log2 v <= rne v <= 2 ^ (Z.log2 v + 1) /\
  2 ^ 52 <= v / 2 ^ cut v < 2 ^ 53.
Proof.
  intros Hv Hk. pose proof (log2_bounds v Hv) as [Hlo Hhi].
  destruct (rne_floor_ceil v Hv) as [Hr [Hq Hp]].
  assert (HL : Z.log2 v = 52 + cut v) by (unfold cut in *; lia).
  rewrite HL in *. replace (52 + cut v + 1) with (53 + cut v) in * by lia.
  rewrite !pow2_split in * by lia.
  set (p := 2 ^ cut v) in *. set (q := v / p) in *.
  assert (H52 : 0 < 2 ^ 52) by (apply pow2_pos; lia).
  assert (H53 : 2 ^ 53 = 2 * 2 ^ 52) by (apply (pow2_pred 53); lia).
  assert (Hq1 : 2 ^ 52 <= q).
  { destruct (Z_lt_le_dec q (2 ^ 52)) as [H | H]; [| exact H].
    exfalso. assert ((q + 1) * p <= 2 ^ 52 * p)
      by (apply Z.mul_le_mono_nonneg_r; lia). lia. }
  assert (Hq2 : q < 2 ^ 53).
  { destruct (Z_lt_le_dec q (2 ^ 53)) as [H | H]; [exact H |].
    exfalso. assert (2 ^ 53 * p <= q * p)
      by (apply Z.mul_le_mono_nonneg_r; lia). lia. }
  split; [| split; assumption].
  assert (2 ^ 52 * p <= q * p) by (apply Z.mul_le_mono_nonneg_r; lia).
  assert ((q + 1) * p <= 2 ^ 53 * p) by (apply Z.mul_le_mono_nonneg_r; lia).
  destruct Hr as [-> | ->]; lia.
Qed.

Lemma rne_pos (v : Z) : 0 < v -> 0 < rne v.
Proof.
  intros Hv. destruct (Z.eq_dec (cut v) 0) as [Hk | Hk].
  - rewrite rne_small; assumption.
  - pose proof (cut_nonneg v).
    destruct (rne_large v Hv ltac:(lia)) as [[Hlo _] _].
    assert (0 < 2 ^ Z.log2 v) by (apply pow2_pos, Z.log2_nonneg). lia.
Qed.

(** Rounding is monotone. *)
Lemma rne_mono (v1 v2 : Z) : 0 < v1 -> v1 <= v2 -> rne v1 <= rne v2.
Proof.
  intros Hv1 Hle. assert (Hv2 : 0 < v2) by lia.
  pose proof (cut_mono v1 v2 Hle) as Hk.
  pose proof (cut_nonneg v1) as Hk1.
  destruct (Z.eq_dec (cut v1) (cut v2)) as [Heq | Hne].
  - (* the same cut *)
    unfold rne. rewrite <- Heq. set (p := 2 ^ cut v1).
    assert (Hp : 0 < p) by (apply pow2_pos; exact Hk1).
    pose proof (Z.div_le_mono v1 v2 p Hp Hle) as Hq.
    pose proof (Z.div_mod v1 p ltac:(lia)) as Hdm1.
    pose proof (Z.div_mod v2 p ltac:(lia)) as Hdm2.
    pose proof (Z.mod_pos_bound v1 p Hp) as Hr1.
    pose proof (Z.mod_pos_bound v2 p Hp) as Hr2.
    apply Z.mul_le_mono_nonneg_r; [lia |].
    destruct (Z.eq_dec (v1 / p) (v2 / p)) as [Hqq | Hqq].
    + rewrite <- Hqq in *. set (q := v1 / p) in *.
      assert (Hr : v1 mod p <= v2 mod p) by lia.
      unfold round_up.
      destruct (Z.ltb_spec p (2 * (v1 mod p))) as [H1 | H1];
        destruct (Z.ltb_spec p (2 * (v2 mod p))) as [H2 | H2];
        cbn [orb]; try lia.
      all: destruct (Z.eqb_spec p (2 * (v1 mod p))) as [E1 | E1];
        destruct (Z.eqb_spec p (2 * (v2 mod p))) as [E2 | E2];
        destruct (Z.odd q); cbn [andb]; lia.
    + destruct (round_up (v1 / p) (v1 mod p) p),
               (round_up (v2 / p) (v2 mod p) p); lia.
  - (* fewer digits *)
    assert (Hk2 : 0 < cut v2) by lia.
    destruct (rne_large v2 Hv2 Hk2) as [[Hlo2 _] _].
    assert (Hup : rne v1 <= 2 ^ (Z.log2 v1 + 1)).
    { destruct (Z.eq_dec (cut v1) 0) as [H0 | H0].
      - rewrite rne_small by assumption.
        pose proof (log2_bounds v1 Hv1). lia.
      - destruct (rne_large v1 Hv1 ltac:(lia)) as [[_ H] _]. exact H. }
    assert (HL : Z.log2 v1 + 1 <= Z.log2 v2) by (unfold cut in *; lia).
    pose proof (Z.log2_nonneg v1).
    assert (2 ^ (Z.log2 v1 + 1) <= 2 ^ Z.log2 v2) by (apply pow2_le; lia).
    lia.
Qed.

Lemma log2_digits (m : positive) : Z.log2 (Z.pos m) + 1 = digits m.
Proof.
  symmetry. apply digits_unique.
  replace (Z.log2 (Z.pos m) + 1 - 1) with (Z.log2 (Z.pos m)) by lia.
  apply log2_bounds. lia.
Qed.

Lemma log2_shift (m : positive) (j : Z) :
  0 <= j -> Z.log2 (Z.pos m * 2 ^ j) + 1 = digits m + j.
Proof.
  intros Hj. pose proof (pow2_pos j Hj) as Hp.
  destruct (Z.pos m * 2 ^ j) as [| v | v] eqn:Hv; try lia.
  rewrite log2_digits. apply (digits_shift m j v Hj). symmetry; exact Hv.
Qed.

(** A float is its own rounding. *)
Lemma rne_exact (m : positive) (e : Z) :
  bounded prec emax m e = true ->
  rne (Z.pos m * 2 ^ (e - emin)) = Z.pos m * 2 ^ (e - emin).
Proof.
  intros H. apply bounded_spec in H. destruct H as [He [_ [_ Hc]]].
  unfold rne, cut. rewrite log2_shift by lia.
  replace (Z.max (digits m + (e - emin) - 53) 0) with (e - emin)
    by (unfold emin in *; lia).
  assert (Hp : 0 < 2 ^ (e - emin)) by (apply pow2_pos; lia).
  rewrite Z.div_mul by lia. rewrite Z.mod_mul by lia.
  unfold round_up. change (2 * 0) with 0.
  destruct (Z.ltb_spec (2 ^ (e - emin)) 0) as [H1 | H1]; [lia |].
  destruct (Z.eqb_spec (2 ^ (e - emin)) 0) as [H2 | H2]; [lia |].
  cbn. lia.
Qed.

(** ** The rounding of [SpecFloat] is [rne] *)

Lemma shr_1_spec (m : Z) (r s : bool) :
  0 <= m ->
  shr_1 {| shr_m := m; shr_r := r; shr_s := s |}
    = {| shr_m := m / 2; shr_r := Z.odd m; shr_s := r || s |}.
Proof.
  intros Hm. destruct m as [| p | p]; [reflexivity | | lia].
  destruct p as [p | p |]; cbn [shr_1].
  - f_equal. change (Z.pos p~1) with (2 * Z.pos p + 1).
    apply (Z.div_unique _ 2 _ 1); lia.
  - f_equal. change (Z.pos p~0) with (2 * Z.pos p).
    apply (Z.div_unique _ 2 _ 0); lia.
  - reflexivity.
Qed.

Lemma iter_pos_nat {A : Type} (f : A -> A) (p : positive) (x : A) :
  iter_pos f p x = Nat.iter (Pos.to_nat p) f x.
Proof.
  revert x. induction p as [p IH | p IH |]; intros x; cbn [iter_pos].
  - rewrite !IH, Pos2Nat.inj_xI. cbn [Nat.mul].
    rewrite Nat.add_0_r, Nat.iter_succ_r, Nat.iter_add. reflexivity.
  - rewrite !IH, Pos2Nat.inj_xO. cbn [Nat.mul].
    rewrite Nat.add_0_r, Nat.iter_add. reflexivity.
  - reflexivity.
Qed.

(** Shifting an exact mantissa right by [j + 1] digits: the quotient, the
    last digit dropped, and whether anything below it was dropped. *)
Lemma shr_iter (m : Z) (j : nat) :
  0 <= m ->
  Nat.iter (S j) shr_1 {| shr_m := m; shr_r := false; shr_s := false |}
    = {| shr_m := m / 2 ^ (Z.of_nat j + 1);
         shr_r := Z.odd (m / 2 ^ Z.of_nat j);
         shr_s := negb (m mod 2 ^ Z.of_nat j =? 0) |}.
Proof.
  intros Hm. induction j as [| j IH].
  - unfold Nat.iter. cbn [nat_rect]. rewrite shr_1_spec by exact Hm.
    change (2 ^ Z.of_nat 0) with 1. change (2 ^ (Z.of_nat 0 + 1)) with 2.
    rewrite Z.div_1_r, Z.mod_1_r. reflexivity.
  - rewrite Nat.iter_succ, IH.
    assert (Hp : 0 < 2 ^ (Z.of_nat j)) by (apply pow2_pos; lia).
    rewrite shr_1_spec by (apply Z.div_pos; [exact Hm | apply pow2_pos; lia]).
    replace (Z.of_nat (S j)) with (Z.of_nat j + 1) by lia.
    f_equal.
    + rewrite Z.div_div by lia. rewrite <- (pow2_split _ 1) by lia.
      reflexivity.
    + rewrite (pow2_split (Z.of_nat j) 1) by lia. change (2 ^ 1) with 2.
      rewrite Z.rem_mul_r by lia. rewrite Zmod_odd.
      pose proof (Z.mod_pos_bound m (2 ^ Z.of_nat j) Hp) as Hr.
      destruct (Z.odd (m / 2 ^ Z.of_nat j)); cbn [orb].
      * symmetry. apply negb_true_iff, Z.eqb_neq. lia.
      * f_equal. f_equal. lia.
Qed.

(** Shifting an exact mantissa right by [n] digits and rounding what is
    left. *)
Lemma shr_round (m e n : Z) :
  0 <= m -> 0 <= n ->
  let mrs := fst (shr {| shr_m := m; shr_r := false; shr_s := false |} e n) in
  snd (shr {| shr_m := m; shr_r := false; shr_s := false |} e n) = e + n /\
  round_nearest_even (shr_m mrs) (loc_of_shr_record mrs)
    = m / 2 ^ n + (if round_up (m / 2 ^ n) (m mod 2 ^ n) (2 ^ n) then 1 else 0).
Proof.
  intros Hm Hn. destruct n as [| p | p]; [| | lia]; cbn [shr fst snd].
  - split; [lia |]. change (2 ^ 0) with 1.
    rewrite Z.div_1_r, Z.mod_1_r. cbn. lia.
  - split; [reflexivity |]. rewrite iter_pos_nat.
    destruct (Pos2Nat.is_succ p) as [j Hj]. rewrite Hj, shr_iter by exact Hm.
    assert (Hp : Z.pos p = Z.of_nat j + 1) by lia.
    rewrite Hp. set (h := 2 ^ Z.of_nat j).
    assert (Hh : 0 < h) by (apply pow2_pos; lia).
    rewrite (pow2_split (Z.of_nat j) 1) by lia. change (2 ^ 1) with 2. fold h.
    rewrite Z.rem_mul_r by lia. rewrite <- Z.div_div by lia.
    rewrite Zmod_odd. cbn [shr_m].
    pose proof (Z.mod_pos_bound m h Hh) as Hlow.
    set (low := m mod h) in *. set (q := m / h / 2).
    unfold round_up, loc_of_shr_record. cbn [shr_r shr_s].
    destruct (Z.odd (m / h)).
    + destruct (Z.eqb_spec low 0) as [H0 | H0]; cbn [negb round_nearest_even].
      * rewrite <- Z.negb_odd.
        destruct (Z.ltb_spec (h * 2) (2 * (low + h * 1))) as [H1 | H1];
          [lia |].
        destruct (Z.eqb_spec (h * 2) (2 * (low + h * 1))) as [H2 | H2];
          [| lia].
        cbn [orb andb]. destruct (Z.odd q); cbn [negb]; lia.
      * destruct (Z.ltb_spec (h * 2) (2 * (low + h * 1))) as [H1 | H1];
          [| lia].
        cbn [orb]. lia.
    + destruct (Z.ltb_spec (h * 2) (2 * (low + h * 0))) as [H1 | H1]; [lia |].
      destruct (Z.eqb_spec (h * 2) (2 * (low + h * 0))) as [H2 | H2]; [lia |].
      cbn [orb andb].
      destruct (negb (low =? 0)); cbn [round_nearest_even]; lia.
Qed.

Lemma shr_quotient (m e n : Z) :
  0 <= m -> 0 <= n ->
  shr_m (fst (shr {| shr_m := m; shr_r := false; shr_s := false |} e n))
    = m / 2 ^ n /\
  snd (shr {| shr_m := m; shr_r := false; shr_s := false |} e n) = e + n.
Proof.
  intros Hm Hn. destruct n as [| p | p]; [| | lia]; cbn [shr fst snd].
  - split; [| lia]. change (2 ^ 0) with 1. rewrite Z.div_1_r. reflexivity.
  - split; [| reflexivity]. rewrite iter_pos_nat.
    destruct (Pos2Nat.is_succ p) as [j Hj]. rewrite Hj, shr_iter by exact Hm.
    cbn [shr_m]. f_equal. f_equal. lia.
Qed.

Lemma round_up_scale (q r p a : Z) :
  0 < a -> round_up q (r * a) (p * a) = round_up q r p.
Proof.
  intros Ha. unfold round_up. f_equal; [| f_equal].
  - destruct (Z.ltb_spec (p * a) (2 * (r * a))) as [H | H];
      destruct (Z.ltb_spec p (2 * r)) as [H' | H']; try reflexivity; nia.
  - destruct (Z.eqb_spec (p * a) (2 * (r * a))) as [H | H];
      destruct (Z.eqb_spec p (2 * r)) as [H' | H']; try reflexivity; nia.
Qed.

(** The last step of the rounding: a mantissa of at most 53 digits, or
    [2 ^ 53], is put in canonical form, and the exponent decides between a
    finite float and an infinity. *)
Lemma canonical_key (s : bool) (m2 fe : Z) :
  emin <= fe -> 0 < m2 <= 2 ^ 53 -> (emin < fe -> 2 ^ 52 <= m2) ->
  let mrs_e := shr_fexp prec emax m2 fe loc_Exact in
  let f :=
    match shr_m (fst mrs_e) with
    | 0 => S754_zero s
    | Z.pos m => if snd mrs_e <=? emax - prec then S754_finite s m (snd mrs_e)
                 else S754_infinity s
    | Z.neg _ => S754_nan
    end in
  f <> S754_nan /\
  key f = cond_Zopp s (Z.min (m2 * 2 ^ (fe - emin)) huge).
Proof.
  intros Hfe [Hpos Hle] Hnorm.
  assert (H52 : 0 < 2 ^ 52) by (apply pow2_pos; lia).
  assert (H53 : 2 ^ 53 = 2 * 2 ^ 52) by (apply (pow2_pred 53); lia).
  assert (Hk : 0 < 2 ^ (fe - emin)) by (apply pow2_pos; lia).
  destruct m2 as [| mp | mp]; try lia.
  unfold shr_fexp. cbn [shr_record_of_loc Zdigits2].
  change (Z.pos (digits2_pos mp)) with (digits mp).
  set (n2 := fexp prec emax (digits mp + fe) - fe).
  pose proof (digits_bounds mp) as [Hdlo Hdhi]. pose proof (digits_pos mp) as Hd.
  assert (Hcases : (n2 = 0 /\ Z.pos mp < 2 ^ 53) \/ (n2 = 1 /\ Z.pos mp = 2 ^ 53)).
  { destruct (Z.eq_dec (Z.pos mp) (2 ^ 53)) as [Heq | Hne].
    - right. split; [| exact Heq].
      assert (Hdig : digits mp = 54).
      { apply digits_unique. change (54 - 1) with 53. rewrite Heq.
        rewrite (pow2_pred 54) by lia. change (54 - 1) with 53. lia. }
      unfold n2, fexp, SpecFloat.emin, prec, emax. rewrite Hdig.
      unfold emin in *. lia.
    - left. split; [| lia].
      assert (Hdig : digits mp <= 53).
      { destruct (Z_lt_le_dec 53 (digits mp)) as [H | H]; [| exact H].
        exfalso. assert (2 ^ 53 <= 2 ^ (digits mp - 1)) by (apply pow2_le; lia).
        lia. }
      assert (Hdig' : emin < fe -> digits mp = 53).
      { intros H. specialize (Hnorm H).
        destruct (Z_lt_le_dec (digits mp) 53) as [H' | H']; [| lia].
        exfalso. assert (2 ^ digits mp <= 2 ^ 52) by (apply pow2_le; lia).
        lia. }
      unfold n2, fexp, SpecFloat.emin, prec, emax. unfold emin in *. lia. }
  destruct (shr_quotient (Z.pos mp) fe n2 ltac:(lia) ltac:(lia)) as [Hm He].
  cbv zeta. rewrite He, Hm. clear Hm He.
  assert (Hhuge : huge = 2 ^ 53 * 2 ^ 2045).
  { unfold huge. rewrite <- pow2_split by lia. reflexivity. }
  assert (Hhuge' : huge = 2 ^ 52 * 2 ^ 2046).
  { unfold huge. rewrite <- pow2_split by lia. reflexivity. }
  destruct Hcases as [[-> Hlt] | [-> Heq]].
  - change (2 ^ 0) with 1. rewrite Z.div_1_r, Z.add_0_r.
    change (emax - prec) with 971.
    destruct (Z.leb_spec fe 971) as [Hfin | Hinf].
    + split; [discriminate |]. cbn [key]. f_equal.
      assert (2 ^ (fe - emin) <= 2 ^ 2045)
        by (apply pow2_le; unfold emin in *; lia).
      assert (Z.pos mp * 2 ^ (fe - emin) < 2 ^ 53 * 2 ^ (fe - emin))
        by (apply Z.mul_lt_mono_pos_r; lia).
      assert (2 ^ 53 * 2 ^ (fe - emin) <= 2 ^ 53 * 2 ^ 2045)
        by (apply Z.mul_le_mono_nonneg_l; lia).
      lia.
    + split; [discriminate |]. cbn [key]. f_equal.
      assert (2 ^ 2046 <= 2 ^ (fe - emin))
        by (apply pow2_le; unfold emin in *; lia).
      assert (0 < 2 ^ 2046) by (apply pow2_pos; lia).
      assert (2 ^ 52 * 2 ^ (fe - emin) <= Z.pos mp * 2 ^ (fe - emin))
        by (apply Z.mul_le_mono_nonneg_r; unfold emin in *; lia).
      assert (2 ^ 52 * 2 ^ 2046 <= 2 ^ 52 * 2 ^ (fe - emin))
        by (apply Z.mul_le_mono_nonneg_l; lia).
      lia.
  - rewrite Heq. change (2 ^ 1) with 2.
    replace (2 ^ 53 / 2) with (2 ^ 52)
      by (rewrite H53; rewrite Z.mul_comm, Z.div_mul by lia; reflexivity).
    destruct (2 ^ 52) as [| m52 | m52] eqn:Hm52; try lia.
    change (emax - prec) with 971.
    assert (Hshift : Z.pos m52 * 2 ^ (fe + 1 - emin) = 2 ^ 53 * 2 ^ (fe - emin)).
    { replace (fe + 1 - emin) with (1 + (fe - emin)) by lia.
      rewrite pow2_split by lia. change (2 ^ 1) with 2. lia. }
    destruct (Z.leb_spec (fe + 1) 971) as [Hfin | Hinf].
    + split; [discriminate |]. cbn [key]. f_equal. rewrite Hshift.
      assert (2 * 2 ^ (fe - emin) <= 2 ^ 2045).
      { rewrite <- (pow2_succ (fe - emin)) by lia.
        apply pow2_le; unfold emin in *; lia. }
      assert (0 < 2 ^ 2045) by (apply pow2_pos; lia).
      assert (2 ^ 53 * 2 ^ (fe - emin) < 2 ^ 53 * 2 ^ 2045)
        by (apply Z.mul_lt_mono_pos_l; lia).
      lia.
    + split; [discriminate |]. cbn [key]. f_equal.
      assert (2 ^ 2045 <= 2 ^ (fe - emin))
        by (apply pow2_le; unfold emin in *; lia).
      assert (2 ^ 53 * 2 ^ 2045 <= 2 ^ 53 * 2 ^ (fe - emin))
        by (apply Z.mul_le_mono_nonneg_l; lia).
      lia.
Qed.

Lemma binary_round_aux_key (s : bool) (mz : positive) (ez : Z) :
  emin <= ez -> ez <= fexp prec emax (digits mz + ez) ->
  let f := binary_round_aux prec emax s (Z.pos mz) ez loc_Exact in
  f <> S754_nan /\
  key f = cond_Zopp s (Z.min (rne (Z.pos mz * 2 ^ (ez - emin))) huge).
Proof.
  intros Hez Hfe. cbv zeta.
  set (fe := fexp prec emax (digits mz + ez)) in *.
  set (n := fe - ez). set (a := ez - emin).
  assert (Ha : 0 < 2 ^ a) by (apply pow2_pos; unfold a; lia).
  assert (Hn : 0 < 2 ^ n) by (apply pow2_pos; unfold n; lia).
  set (V := Z.pos mz * 2 ^ a).
  assert (HV : 0 < V) by (unfold V; lia).
  assert (Hcut : cut V = n + a).
  { unfold cut, V. rewrite log2_shift by (unfold a; lia).
    unfold n, a, fe, fexp, SpecFloat.emin, prec, emax, emin in *. lia. }
  set (q := Z.pos mz / 2 ^ n).
  set (up := round_up q (Z.pos mz mod 2 ^ n) (2 ^ n)).
  set (m2 := q + (if up then 1 else 0)).
  assert (Hrne : rne V = m2 * 2 ^ (fe - emin)).
  { unfold rne. rewrite Hcut. replace (fe - emin) with (n + a) by (unfold n, a; lia).
    rewrite pow2_split by (unfold n, a; lia).
    unfold V. rewrite Z.div_mul_cancel_r by lia.
    rewrite Z.mul_mod_distr_r by lia.
    rewrite round_up_scale by exact Ha. reflexivity. }
  assert (Hq : 0 <= q) by (apply Z.div_pos; lia).
  assert (H52 : 0 < 2 ^ 52) by (apply pow2_pos; lia).
  assert (H53 : 2 ^ 53 = 2 * 2 ^ 52) by (apply (pow2_pred 53); lia).
  assert (Hm2 : 0 < m2 <= 2 ^ 53 /\ (emin < fe -> 2 ^ 52 <= m2)).
  { destruct (Z.eq_dec (cut V) 0) as [H0 | H0].
    - assert (Hn0 : n = 0) by (unfold n, a in *; lia).
      assert (Hfe0 : fe = emin) by (unfold n, a in *; lia).
      assert (Hq' : q = Z.pos mz).
      { unfold q. rewrite Hn0. change (2 ^ 0) with 1. apply Z.div_1_r. }
      assert (Hup : up = false).
      { unfold up. rewrite Hn0. change (2 ^ 0) with 1. rewrite Z.mod_1_r.
        reflexivity. }
      unfold m2. rewrite Hup, Hq', Z.add_0_r.
      assert (Hdig : digits mz <= 53).
      { unfold fe, fexp, SpecFloat.emin, prec, emax, n, a, emin in *. lia. }
      pose proof (digits_bounds mz) as [_ Hhi]. pose proof (digits_pos mz).
      assert (2 ^ digits mz <= 2 ^ 53) by (apply pow2_le; lia).
      split; [lia | intros; lia].
    - pose proof (cut_nonneg V).
      destruct (rne_large V HV ltac:(lia)) as [_ Hqb].
      rewrite Hcut, pow2_split in Hqb by (unfold n, a; lia).
      unfold V in Hqb. rewrite Z.div_mul_cancel_r in Hqb by lia. fold q in Hqb.
      unfold m2. destruct up; split; try lia; intros; lia. }
  destruct Hm2 as [Hm2 Hnorm].
  pose proof (canonical_key s m2 fe ltac:(lia) Hm2 Hnorm) as Hcanon.
  cbv zeta in Hcanon. rewrite <- Hrne in Hcanon.
  unfold binary_round_aux.
  destruct (shr_round (Z.pos mz) ez n ltac:(lia) ltac:(unfold n; lia))
    as [He Hround].
  cbv zeta in Hround. fold q up m2 in Hround.
  assert (Hfirst : shr_fexp prec emax (Z.pos mz) ez loc_Exact
                   = shr {| shr_m := Z.pos mz; shr_r := false; shr_s := false |}
                         ez n) by reflexivity.
  rewrite Hfirst.
  destruct (shr {| shr_m := Z.pos mz; shr_r := false; shr_s := false |} ez n)
    as [mrs' e'] eqn:Hshr.
  cbn [fst snd] in He, Hround. rewrite Hround.
  replace e' with fe by (unfold n in He; lia).
  destruct (shr_fexp prec emax m2 fe loc_Exact) as [mrs'' e''].
  cbn [fst snd] in Hcanon. exact Hcanon.
Qed.

Lemma shl_align_spec (m : positive) (e e' : Z) :
  snd (shl_align m e e') = Z.min e e' /\
  Z.pos (fst (shl_align m e e')) = Z.pos m * 2 ^ (e - Z.min e e').
Proof.
  unfold shl_align. destruct (e' - e) as [| d | d] eqn:Hd; cbn [fst snd].
  - replace (Z.min e e') with e by lia. rewrite Z.sub_diag. lia.
  - replace (Z.min e e') with e by lia. rewrite Z.sub_diag. lia.
  - replace (Z.min e e') with e' by lia. split; [reflexivity |].
    replace (e - e') with (Z.pos d) by lia.
    change (Pos.iter xO m d) with (shift_pos d m).
    rewrite shift_pos_correct. change (Z.pow_pos 2 d) with (2 ^ Z.pos d). lia.
Qed.

(** The key of a rounded integer [m * 2 ^ e]. *)
Lemma binary_round_key (s : bool) (m : positive) (e : Z) :
  emin <= e ->
  binary_round prec emax s m e <> S754_nan /\
  key (binary_round prec emax s m e)
    = cond_Zopp s (Z.min (rne (Z.pos m * 2 ^ (e - emin))) huge).
Proof.
  intros He. unfold binary_round.
  change (Z.pos (digits2_pos m)) with (digits m).
  set (fe := fexp prec emax (digits m + e)).
  destruct (shl_align_spec m e fe) as [Hez Hmz].
  destruct (shl_align m e fe) as [mz ez]. cbn [fst snd] in Hez, Hmz.
  assert (Hfe : emin <= fe)
    by (unfold fe, fexp, SpecFloat.emin, prec, emax, emin; lia).
  assert (Hdig : digits mz + ez = digits m + e).
  { rewrite (digits_shift m (e - Z.min e fe) mz) by (try exact Hmz; lia). lia. }
  assert (HV : Z.pos mz * 2 ^ (ez - emin) = Z.pos m * 2 ^ (e - emin)).
  { rewrite Hmz, <- Z.mul_assoc, <- pow2_split by lia. f_equal. f_equal. lia. }
  rewrite <- HV. apply binary_round_aux_key; [lia |].
  rewrite Hdig. fold fe. lia.
Qed.

(** ** Sums and differences

    The key of a correctly rounded sum is the rounding of the sum of the
    keys. *)
Definition round_key (v : Z) : Z :=
  match v with
  | 0 => 0
  | Z.pos _ => Z.min (rne v) huge
  | Z.neg p => - Z.min (rne (Z.pos p)) huge
  end.

Lemma round_key_pos (v : Z) : 0 < v -> round_key v = Z.min (rne v) huge.
Proof. destruct v; try lia. reflexivity. Qed.

Lemma round_key_neg (v : Z) : v < 0 -> round_key v = - Z.min (rne (- v)) huge.
Proof. destruct v; try lia. reflexivity. Qed.

Lemma round_key_sign (v : Z) :
  (0 < v -> 0 < round_key v <= huge) /\
  (v < 0 -> - huge <= round_key v < 0).
Proof.
  pose proof huge_pos. split; intros Hv.
  - rewrite round_key_pos by exact Hv. pose proof (rne_pos v Hv). lia.
  - rewrite round_key_neg by exact Hv. pose proof (rne_pos (- v) ltac:(lia)). lia.
Qed.

Lemma round_key_mono (v1 v2 : Z) : v1 <= v2 -> round_key v1 <= round_key v2.
Proof.
  intros Hle. pose proof huge_pos.
  destruct (round_key_sign v1) as [Hp1 Hn1], (round_key_sign v2) as [Hp2 Hn2].
  destruct (Z.lt_trichotomy v1 0) as [H1 | [H1 | H1]];
    destruct (Z.lt_trichotomy v2 0) as [H2 | [H2 | H2]]; try lia;
    try (subst; cbn [round_key] in *; lia).
  - rewrite !round_key_neg by assumption.
    pose proof (rne_mono (- v2) (- v1) ltac:(lia) ltac:(lia)). lia.
  - rewrite !round_key_pos by assumption.
    pose proof (rne_mono v1 v2 ltac:(lia) ltac:(lia)). lia.
Qed.

(** Finite floats and zeros. *)
Definition finite_or_zero (f : spec_float) : Prop :=
  match f with
  | S754_zero _ | S754_finite _ _ _ => True
  | _ => False
  end.

Lemma key_bounds (f : spec_float) :
  valid_binary f = true -> - huge <= key f <= huge.
Proof.
  pose proof huge_pos. destruct f as [s | s | | s m e]; intros Hv; cbn [key];
    try lia.
  - destruct s; cbn [cond_Zopp]; lia.
  - pose proof (finite_key_bounds m e Hv). destruct s; cbn [cond_Zopp]; lia.
Qed.

Lemma finite_key_strict (f : spec_float) :
  valid_binary f = true -> finite_or_zero f -> - huge < key f < huge.
Proof.
  pose proof huge_pos. destruct f as [s | s | | s m e]; intros Hv Hf;
    cbn [key]; try contradiction; try lia.
  pose proof (finite_key_bounds m e Hv). destruct s; cbn [cond_Zopp]; lia.
Qed.

Lemma round_key_exact (f : spec_float) :
  valid_binary f = true -> finite_or_zero f -> round_key (key f) = key f.
Proof.
  destruct f as [s | s | | s m e]; intros Hv Hf; try contradiction;
    [reflexivity |].
  cbn [key]. pose proof (finite_key_bounds m e Hv) as Hb.
  pose proof (rne_exact m e Hv) as Hr.
  destruct s; cbn [cond_Zopp].
  - rewrite round_key_neg by lia. rewrite Z.opp_involutive, Hr. lia.
  - rewrite round_key_pos by lia. rewrite Hr. lia.
Qed.

Lemma binary_normalize_key (m e : Z) (szero : bool) :
  emin <= e ->
  binary_normalize prec emax m e szero <> S754_nan /\
  key (binary_normalize prec emax m e szero) = round_key (m * 2 ^ (e - emin)).
Proof.
  intros He. pose proof (pow2_pos (e - emin) ltac:(lia)) as Hp.
  destruct m as [| p | p]; cbn [binary_normalize].
  - split; [discriminate | reflexivity].
  - destruct (binary_round_key false p e He) as [Hn Hk]. split; [exact Hn |].
    rewrite Hk. cbn [cond_Zopp].
    assert (0 < Z.pos p * 2 ^ (e - emin)) by (apply Z.mul_pos_pos; lia).
    rewrite round_key_pos by lia. reflexivity.
  - destruct (binary_round_key true p e He) as [Hn Hk]. split; [exact Hn |].
    rewrite Hk. cbn [cond_Zopp].
    assert (0 < Z.pos p * 2 ^ (e - emin)) by (apply Z.mul_pos_pos; lia).
    change (Z.neg p) with (- Z.pos p). rewrite Z.mul_opp_l.
    rewrite round_key_neg by lia. rewrite Z.opp_involutive. reflexivity.
Qed.

Lemma cond_Zopp_mul (s : bool) (a b : Z) :
  cond_Zopp s a * b = cond_Zopp s (a * b).
Proof. destruct s; cbn [cond_Zopp]; [apply Z.mul_opp_l | reflexivity]. Qed.

Lemma aligned_key (s : bool) (m : positive) (e ez : Z) :
  emin <= ez <= e ->
  cond_Zopp s (Z.pos (fst (shl_align m e ez))) * 2 ^ (ez - emin)
    = key (S754_finite s m e).
Proof.
  intros He. destruct (shl_align_spec m e ez) as [_ Hm].
  rewrite Hm. replace (Z.min e ez) with ez by lia.
  rewrite cond_Zopp_mul. cbn [key]. f_equal.
  rewrite <- Z.mul_assoc, <- pow2_split by lia. f_equal. f_equal. lia.
Qed.

Lemma key_negb (s : bool) (m : positive) (e : Z) :
  key (S754_finite (negb s) m e) = - key (S754_finite s m e).
Proof. cbn [key]. destruct s; cbn [negb cond_Zopp]; lia. Qed.

(** The key of a sum of finite floats. *)
Lemma SFadd_key (x y : spec_float) :
  valid_binary x = true -> valid_binary y = true ->
  finite_or_zero x -> finite_or_zero y ->
  SFadd prec emax x y <> S754_nan /\
  key (SFadd prec emax x y) = round_key (key x + key y).
Proof.
  intros Hx Hy Fx Fy.
  destruct x as [sx | sx | | sx mx ex], y as [sy | sy | | sy my ey];
    try contradiction; cbn [SFadd].
  - split; [destruct sx, sy; discriminate | destruct sx, sy; reflexivity].
  - split; [discriminate |]. change (key (S754_zero sx)) with 0.
    rewrite Z.add_0_l.
    symmetry. apply round_key_exact; assumption.
  - split; [discriminate |]. change (key (S754_zero sy)) with 0.
    rewrite Z.add_0_r.
    symmetry. apply round_key_exact; assumption.
  - pose proof (bounded_spec _ _ Hx) as [Hex _].
    pose proof (bounded_spec _ _ Hy) as [Hey _].
    destruct (binary_normalize_key
                (cond_Zopp sx (Z.pos (fst (shl_align mx ex (Z.min ex ey)))) +
                 cond_Zopp sy (Z.pos (fst (shl_align my ey (Z.min ex ey)))))
                (Z.min ex ey) false ltac:(lia)) as [Hn Hk].
    split; [exact Hn |]. rewrite Hk. f_equal.
    rewrite Z.mul_add_distr_r, !aligned_key by lia. reflexivity.
Qed.

(** The key of a difference of finite floats. *)
Lemma SFsub_key (x y : spec_float) :
  valid_binary x = true -> valid_binary y = true ->
  finite_or_zero x -> finite_or_zero y ->
  SFsub prec emax x y <> S754_nan /\
  key (SFsub prec emax x y) = round_key (key x - key y).
Proof.
  intros Hx Hy Fx Fy.
  destruct x as [sx | sx | | sx mx ex], y as [sy | sy | | sy my ey];
    try contradiction; cbn [SFsub].
  - split; [destruct sx, sy; discriminate | destruct sx, sy; reflexivity].
  - split; [discriminate |]. change (key (S754_zero sx)) with 0.
    rewrite Z.sub_0_l, <- key_negb.
    symmetry. apply round_key_exact; [exact Hy | exact I].
  - split; [discriminate |]. change (key (S754_zero sy)) with 0.
    rewrite Z.sub_0_r.
    symmetry. apply round_key_exact; assumption.
  - pose proof (bounded_spec _ _ Hx) as [Hex _].
    pose proof (bounded_spec _ _ Hy) as [Hey _].
    destruct (binary_normalize_key
                (cond_Zopp sx (Z.pos (fst (shl_align mx ex (Z.min ex ey)))) -
                 cond_Zopp sy (Z.pos (fst (shl_align my ey (Z.min ex ey)))))
                (Z.min ex ey) false ltac:(lia)) as [Hn Hk].
    split; [exact Hn |]. rewrite Hk. f_equal.
    rewrite Z.mul_sub_distr_r, !aligned_key by lia. reflexivity.
Qed.

(** ** Comparisons of floats through their keys *)

Definition fkey (a : float) : Z := key (Prim2SF a).

Definition numeric (a : float) : Prop := Prim2SF a <> S754_nan.

Lemma nan_dec (f : spec_float) : {f = S754_nan} + {f <> S754_nan}.
Proof. destruct f; first [left; reflexivity | right; discriminate]. Qed.

Lemma SFcompare_nan (a b : spec_float) :
  a = S754_nan \/ b = S754_nan -> SFcompare a b = None.
Proof.
  destruct a, b; intros [H | H]; try discriminate; reflexivity.
Qed.

Lemma compare_fkey (a b : float) :
  numeric a -> numeric b ->
  SFcompare (Prim2SF a) (Prim2SF b) = Some (fkey a ?= fkey b).
Proof.
  intros Ha Hb. apply SFcompare_key; try assumption; apply Prim2SF_valid.
Qed.

Lemma ltb_fkey (a b : float) :
  (a <? b)%float = true <-> numeric a /\ numeric b /\ fkey a < fkey b.
Proof.
  rewrite ltb_spec. unfold SFltb.
  destruct (nan_dec (Prim2SF a)) as [Ha | Ha];
    [rewrite SFcompare_nan by auto; split; [discriminate | intros [H _]; contradiction] |].
  destruct (nan_dec (Prim2SF b)) as [Hb | Hb];
    [rewrite SFcompare_nan by auto; split;
       [discriminate | intros [_ [H _]]; contradiction] |].
  rewrite compare_fkey by assumption.
  destruct (Z.compare_spec (fkey a) (fkey b)); split; intros H';
    try discriminate; try reflexivity;
    try (repeat split; auto; lia); try (destruct H' as [_ [_ H']]; lia).
Qed.

Lemma leb_fkey (a b : float) :
  (a <=? b)%float = true <-> numeric a /\ numeric b /\ fkey a <= fkey b.
Proof.
  rewrite leb_spec. unfold SFleb.
  destruct (nan_dec (Prim2SF a)) as [Ha | Ha];
    [rewrite SFcompare_nan by auto; split; [discriminate | intros [H _]; contradiction] |].
  destruct (nan_dec (Prim2SF b)) as [Hb | Hb];
    [rewrite SFcompare_nan by auto; split;
       [discriminate | intros [_ [H _]]; contradiction] |].
  rewrite compare_fkey by assumption.
  destruct (Z.compare_spec (fkey a) (fkey b)); split; intros H';
    try discriminate; try reflexivity;
    try (repeat split; auto; lia); try (destruct H' as [_ [_ H']]; lia).
Qed.

Lemma ltb_false_fkey (a b : float) :
  numeric a -> numeric b -> (a <? b)%float = false -> fkey b <= fkey a.
Proof.
  intros Ha Hb H. destruct (Z_lt_le_dec (fkey a) (fkey b)) as [Hlt | Hle];
    [| exact Hle].
  exfalso. assert (Ht : (a <? b)%float = true) by (apply ltb_fkey; auto).
  congruence.
Qed.

Lemma fkey_bounds (a : float) : - huge <= fkey a <= huge.
Proof. apply key_bounds, Prim2SF_valid. Qed.

(** [- t - e] does not grow with [t]. *)
Lemma opp_sub_key (t e : float) :
  numeric t -> finite_or_zero (Prim2SF e) ->
  numeric (- t - e)%float /\
  fkey (- t - e)%float
    = if (Z.abs (fkey t) <? huge) then round_key (- fkey t - fkey e)
      else - fkey t.
Proof.
  intros Ht He. unfold numeric, fkey in *.
  rewrite sub_spec, opp_spec. unfold SF64sub.
  pose proof (Prim2SF_valid t) as Hvt. pose proof (Prim2SF_valid e) as Hve.
  pose proof huge_pos.
  destruct (Prim2SF t) as [st | st | | st mt et] eqn:HT; try congruence.
  - (* zero *)
    destruct (SFsub_key (SFopp (S754_zero st)) (Prim2SF e)) as [Hn Hk];
      try assumption; try exact I.
    split; [exact Hn |].
    change (Z.abs (key (S754_zero st)) <? huge) with (0 <? huge).
    destruct (Z.ltb_spec 0 huge); [| lia]. rewrite Hk. reflexivity.
  - (* infinity *)
    assert (Habs : (Z.abs (key (S754_infinity st)) <? huge) = false).
    { apply Z.ltb_ge. cbn [key]. destruct st; cbn [cond_Zopp]; lia. }
    rewrite Habs. cbn [SFopp].
    destruct (Prim2SF e) as [se | se | | se me ee]; try contradiction;
      cbn [SFsub]; (split; [discriminate |]); cbn [key];
      destruct st; cbn [negb cond_Zopp]; lia.
  - (* finite *)
    pose proof (finite_key_strict _ Hvt I) as Hb.
    assert (Habs : (Z.abs (key (S754_finite st mt et)) <? huge) = true)
      by (apply Z.ltb_lt; lia).
    rewrite Habs.
    destruct (SFsub_key (SFopp (S754_finite st mt et)) (Prim2SF e))
      as [Hn Hk]; try assumption; try exact I.
    split; [exact Hn |]. rewrite Hk. cbn [SFopp]. rewrite key_negb. reflexivity.
Qed.

Lemma opp_sub_antitone (t1 t2 e : float) :
  finite_or_zero (Prim2SF e) -> (t1 <=? t2)%float = true ->
  numeric (- t1 - e)%float /\ numeric (- t2 - e)%float /\
  fkey (- t2 - e)%float <= fkey (- t1 - e)%float.
Proof.
  intros He Hle. apply leb_fkey in Hle. destruct Hle as [H1 [H2 Hle]].
  destruct (opp_sub_key t1 e H1 He) as [Hn1 Hk1].
  destruct (opp_sub_key t2 e H2 He) as [Hn2 Hk2].
  split; [exact Hn1 | split; [exact Hn2 |]].
  pose proof (fkey_bounds t1). pose proof (fkey_bounds t2).
  pose proof (fkey_bounds (- t1 - e)%float).
  pose proof (fkey_bounds (- t2 - e)%float).
  rewrite Hk1, Hk2 in *.
  destruct (Z.ltb_spec (Z.abs (fkey t1)) huge);
    destruct (Z.ltb_spec (Z.abs (fkey t2)) huge); try lia.
  apply round_key_mono. lia.
Qed.

(** Adding something that is not negative does not make a float
    smaller. *)
Lemma add_nonneg_key (a s : float) :
  (0 <=? s)%float = true -> numeric (a + s)%float ->
  numeric a /\ fkey a <= fkey (a + s)%float.
Proof.
  intros Hs Hsum. apply leb_fkey in Hs. destruct Hs as [_ [Hns Hs]].
  unfold numeric, fkey in *. change (key (Prim2SF 0%float)) with 0 in Hs.
  rewrite add_spec in *. unfold SF64add in *.
  pose proof (Prim2SF_valid a) as Hva. pose proof (Prim2SF_valid s) as Hvs.
  pose proof (key_bounds _ Hva) as Hba. pose proof huge_pos.
  destruct (Prim2SF a) as [sa | sa | | sa ma ea] eqn:HA;
    destruct (Prim2SF s) as [ss | ss | | ss ms es] eqn:HS;
    try congruence; try (cbn [SFadd] in Hsum; congruence).
  all: split; [discriminate |].
  all: try (destruct (SFadd_key _ _ Hva Hvs I I) as [_ Hk]; rewrite Hk;
            rewrite <- (round_key_exact _ Hva I) at 1;
            apply round_key_mono; lia).
  all: try (cbn [SFadd key] in *; destruct ss; cbn [cond_Zopp] in *; lia).
  all: destruct sa, ss; cbn [SFadd key cond_Zopp] in *; try lia; congruence.
Qed.

Lemma add_nonneg_not_below (a s d : float) :
  (0 <=? s)%float = true -> (a <? d)%float = false ->
  (a + s <? d)%float = false.
Proof.
  intros Hs Hlt. destruct (a + s <? d)%float eqn:Hsum; [| reflexivity].
  apply ltb_fkey in Hsum. destruct Hsum as [Hn [Hd Hk]].
  destruct (add_nonneg_key a s Hs Hn) as [Ha Hge].
  pose proof (ltb_false_fkey a d Ha Hd Hlt). lia.
Qed.

End Rounding.

(** ** Numbers and NaN *)

Lemma is_nan_numeric (a : float) :
  is_nan a = false <-> Rounding.numeric a.
Proof.
  split; [apply is_nan_Prim2SF |].
  intros Ha. unfold is_nan. rewrite eqb_spec. unfold SFeqb.
  rewrite (Rounding.compare_fkey a a Ha Ha), Z.compare_refl. reflexivity.
Qed.

Lemma is_nan_cases (a : float) : {is_nan a = true} + {Rounding.numeric a}.
Proof.
  destruct (is_nan a) eqn:H; [left; reflexivity | right].
  apply is_nan_numeric. exact H.
Qed.

(** Not greater means less or equal, for numbers. *)
Lemma not_greater_le (d bound : float) :
  fgt d bound = false ->
  is_nan d = true \/ is_nan bound = true \/ (d <=? bound) = true.
Proof.
  intros H. destruct (is_nan_cases d) as [Hd | Hd]; [left; exact Hd |].
  destruct (is_nan_cases bound) as [Hb | Hb]; [right; left; exact Hb |].
  right. right. apply Rounding.leb_fkey.
  split; [exact Hd | split; [exact Hb |]].
  apply Rounding.ltb_false_fkey; assumption.
Qed.

Lemma epsilon_finite : Rounding.finite_or_zero (Prim2SF epsilon).
Proof. vm_compute. exact I. Qed.

(** ** Monotonicity in the tolerance *)

(** Above the switch: [- t - epsilon] does not grow with [t]. *)
Lemma above_switch (g t1 t2 : float) :
  (t1 <=? t2) = true ->
  (- t1 - epsilon <? g) = true -> (- t2 - epsilon <? g) = true.
Proof.
  intros Hle H.
  destruct (Rounding.opp_sub_antitone t1 t2 epsilon epsilon_finite Hle)
    as [_ [Hn Hanti]].
  apply Rounding.ltb_fkey in H. destruct H as [_ [Hg Hlt]].
  apply Rounding.ltb_fkey. split; [exact Hn | split; [exact Hg | lia]].
Qed.

(** Across the switch: a gap above [epsilon] is above [- t - epsilon] for
    every [t] that is at least [epsilon]. *)
Lemma across_switch (g t : float) :
  (epsilon <=? t) = true ->
  (epsilon <? g) = true -> (- t - epsilon <? g) = true.
Proof.
  intros Hle H. apply (above_switch g epsilon t Hle).
  assert (Hsmall : (- epsilon - epsilon <? epsilon) = true)
    by (vm_compute; reflexivity).
  apply Rounding.ltb_fkey in Hsmall. destruct Hsmall as [Hn [_ Hsmall]].
  apply Rounding.ltb_fkey in H. destruct H as [_ [Hg Hlt]].
  apply Rounding.ltb_fkey. split; [exact Hn | split; [exact Hg | lia]].
Qed.

(** The two sides of the switch, for [t1 <= t2]. *)
Lemma switch_order (t1 t2 : float) :
  (t1 <=? t2) = true ->
  (t2 <? epsilon) = true -> (t1 <? epsilon) = true.
Proof.
  intros Hle H. apply Rounding.leb_fkey in Hle. destruct Hle as [Hn1 [_ Hk]].
  apply Rounding.ltb_fkey in H. destruct H as [_ [He Hlt]].
  apply Rounding.ltb_fkey. split; [exact Hn1 | split; [exact He | lia]].
Qed.

Lemma not_below_switch (t : float) :
  Rounding.numeric t -> (t <? epsilon) = false -> (epsilon <=? t) = true.
Proof.
  intros Hn H.
  assert (Hne : Rounding.numeric epsilon) by (vm_compute; discriminate).
  apply Rounding.leb_fkey. split; [exact Hne | split; [exact Hn |]].
  apply Rounding.ltb_false_fkey; assumption.
Qed.

Lemma gap_overlaps_monotone (g t1 t2 : float) :
  (t1 <=? t2) = true ->
  gap_overlaps t1 g = true -> gap_overlaps t2 g = true.
Proof.
  intros Hle. unfold gap_overlaps, fgt.
  pose proof Hle as Hk. apply Rounding.leb_fkey in Hk.
  destruct Hk as [_ [Hn2 _]].
  destruct (t2 <? epsilon) eqn:H2.
  - rewrite (switch_order t1 t2 Hle H2). auto.
  - pose proof (not_below_switch t2 Hn2 H2) as Hge.
    destruct (t1 <? epsilon); intros H;
      [apply across_switch | apply (above_switch g t1 t2)]; assumption.
Qed.

(** A larger tolerance never turns an overlap of two projections into a
    separation. *)
Theorem projections_overlap_monotone (proj1 proj2 : vec) (t1 t2 : float) :
  (t1 <=? t2) = true ->
  projections_overlap proj1 proj2 t1 = true ->
  projections_overlap proj1 proj2 t2 = true.
Proof.
  intros Hle. unfold projections_overlap, fgt.
  set (g := gap proj1 proj2).
  assert (Hn2 : Rounding.numeric t2).
  { pose proof Hle as Hk. apply Rounding.leb_fkey in Hk. tauto. }
  destruct (t1 <? epsilon) eqn:H1, (t2 <? epsilon) eqn:H2; intros H.
  - exact H.
  - apply across_switch; [apply not_below_switch |]; assumption.
  - rewrite (switch_order t1 t2 Hle H2) in H1. discriminate H1.
  - apply (above_switch g t1 t2); assumption.
Qed.

Lemma projections_overlap_monotone_witness :
  ((1 <=? 2) = true /\ projections_overlap (0, 1) (1, 2) 1 = true) /\
  projections_overlap (0, 1) (1, 2) 2 = true.
Proof.
  split; [split; reflexivity |].
  apply (projections_overlap_monotone (0, 1) (1, 2) 1 2); reflexivity.
Defined.

Section ToleranceMonotone.

Variable rt : runtime.

Lemma sat_round_true (c1 c2 : list vec) (t : float) (i : nat) :
  sat_round rt c1 c2 t i = Ret true ->
  exists pair1 pair2,
    round_projections rt c1 c2 i = Ret (pair1, pair2) /\
    pair_overlaps t pair1 = true /\ pair_overlaps t pair2 = true.
Proof.
  unfold sat_round, round_projections, axis_projections, pair_overlaps.
  intros H.
  destruct (index c1 i) as [a | |]; cbn [bind] in *; try discriminate.
  destruct (index c1 ((i + 1) mod 4)) as [b | |]; cbn [bind] in *;
    try discriminate.
  destruct (get_edge_normal rt a b) as [axis1 | |]; cbn [bind] in *;
    try discriminate.
  destruct (project_polygon axis1 c1) as [p11 | |]; cbn [bind] in *;
    try discriminate.
  destruct (project_polygon axis1 c2) as [p12 | |]; cbn [bind] in *;
    try discriminate.
  destruct (projections_overlap p11 p12 t) eqn:Ho1; cbn [negb] in H;
    [| discriminate].
  destruct (index c2 i) as [c | |]; cbn [bind] in *; try discriminate.
  destruct (index c2 ((i + 1) mod 4)) as [d | |]; cbn [bind] in *;
    try discriminate.
  destruct (get_edge_normal rt c d) as [axis2 | |]; cbn [bind] in *;
    try discriminate.
  destruct (project_polygon axis2 c1) as [p21 | |]; cbn [bind] in *;
    try discriminate.
  destruct (project_polygon axis2 c2) as [p22 | |]; cbn [bind] in *;
    try discriminate.
  injection H as H. exists (p11, p12), (p21, p22). auto.
Qed.

Lemma sat_rounds_true (c1 c2 : list vec) (t : float) (rounds : list nat) :
  sat_rounds rt c1 c2 t rounds = Ret true ->
  exists pairs,
    tested_projections rt c1 c2 rounds = Ret pairs /\
    forallb (pair_overlaps t) pairs = true.
Proof.
  induction rounds as [| i rest IH]; cbn [sat_rounds tested_projections];
    intros H.
  - exists []. auto.
  - destruct (sat_round rt c1 c2 t i) as [[|] | |] eqn:Hr; cbn [bind] in H;
      try discriminate.
    destruct (sat_round_true _ _ _ _ Hr) as [q1 [q2 [Hq [H1 H2]]]].
    destruct (IH H) as [more [Hmore Hall]].
    exists (q1 :: q2 :: more). rewrite Hq, Hmore. cbn [bind fst snd forallb].
    rewrite H1, H2, Hall. auto.
Qed.

Lemma forallb_pair_overlaps_monotone (t1 t2 : float) (pairs : list (vec * vec)) :
  (t1 <=? t2) = true ->
  forallb (pair_overlaps t1) pairs = true ->
  forallb (pair_overlaps t2) pairs = true.
Proof.
  intros Hle. induction pairs as [| q rest IH]; cbn [forallb]; [auto |].
  rewrite !andb_true_iff. intros [Hq Hrest]. split; [| apply IH; exact Hrest].
  unfold pair_overlaps in *.
  exact (gap_overlaps_monotone (gap (fst q) (snd q)) t1 t2 Hle Hq).
Qed.

End ToleranceMonotone.

(** A collision of two corner sets, or of two rectangles, at one tolerance
    is a collision at every larger tolerance. *)
Theorem collision_monotone (rt : runtime) (t1 t2 : float) :
  (t1 <=? t2) = true ->
  (forall c1 c2 : list vec,
     sat_rectangles_collide rt c1 c2 t1 = Ret true ->
     sat_rectangles_collide rt c1 c2 t2 = Ret true) /\
  (forall r1 r2 : Rectangle,
     rectangles_overlap rt r1 r2 t1 = Ret true ->
     rectangles_overlap rt r1 r2 t2 = Ret true).
Proof.
  intros Hle.
  assert (Hsat : forall c1 c2 : list vec,
             sat_rectangles_collide rt c1 c2 t1 = Ret true ->
             sat_rectangles_collide rt c1 c2 t2 = Ret true).
  { intros c1 c2 H. unfold sat_rectangles_collide in *.
    destruct (sat_rounds_true rt _ _ _ _ H) as [pairs [Hp Hall]].
    rewrite (sat_rounds_projections rt c1 c2 t2 _ pairs Hp).
    rewrite (forallb_pair_overlaps_monotone t1 t2 pairs Hle Hall).
    reflexivity. }
  split; [exact Hsat |].
  intros r1 r2 H. unfold rectangles_overlap in *.
  destruct (get_corners rt r1) as [cs1 | |]; cbn [bind] in *; try discriminate.
  destruct (get_corners rt r2) as [cs2 | |]; cbn [bind] in *; try discriminate.
  apply Hsat. exact H.
Qed.

Lemma collision_monotone_witness :
  (0 <=? 2) = true /\
  rectangles_overlap ref_runtime unit_square unit_square 2 = Ret true.
Proof.
  split; [reflexivity |].
  destruct (collision_monotone ref_runtime 0 2 eq_refl) as [_ H].
  apply H. vm_compute. reflexivity.
Defined.

(** C10: the collision test is monotone in the tolerance.  For [t1 <= t2],
    two projections that overlap at tolerance [t1] overlap at [t2], across
    the switch of the test at 1e-6, and two corner sets that collide at
    [t1] collide at [t2]. *)
Theorem tolerance_monotone (rt : runtime) (t1 t2 : float) :
  (t1 <=? t2) = true ->
  (forall proj1 proj2 : vec,
     projections_overlap proj1 proj2 t1 = true ->
     projections_overlap proj1 proj2 t2 = true) /\
  (forall c1 c2 : list vec,
     sat_rectangles_collide rt c1 c2 t1 = Ret true ->
     sat_rectangles_collide rt c1 c2 t2 = Ret true).
Proof.
  intros Hle. split.
  - intros proj1 proj2.
    change (projections_overlap proj1 proj2 t1)
      with (gap_overlaps t1 (gap proj1 proj2)).
    change (projections_overlap proj1 proj2 t2)
      with (gap_overlaps t2 (gap proj1 proj2)).
    apply gap_overlaps_monotone. exact Hle.
  - intros c1 c2 H. unfold sat_rectangles_collide in *.
    destruct (sat_rounds_true rt _ _ _ _ H) as [pairs [Hp Hall]].
    rewrite (sat_rounds_projections rt c1 c2 t2 _ pairs Hp).
    f_equal. apply forallb_pair_overlaps_monotone with (t1 := t1); assumption.
Qed.

Lemma tolerance_monotone_witness :
  ((0 <=? 0) = true /\ (0 <=? 2) = true /\
   projections_overlap (0, 2) (1, 3) 0 = true /\
   sat_rectangles_collide ref_runtime (box 0 0 2 2) (box 1 1 3 3) 0 = Ret true) /\
  projections_overlap (0, 2) (1, 3) 2 = true /\
  sat_rectangles_collide ref_runtime (box 0 0 2 2) (box 1 1 3 3) 2 = Ret true.
Proof.
  split; [repeat split; vm_compute; reflexivity |].
  destruct (tolerance_monotone ref_runtime 0 2 eq_refl) as [Hp Hs].
  split; [apply Hp | apply Hs]; vm_compute; reflexivity.
Defined.

(** ** Containment *)

Section Within.

Variable rt : runtime.

(** Every corner of [r] has a computed distance from the origin that is at
    most [bound], unless one of the two is NaN. *)
Definition corners_within (bound : float) (r : Rectangle) : Prop :=
  exists corners,
    get_corners rt r = Ret corners /\
    Forall (fun corner =>
              exists distance,
                corner_distance rt corner = Ret distance /\
                (is_nan distance = true \/ is_nan bound = true \/
                 (distance <=? bound) = true))
           corners.

Lemma corners_not_beyond_within (bound : float) (r : Rectangle) :
  corners_not_beyond rt bound r -> corners_within bound r.
Proof.
  intros [corners [Hc Hall]]. exists corners. split; [exact Hc |].
  eapply Forall_impl; [| exact Hall].
  intros corner [d [Hd Hgt]]. exists d. split; [exact Hd |].
  apply not_greater_le. exact Hgt.
Qed.

Lemma corners_not_beyond_slack (bound slack : float) (r : Rectangle) :
  (0 <=? slack) = true ->
  corners_not_beyond rt bound r -> corners_not_beyond rt (bound + slack) r.
Proof.
  intros Hs [corners [Hc Hall]]. exists corners. split; [exact Hc |].
  eapply Forall_impl; [| exact Hall].
  intros corner [d [Hd Hgt]]. exists d. split; [exact Hd |].
  unfold fgt in *. apply Rounding.add_nonneg_not_below; assumption.
Qed.

End Within.

(** Every corner of every returned rectangle lies within the effective
    radius, and within the effective radius plus any slack that is not
    negative, as far as the computed distance is a number. *)
Theorem containment (rt : runtime) (self : RectanglePacker) (fuel : nat)
    (res : PackingResult) :
  find_optimal_packing rt self fuel = Ret res ->
  Forall (corners_within rt (effective_radius self)) (rectangles res) /\
  forall slack, (0 <=? slack) = true ->
    Forall (corners_within rt (effective_radius self + slack)) (rectangles res).
Proof.
  intros H. pose proof (find_optimal_packing_accepted _ _ _ _ H) as [Hall _].
  assert (Hnb : Forall (corners_not_beyond rt (effective_radius self))
                       (rectangles res)).
  { eapply Forall_impl; [| exact Hall]. intros r. apply accepted_corners. }
  split.
  - eapply Forall_impl; [| exact Hnb]. intros r. apply corners_not_beyond_within.
  - intros slack Hs. eapply Forall_impl; [| exact Hnb].
    intros r Hr. apply corners_not_beyond_within.
    apply corners_not_beyond_slack; assumption.
Qed.

Lemma containment_witness :
  find_optimal_packing ref_runtime demo_packer 8 = Ret demo_result /\
  Forall (corners_within ref_runtime (effective_radius demo_packer))
         (rectangles demo_result).
Proof.
  split; [exact demo_run |].
  apply (containment ref_runtime demo_packer 8 demo_result demo_run).
Defined.




(** ** Searching the placed rectangles *)

Lemma rectangle_overlaps_any_false (rt : runtime) (rect : Rectangle)
    (placed : list Rectangle) (tol : float) :
  rectangle_overlaps_any rt rect placed tol = Ret false ->
  Forall (fun q => rectangles_overlap rt rect q tol = Ret false) placed.
Proof.
  induction placed as [| q rest IH]; intros H; [constructor |].
  cbn [rectangle_overlaps_any] in H.
  destruct (rectangles_overlap rt rect q tol) as [[|] | |] eqn:Hq;
    cbn [bind] in H; try discriminate.
  constructor; [exact Hq | apply IH; exact H].
Qed.

Lemma rectangle_overlaps_any_true (rt : runtime) (rect : Rectangle)
    (placed : list Rectangle) (tol : float) :
  rectangle_overlaps_any rt rect placed tol = Ret true ->
  exists before p after,
    placed = before ++ p :: after /\
    Forall (fun q => rectangles_overlap rt rect q tol = Ret false) before /\
    rectangles_overlap rt rect p tol = Ret true.
Proof.
  induction placed as [| q rest IH]; intros H;
    cbn [rectangle_overlaps_any] in H; [discriminate |].
  destruct (rectangles_overlap rt rect q tol) as [[|] | |] eqn:Hq;
    cbn [bind] in H; try discriminate.
  - exists [], q, rest. auto.
  - destruct (IH H) as [before [p [after [-> [Hb Hp]]]]].
    exists (q :: before), p, after. auto.
Qed.

(** [rectangle_overlaps_any] answers [False] only when the test against
    every placed rectangle answered [False], and [True] only when some
    placed rectangle collides and all those before it do not. *)
Theorem rectangle_overlaps_any_spec (rt : runtime) (rect : Rectangle)
    (placed : list Rectangle) (tol : float) (hit : bool) :
  rectangle_overlaps_any rt rect placed tol = Ret hit ->
  if hit then
    exists before p after,
      placed = before ++ p :: after /\
      Forall (fun q => rectangles_overlap rt rect q tol = Ret false) before /\
      rectangles_overlap rt rect p tol = Ret true
  else Forall (fun q => rectangles_overlap rt rect q tol = Ret false) placed.
Proof.
  intros H. destruct hit.
  - apply rectangle_overlaps_any_true. exact H.
  - apply rectangle_overlaps_any_false. exact H.
Qed.

Lemma rectangle_overlaps_any_spec_witness :
  rectangle_overlaps_any ref_runtime unit_square [shifted_square] 0 = Ret false /\
  Forall (fun q => rectangles_overlap ref_runtime unit_square q 0 = Ret false)
         [shifted_square].
Proof.
  split; [vm_compute; reflexivity |].
  apply (rectangle_overlaps_any_spec ref_runtime unit_square [shifted_square]
           0 false).
  vm_compute. reflexivity.
Defined.

(** ** The final validation *)

(** [_validate_no_overlaps] answers [True] only when the test of every pair
    [i < j] answered [False], and [False] only when some pair [i < j]
    collides. *)
Theorem validate_no_overlaps_spec (rt : runtime) (self : RectanglePacker)
    (rects : list Rectangle) (ok : bool) :
  _validate_no_overlaps rt self rects = Ret ok ->
  if ok then
    ForallOrdPairs
      (fun a b => rectangles_overlap rt a b (tolerance self) = Ret false) rects
  else
    exists i j a b,
      (i < j)%nat /\ nth_error rects i = Some a /\ nth_error rects j = Some b /\
      rectangles_overlap rt a b (tolerance self) = Ret true.
Proof.
  revert ok. induction rects as [| r rest IH]; intros ok H;
    cbn [_validate_no_overlaps] in H.
  - injection H as <-. constructor.
  - unfold _validate_pair_row in H.
    destruct (rectangle_overlaps_any rt r rest (tolerance self))
      as [hit | |] eqn:Hrow; cbn [bind] in H; try discriminate.
    destruct hit; cbn [negb] in H.
    + injection H as <-. apply rectangle_overlaps_any_true in Hrow.
      destruct Hrow as [before [p [after [-> [_ Hp]]]]].
      exists 0%nat, (S (List.length before)), r, p.
      split; [lia |]. split; [reflexivity |]. split; [| exact Hp].
      cbn [nth_error]. rewrite nth_error_app2 by lia.
      rewrite Nat.sub_diag. reflexivity.
    + apply rectangle_overlaps_any_false in Hrow.
      specialize (IH ok H). destruct ok.
      * constructor; assumption.
      * destruct IH as [i [j [a [b [Hij [Hi [Hj Hab]]]]]]].
        exists (S i), (S j), a, b. split; [lia | auto].
Qed.

Lemma validate_no_overlaps_spec_witness :
  _validate_no_overlaps ref_runtime demo_packer [unit_square; shifted_square]
    = Ret true /\
  ForallOrdPairs
    (fun a b => rectangles_overlap ref_runtime a b (tolerance demo_packer)
                = Ret false)
    [unit_square; shifted_square].
Proof.
  split; [vm_compute; reflexivity |].
  apply (validate_no_overlaps_spec ref_runtime demo_packer
           [unit_square; shifted_square] true).
  vm_compute. reflexivity.
Defined.

(** ** The choice of the optimizer *)

Lemma calculate_efficiency_keeps (rt : runtime) (self : RectanglePacker)
    (best res : PackingResult) :
  _calculate_efficiency rt self best = Ret res ->
  rectangles res = rectangles best /\ count res = count best /\
  strategy res = strategy best /\ circle res = circle best.
Proof.
  unfold _calculate_efficiency. destruct (circle best) as [c |] eqn:Hc.
  - intros H. apply bind_Ret in H. destruct H as [r2 [_ H]].
    destruct (fgt (math_pi * r2) 0); injection H as <-; cbn; auto.
  - intros H. injection H as <-. auto.
Qed.

(** The returned result passed the final validation whenever one of the
    two strategy results did; its count is at least the count of every
    validated strategy result, and the larger of the two counts when both
    or neither validated. *)
Theorem find_optimal_packing_choice (rt : runtime) (self : RectanglePacker)
    (fuel : nat) (res : PackingResult) :
  find_optimal_packing rt self fuel = Ret res ->
  exists r0 r90 v0 v90,
    _strict_grid_packing rt self fuel 0 = Ret r0 /\
    _strict_grid_packing rt self fuel 90 = Ret r90 /\
    _validate_no_overlaps rt self (rectangles r0) = Ret v0 /\
    _validate_no_overlaps rt self (rectangles r90) = Ret v90 /\
    (v0 || v90 = true ->
     _validate_no_overlaps rt self (rectangles res) = Ret true) /\
    (v0 = true -> (count r0 <= count res)%Z) /\
    (v90 = true -> (count r90 <= count res)%Z) /\
    (v0 = v90 -> count res = Z.max (count r0) (count r90)).
Proof.
  intros H. unfold find_optimal_packing in H.
  destruct (_strict_grid_packing rt self fuel 0) as [r0 | |] eqn:H0;
    cbn [bind] in H; try discriminate.
  destruct (_strict_grid_packing rt self fuel 90) as [r90 | |] eqn:H90;
    cbn [bind] in H; try discriminate.
  unfold valid_results in H. cbn [for_each] in H.
  destruct (_validate_no_overlaps rt self (rectangles r0)) as [v0 | |] eqn:Hv0;
    cbn [bind] in H; try discriminate.
  assert (Hstep : forall acc : list PackingResult,
            (if v0 then Ret (acc ++ [r0]) else Ret acc)
            = Ret (if v0 then acc ++ [r0] else acc))
    by (intros acc; destruct v0; reflexivity).
  rewrite Hstep in H. cbn [bind app] in H.
  destruct (_validate_no_overlaps rt self (rectangles r90)) as [v90 | |] eqn:Hv90;
    cbn [bind] in H; try discriminate.
  exists r0, r90, v0, v90.
  do 4 (split; [first [reflexivity | assumption] |]).
  unfold max_by_count in H.
  destruct v0, v90; cbn [bind app fold_left] in H;
    try (destruct (Z.gtb_spec (count r90) (count r0)) as [Hgt | Hle]);
    apply calculate_efficiency_keeps in H; destruct H as [Hr [Hc _]];
    rewrite Hr, Hc; cbn [orb];
    (split; [intros; try assumption; try discriminate |]);
    (split; [intros; try discriminate; lia |]);
    (split; [intros; try discriminate; lia |]);
    intros; try discriminate; lia.
Qed.

Lemma find_optimal_packing_choice_witness :
  find_optimal_packing ref_runtime demo_packer 8 = Ret demo_result /\
  exists r0 r90 v0 v90,
    _strict_grid_packing ref_runtime demo_packer 8 0 = Ret r0 /\
    _strict_grid_packing ref_runtime demo_packer 8 90 = Ret r90 /\
    _validate_no_overlaps ref_runtime demo_packer (rectangles r0) = Ret v0 /\
    _validate_no_overlaps ref_runtime demo_packer (rectangles r90) = Ret v90 /\
    (v0 || v90 = true ->
     _validate_no_overlaps ref_runtime demo_packer (rectangles demo_result)
       = Ret true) /\
    (v0 = true -> (count r0 <= count demo_result)%Z) /\
    (v90 = true -> (count r90 <= count demo_result)%Z) /\
    (v0 = v90 -> count demo_result = Z.max (count r0) (count r90)).
Proof.
  split; [exact demo_run |].
  apply (find_optimal_packing_choice ref_runtime demo_packer 8 demo_result).
  exact demo_run.
Defined.

(** ** The header of a result *)

Lemma strict_grid_packing_strategy (rt : runtime) (self : RectanglePacker)
    (fuel : nat) (rotation : Z) (r : PackingResult) :
  _strict_grid_packing rt self fuel rotation = Ret r ->
  strategy r
    = ("Strict Grid (Rot: " ++ string_of_int rotation ++ "° + Fill)")%string.
Proof.
  unfold _strict_grid_packing. intros H.
  apply bind_Ret in H. destruct H as [[best_rects max_count] [_ H]].
  cbv beta iota in H. destruct best_rects as [| r0 rest].
  - injection H as <-. reflexivity.
  - apply bind_Ret in H. destruct H as [filled [_ H]].
    injection H as <-. reflexivity.
Qed.

(** A returned result carries the circle of the configuration, centred at
    the origin, and the label of the strategy that produced it, which names
    the base orientation 0 or 90. *)
Theorem result_header (rt : runtime) (d w h tol sz : float) (fuel : nat)
    (res : PackingResult) :
  find_optimal_packing rt (new_packer d w h tol sz) fuel = Ret res ->
  circle res = Some {| radius := d / 2; position := {| x := 0; y := 0 |} |} /\
  (strategy res = "Strict Grid (Rot: 0° + Fill)"%string \/
   strategy res = "Strict Grid (Rot: 90° + Fill)"%string).
Proof.
  intros H. split.
  - apply find_optimal_packing_accepted in H. destruct H as [_ [_ Hc]].
    exact Hc.
  - apply find_optimal_packing_origin in H.
    destruct H as [rotation [best [Hrot [Hbest Heff]]]].
    apply calculate_efficiency_keeps in Heff. destruct Heff as [_ [_ [Hs _]]].
    rewrite Hs, (strict_grid_packing_strategy _ _ _ _ _ Hbest).
    destruct Hrot as [-> | ->]; [left | right]; reflexivity.
Qed.

Lemma result_header_witness :
  find_optimal_packing ref_runtime (new_packer 20 15 10 0 0) 8 = Ret demo_result /\
  circle demo_result
    = Some {| radius := 20 / 2; position := {| x := 0; y := 0 |} |} /\
  (strategy demo_result = "Strict Grid (Rot: 0° + Fill)"%string \/
   strategy demo_result = "Strict Grid (Rot: 90° + Fill)"%string).
Proof.
  split; [exact demo_run |].
  apply (result_header ref_runtime 20 15 10 0 0 8 demo_result). exact demo_run.
Defined.

(** ** What the collision test can raise *)

(** A call that returns or raises [OverflowError], and nothing else. *)
Definition returns_or_overflows {A : Type} (o : outcome A) : Prop :=
  (exists a, o = Ret a) \/ o = Raise OverflowError.

Lemma returns_or_overflows_bind {A B : Type} (m : outcome A)
    (k : A -> outcome B) :
  returns_or_overflows m -> (forall a, m = Ret a -> returns_or_overflows (k a)) ->
  returns_or_overflows (bind m k).
Proof.
  intros [[a ->] | ->] Hk; cbn [bind]; [apply Hk; reflexivity |].
  right. reflexivity.
Qed.

Lemma returns_or_overflows_Ret {A : Type} (a : A) : returns_or_overflows (Ret a).
Proof. left. exists a. reflexivity. Qed.

(** Squares as Python computes them: [x ** 2] is never negative, and fails
    only by overflow. *)
Definition squares (rt : runtime) : Prop :=
  forall x,
    (exists y, pow2 rt x = Ret y /\ (y <? 0) = false) \/
    pow2 rt x = Raise OverflowError.

(** The sum of two squares is not negative. *)
Lemma sum_not_negative (a b : float) :
  (a <? 0) = false -> (b <? 0) = false -> (a + b <? 0) = false.
Proof.
  intros Ha Hb. destruct (a + b <? 0) eqn:Hsum; [| reflexivity].
  apply Rounding.ltb_fkey in Hsum. destruct Hsum as [Hn [Hz Hlt]].
  assert (Hna : Rounding.numeric a /\ Rounding.numeric b).
  { unfold Rounding.numeric in *. rewrite add_spec in Hn.
    destruct (Prim2SF a), (Prim2SF b); split; try discriminate;
      exfalso; apply Hn; reflexivity. }
  destruct Hna as [Hna Hnb].
  pose proof (Rounding.ltb_false_fkey _ _ Hna Hz Ha) as Hka.
  pose proof (Rounding.ltb_false_fkey _ _ Hnb Hz Hb) as Hkb.
  assert (Hb0 : (0 <=? b) = true) by (apply Rounding.leb_fkey; auto).
  destruct (Rounding.add_nonneg_key a b Hb0 Hn) as [_ Hge]. lia.
Qed.

Section Errors.

Variable rt : runtime.
Hypothesis Hsquares : squares rt.

Lemma normalize_vector_errors (v : vec) :
  returns_or_overflows (normalize_vector rt v).
Proof.
  unfold normalize_vector.
  destruct (Hsquares (fst v)) as [[a [-> Ha]] | ->]; cbn [bind];
    [| right; reflexivity].
  destruct (Hsquares (snd v)) as [[b [-> Hb]] | ->]; cbn [bind];
    [| right; reflexivity].
  unfold math_sqrt. rewrite (sum_not_negative a b Ha Hb). cbn [bind].
  destruct (sqrt (a + b) =? 0); apply returns_or_overflows_Ret.
Qed.

Lemma project_polygon_returns (axis : vec) (vertices : list vec) :
  vertices <> [] -> exists p, project_polygon axis vertices = Ret p.
Proof.
  intros Hne. unfold project_polygon.
  destruct vertices as [| v rest]; [contradiction |].
  cbn [map min_list max_list bind]. eexists. reflexivity.
Qed.

Lemma index_returns (corners : list vec) (i : nat) :
  (i < List.length corners)%nat -> exists v, index corners i = Ret v.
Proof.
  intros Hi. unfold index.
  destruct (nth_error corners i) as [v |] eqn:Hv; [exists v; reflexivity |].
  apply nth_error_None in Hv. lia.
Qed.

Lemma sat_round_errors (c1 c2 : list vec) (tol : float) (i : nat) :
  List.length c1 = 4%nat -> List.length c2 = 4%nat -> (i < 4)%nat ->
  returns_or_overflows (sat_round rt c1 c2 tol i).
Proof.
  intros H1 H2 Hi. unfold sat_round.
  assert (Hi' : ((i + 1) mod 4 < 4)%nat) by (apply Nat.mod_upper_bound; lia).
  assert (Hne1 : c1 <> []) by (intros ->; discriminate).
  assert (Hne2 : c2 <> []) by (intros ->; discriminate).
  destruct (index_returns c1 i ltac:(lia)) as [a ->].
  destruct (index_returns c1 ((i + 1) mod 4) ltac:(lia)) as [b ->].
  cbn [bind]. apply returns_or_overflows_bind;
    [apply normalize_vector_errors |].
  intros axis1 _.
  destruct (project_polygon_returns axis1 c1 Hne1) as [p11 ->].
  destruct (project_polygon_returns axis1 c2 Hne2) as [p12 ->].
  cbn [bind].
  destruct (projections_overlap p11 p12 tol); cbn [negb];
    [| apply returns_or_overflows_Ret].
  destruct (index_returns c2 i ltac:(lia)) as [c ->].
  destruct (index_returns c2 ((i + 1) mod 4) ltac:(lia)) as [d ->].
  cbn [bind]. apply returns_or_overflows_bind;
    [apply normalize_vector_errors |].
  intros axis2 _.
  destruct (project_polygon_returns axis2 c1 Hne1) as [p21 ->].
  destruct (project_polygon_returns axis2 c2 Hne2) as [p22 ->].
  cbn [bind]. apply returns_or_overflows_Ret.
Qed.

Lemma sat_rounds_errors (c1 c2 : list vec) (tol : float) (rounds : list nat) :
  List.length c1 = 4%nat -> List.length c2 = 4%nat ->
  Forall (fun i => (i < 4)%nat) rounds ->
  returns_or_overflows (sat_rounds rt c1 c2 tol rounds).
Proof.
  intros H1 H2 Hall. induction Hall as [| i rest Hi _ IH]; cbn [sat_rounds].
  - apply returns_or_overflows_Ret.
  - apply returns_or_overflows_bind; [apply sat_round_errors; assumption |].
    intros [|] _; [exact IH | apply returns_or_overflows_Ret].
Qed.

Lemma get_corners_length (r : Rectangle) (corners : list Position) :
  get_corners rt r = Ret corners -> List.length corners = 4%nat.
Proof.
  unfold get_corners. intros H.
  apply bind_Ret in H. destruct H as [cos_r [_ H]].
  apply bind_Ret in H. destruct H as [sin_r [_ H]].
  injection H as <-. reflexivity.
Qed.

End Errors.

(** The collision test of two rectangles whose corners are computed
    returns, or raises [OverflowError]; it raises no [IndexError], no
    [ValueError] and no [ZeroDivisionError], and it terminates. *)
Theorem rectangles_overlap_errors (rt : runtime) (r1 r2 : Rectangle)
    (tol : float) (corners1 corners2 : list Position) :
  squares rt ->
  get_corners rt r1 = Ret corners1 -> get_corners rt r2 = Ret corners2 ->
  returns_or_overflows (rectangles_overlap rt r1 r2 tol).
Proof.
  intros Hsq H1 H2. unfold rectangles_overlap. rewrite H1, H2. cbn [bind].
  unfold sat_rectangles_collide. apply sat_rounds_errors.
  - exact Hsq.
  - unfold corner_pairs. rewrite length_map.
    exact (get_corners_length rt _ _ H1).
  - unfold corner_pairs. rewrite length_map.
    exact (get_corners_length rt _ _ H2).
  - repeat constructor.
Qed.

(** The squares of the reference runtime. *)
Lemma mul_self_not_negative (x : float) : (x * x <? 0) = false.
Proof.
  rewrite ltb_spec, mul_spec. unfold SF64mul.
  replace (Prim2SF 0) with (S754_zero false) by reflexivity.
  destruct (Prim2SF x) as [s | s | | s m e]; cbn [SFmul].
  - reflexivity.
  - destruct s; reflexivity.
  - reflexivity.
  - unfold binary_round_aux.
    destruct (shr_fexp prec emax (Z.pos (m * m)) (e + e) loc_Exact) as [mrs e1].
    destruct (shr_fexp prec emax
                (round_nearest_even (shr_m mrs) (loc_of_shr_record mrs)) e1
                loc_Exact) as [mrs' e2].
    destruct (shr_m mrs'); destruct s; cbn [xorb];
      try destruct (e2 <=? emax - prec)%Z; reflexivity.
Qed.

Lemma ref_runtime_squares : squares ref_runtime.
Proof.
  intros x. cbn [pow2 ref_runtime]. unfold ref_pow2.
  destruct (is_infinity (x * x) && negb (is_infinity x)); [right; reflexivity |].
  left. exists (x * x). split; [reflexivity | apply mul_self_not_negative].
Qed.

Lemma rectangles_overlap_errors_witness :
  returns_or_overflows (rectangles_overlap ref_runtime huge_square unit_square 0).
Proof.
  apply (rectangles_overlap_errors ref_runtime huge_square unit_square 0
           (match get_corners ref_runtime huge_square with
            | Ret c => c | _ => [] end)
           unit_square_corners ref_runtime_squares);
    vm_compute; reflexivity.
Defined.

(** The containment check of a rectangle whose corners are computed
    returns, or raises [OverflowError]. *)
Theorem rectangle_fits_errors (rt : runtime) (self : RectanglePacker)
    (r : Rectangle) (corners : list Position) :
  squares rt -> get_corners rt r = Ret corners ->
  returns_or_overflows (_rectangle_fits_in_circle rt self r).
Proof.
  intros Hsq Hc. unfold _rectangle_fits_in_circle. rewrite Hc. cbn [bind].
  clear Hc. induction corners as [| corner rest IH]; cbn [all_corners_inside].
  - apply returns_or_overflows_Ret.
  - unfold corner_outside, corner_distance.
    destruct (Hsq (x corner)) as [[a [-> Ha]] | ->]; cbn [bind];
      [| right; reflexivity].
    destruct (Hsq (y corner)) as [[b [-> Hb]] | ->]; cbn [bind];
      [| right; reflexivity].
    unfold math_sqrt. rewrite (sum_not_negative a b Ha Hb). cbn [bind].
    destruct (fgt (sqrt (a + b)) (effective_radius self));
      [apply returns_or_overflows_Ret | exact IH].
Qed.

Lemma rectangle_fits_errors_witness :
  returns_or_overflows
    (_rectangle_fits_in_circle ref_runtime demo_packer huge_square).
Proof.
  apply (rectangle_fits_errors ref_runtime demo_packer huge_square
           (match get_corners ref_runtime huge_square with
            | Ret c => c | _ => [] end)
           ref_runtime_squares).
  vm_compute. reflexivity.
Defined.

(** ** Smallest and largest of a list *)

Lemma min2_key (a b : float) :
  Rounding.numeric a -> Rounding.numeric b ->
  Rounding.numeric (min2 a b) /\
  Rounding.fkey (min2 a b) = Z.min (Rounding.fkey a) (Rounding.fkey b).
Proof.
  intros Ha Hb. unfold min2. destruct (b <? a) eqn:H.
  - apply Rounding.ltb_fkey in H. split; [exact Hb | lia].
  - pose proof (Rounding.ltb_false_fkey _ _ Hb Ha H). split; [exact Ha | lia].
Qed.

Lemma max2_key (a b : float) :
  Rounding.numeric a -> Rounding.numeric b ->
  Rounding.numeric (max2 a b) /\
  Rounding.fkey (max2 a b) = Z.max (Rounding.fkey a) (Rounding.fkey b).
Proof.
  intros Ha Hb. unfold max2, fgt. destruct (a <? b) eqn:H.
  - apply Rounding.ltb_fkey in H. split; [exact Hb | lia].
  - pose proof (Rounding.ltb_false_fkey _ _ Ha Hb H). split; [exact Ha | lia].
Qed.

Lemma fold_min2_In (xs : list float) (x : float) :
  In (fold_left min2 xs x) (x :: xs).
Proof.
  revert x. induction xs as [| y rest IH]; intros x; cbn [fold_left].
  - left. reflexivity.
  - destruct (IH (min2 x y)) as [H | H]; [| right; right; exact H].
    rewrite <- H. unfold min2. destruct (y <? x); cbn; auto.
Qed.

Lemma fold_max2_In (xs : list float) (x : float) :
  In (fold_left max2 xs x) (x :: xs).
Proof.
  revert x. induction xs as [| y rest IH]; intros x; cbn [fold_left].
  - left. reflexivity.
  - destruct (IH (max2 x y)) as [H | H]; [| right; right; exact H].
    rewrite <- H. unfold max2. destruct (fgt y x); cbn; auto.
Qed.

Lemma fold_min2_key (xs : list float) (x : float) :
  Rounding.numeric x -> Forall Rounding.numeric xs ->
  Rounding.numeric (fold_left min2 xs x) /\
  (Rounding.fkey (fold_left min2 xs x) <= Rounding.fkey x)%Z /\
  Forall (fun p => (Rounding.fkey (fold_left min2 xs x) <= Rounding.fkey p)%Z) xs.
Proof.
  intros Hx Hall. revert x Hx.
  induction Hall as [| y rest Hy _ IH]; intros x Hx; cbn [fold_left].
  - split; [exact Hx | split; [lia | constructor]].
  - destruct (min2_key x y Hx Hy) as [Hn Hk].
    destruct (IH (min2 x y) Hn) as [Hn' [Hle Hrest]].
    split; [exact Hn' | split; [lia |]]. constructor; [lia | exact Hrest].
Qed.

Lemma fold_max2_key (xs : list float) (x : float) :
  Rounding.numeric x -> Forall Rounding.numeric xs ->
  Rounding.numeric (fold_left max2 xs x) /\
  (Rounding.fkey x <= Rounding.fkey (fold_left max2 xs x))%Z /\
  Forall (fun p => (Rounding.fkey p <= Rounding.fkey (fold_left max2 xs x))%Z) xs.
Proof.
  intros Hx Hall. revert x Hx.
  induction Hall as [| y rest Hy _ IH]; intros x Hx; cbn [fold_left].
  - split; [exact Hx | split; [lia | constructor]].
  - destruct (max2_key x y Hx Hy) as [Hn Hk].
    destruct (IH (max2 x y) Hn) as [Hn' [Hle Hrest]].
    split; [exact Hn' | split; [lia |]]. constructor; [lia | exact Hrest].
Qed.

Lemma Forall_numeric (xs : list float) :
  Forall (fun p => is_nan p = false) xs -> Forall Rounding.numeric xs.
Proof.
  intros H. eapply Forall_impl; [| exact H]. intros p. apply is_nan_numeric.
Qed.

(** [min(xs)] is an element of [xs], and a lower bound of a list without
    NaN. *)
Lemma min_list_spec (xs : list float) (lo : float) :
  min_list xs = Ret lo ->
  In lo xs /\
  (Forall (fun p => is_nan p = false) xs ->
   Forall (fun p => (lo <=? p) = true) xs).
Proof.
  destruct xs as [| x rest]; cbn [min_list]; intros H; [discriminate |].
  injection H as <-. split; [apply fold_min2_In |].
  intros Hall. apply Forall_numeric in Hall. inversion Hall as [| ? ? Hx Hrest]; subst.
  destruct (fold_min2_key rest x Hx Hrest) as [Hn [Hle Hall']].
  constructor.
  - apply Rounding.leb_fkey. auto.
  - rewrite Forall_forall in *. intros p Hp.
    apply Rounding.leb_fkey. auto.
Qed.

Lemma max_list_spec (xs : list float) (hi : float) :
  max_list xs = Ret hi ->
  In hi xs /\
  (Forall (fun p => is_nan p = false) xs ->
   Forall (fun p => (p <=? hi) = true) xs).
Proof.
  destruct xs as [| x rest]; cbn [max_list]; intros H; [discriminate |].
  injection H as <-. split; [apply fold_max2_In |].
  intros Hall. apply Forall_numeric in Hall. inversion Hall as [| ? ? Hx Hrest]; subst.
  destruct (fold_max2_key rest x Hx Hrest) as [Hn [Hle Hall']].
  constructor.
  - apply Rounding.leb_fkey. auto.
  - rewrite Forall_forall in *. intros p Hp.
    apply Rounding.leb_fkey. auto.
Qed.

(** ** The projection of a polygon *)

(** [project_polygon] raises [ValueError] on an empty vertex list;
    otherwise it returns two of the projections, and when no projection is
    NaN every projection lies between them. *)
Theorem project_polygon_spec (axis : vec) (vertices : list vec) :
  (vertices = [] -> project_polygon axis vertices = Raise ValueError) /\
  forall lo hi,
    project_polygon axis vertices = Ret (lo, hi) ->
    (exists v, In v vertices /\ lo = dot_product axis v) /\
    (exists v, In v vertices /\ hi = dot_product axis v) /\
    (Forall (fun v => is_nan (dot_product axis v) = false) vertices ->
     Forall (fun v => (lo <=? dot_product axis v) = true /\
                      (dot_product axis v <=? hi) = true) vertices).
Proof.
  split; [intros ->; reflexivity |].
  intros lo hi H. unfold project_polygon in H.
  apply bind_Ret in H. destruct H as [lo' [Hlo H]].
  apply bind_Ret in H. destruct H as [hi' [Hhi H]].
  injection H as <- <-.
  apply min_list_spec in Hlo. destruct Hlo as [Hlo_in Hlo].
  apply max_list_spec in Hhi. destruct Hhi as [Hhi_in Hhi].
  apply in_map_iff in Hlo_in. destruct Hlo_in as [v1 [E1 Hv1]].
  apply in_map_iff in Hhi_in. destruct Hhi_in as [v2 [E2 Hv2]].
  split; [exists v1; auto |]. split; [exists v2; auto |].
  intros Hnum.
  assert (Hnum' : Forall (fun p => is_nan p = false) (map (dot_product axis) vertices)).
  { apply Forall_map. exact Hnum. }
  specialize (Hlo Hnum'). specialize (Hhi Hnum').
  rewrite Forall_map in Hlo, Hhi.
  rewrite Forall_forall in *. intros v Hv. split; [apply Hlo | apply Hhi]; exact Hv.
Qed.

Lemma project_polygon_spec_witness :
  project_polygon (1, 0) [(0, 0); (2, 1)] = Ret (0, 2) /\
  (exists v, In v [(0, 0); (2, 1)] /\ 0 = dot_product (1, 0) v).
Proof.
  split; [vm_compute; reflexivity |].
  destruct (project_polygon_spec (1, 0) [(0, 0); (2, 1)]) as [_ H].
  destruct (H 0 2) as [Hlo _]; [vm_compute; reflexivity | exact Hlo].
Defined.

(** ** Auxiliary checks of the packer *)

Definition bounding_box : Type := (float * float * float * float)%type.

Section Auxiliary.

Variable rt : runtime.
Variable self : RectanglePacker.

(** [_get_bounding_box]: [(min_x, min_y, max_x, max_y)] of the corners. *)
Definition _get_bounding_box (corners : list Position)
    : outcome bounding_box :=
  let xs := map x corners in
  let ys := map y corners in
  lo_x <- min_list xs ;;
  lo_y <- min_list ys ;;
  hi_x <- max_list xs ;;
  hi_y <- max_list ys ;;
  Ret (lo_x, lo_y, hi_x, hi_y).

(** [rotation in [0, 90]]. *)
Definition axis_aligned (rotation : float) : bool :=
  (rotation =? 0) || (rotation =? 90).

(** [_generate_edge_positions]: the candidates beside the right, left,
    upper and lower edge of an axis-aligned rectangle. *)
Definition _generate_edge_positions (rect : Rectangle) (new_rotation : float)
    : outcome (list Position) :=
  let new_w := if new_rotation =? 90 then rect_height self else rect_width self in
  let new_h := if new_rotation =? 90 then rect_width self else rect_height self in
  if axis_aligned (rotation rect) then
    corners <- get_corners rt rect ;;
    bbox <- _get_bounding_box corners ;;
    let '(lo_x, lo_y, hi_x, hi_y) := bbox in
    Ret [ {| x := hi_x + tolerance self + new_w / 2; y := y (rect_position rect) |};
          {| x := lo_x - tolerance self - new_w / 2; y := y (rect_position rect) |};
          {| x := x (rect_position rect); y := hi_y + tolerance self + new_h / 2 |};
          {| x := x (rect_position rect); y := lo_y - tolerance self - new_h / 2 |} ]
  else Ret [].

Definition touch_epsilon : float := 0x1.0624dd2f1a9fcp-10. (* 1e-3 *)

(** The test [_touches_existing] makes on two bounding boxes: a shared
    vertical edge with the boxes level, or a shared horizontal edge with
    the boxes in line. *)
Definition boxes_touch (rect_bbox placed_bbox : bounding_box) : bool :=
  let '(r0, r1, r2, r3) := rect_bbox in
  let '(p0, p1, p2, p3) := placed_bbox in
  (((abs (r0 - p2) <? touch_epsilon) || (abs (r2 - p0) <? touch_epsilon)) &&
   negb ((r3 <? p1 - touch_epsilon) || fgt r1 (p3 + touch_epsilon)))
  ||
  (((abs (r1 - p3) <? touch_epsilon) || (abs (r3 - p1) <? touch_epsilon)) &&
   negb ((r2 <? p0 - touch_epsilon) || fgt r0 (p2 + touch_epsilon))).

Fixpoint touches_any (rect : Rectangle) (placed_rectangles : list Rectangle)
    : outcome bool :=
  match placed_rectangles with
  | [] => Ret false
  | placed :: rest =>
      if axis_aligned (rotation rect) && axis_aligned (rotation placed) then
        rect_corners <- get_corners rt rect ;;
        rect_bbox <- _get_bounding_box rect_corners ;;
        placed_corners <- get_corners rt placed ;;
        placed_bbox <- _get_bounding_box placed_corners ;;
        if boxes_touch rect_bbox placed_bbox then Ret true
        else touches_any rect rest
      else touches_any rect rest
  end.

Definition _touches_existing (rect : Rectangle)
    (placed_rectangles : list Rectangle) : outcome bool :=
  if fgt (tolerance self) epsilon then Ret true
  else touches_any rect placed_rectangles.

End Auxiliary.

(** [_get_bounding_box] raises [ValueError] on an empty corner list;
    otherwise the box it returns contains every corner, when no coordinate
    is NaN. *)
Theorem get_bounding_box_spec (corners : list Position) :
  (corners = [] -> _get_bounding_box corners = Raise ValueError) /\
  forall lo_x lo_y hi_x hi_y,
    _get_bounding_box corners = Ret (lo_x, lo_y, hi_x, hi_y) ->
    Forall (fun c => is_nan (x c) = false /\ is_nan (y c) = false) corners ->
    Forall (fun c => (lo_x <=? x c) = true /\ (x c <=? hi_x) = true /\
                     (lo_y <=? y c) = true /\ (y c <=? hi_y) = true)
           corners.
Proof.
  split; [intros ->; reflexivity |].
  intros lo_x lo_y hi_x hi_y H Hnum. unfold _get_bounding_box in H.
  apply bind_Ret in H. destruct H as [a [Ha H]].
  apply bind_Ret in H. destruct H as [b [Hb H]].
  apply bind_Ret in H. destruct H as [c [Hc H]].
  apply bind_Ret in H. destruct H as [d [Hd H]].
  injection H as <- <- <- <-.
  apply min_list_spec in Ha, Hb. apply max_list_spec in Hc, Hd.
  destruct Ha as [_ Ha], Hb as [_ Hb], Hc as [_ Hc], Hd as [_ Hd].
  assert (Hx : Forall (fun p => is_nan p = false) (map x corners)).
  { apply Forall_map. eapply Forall_impl; [| exact Hnum]. intros p [H _]. exact H. }
  assert (Hy : Forall (fun p => is_nan p = false) (map y corners)).
  { apply Forall_map. eapply Forall_impl; [| exact Hnum]. intros p [_ H]. exact H. }
  specialize (Ha Hx). specialize (Hb Hy). specialize (Hc Hx). specialize (Hd Hy).
  rewrite Forall_map in Ha, Hb, Hc, Hd.
  rewrite Forall_forall in *. intros p Hp. auto.
Qed.

Lemma get_bounding_box_spec_witness :
  _get_bounding_box unit_square_corners
    = Ret (-0x1p-1, -0x1p-1, 0x1p-1, 0x1p-1) /\
  Forall (fun c => (-0x1p-1 <=? x c) = true /\ (x c <=? 0x1p-1) = true /\
                   (-0x1p-1 <=? y c) = true /\ (y c <=? 0x1p-1) = true)
         unit_square_corners.
Proof.
  split; [vm_compute; reflexivity |].
  destruct (get_bounding_box_spec unit_square_corners) as [_ H].
  apply H; [vm_compute; reflexivity |].
  vm_compute. repeat constructor.
Defined.

Lemma get_bounding_box_returns (corners : list Position) :
  corners <> [] -> exists bbox, _get_bounding_box corners = Ret bbox.
Proof.
  destruct corners as [| c rest]; [contradiction |]. intros _.
  unfold _get_bounding_box. cbn [map min_list max_list bind].
  eexists. reflexivity.
Qed.

(** [_generate_edge_positions] proposes nothing beside a rectangle that is
    not at 0 or 90 degrees, without computing its corners; beside one that
    is, it proposes four candidates, the first two level with the
    rectangle's centre and the last two in line with it. *)
Theorem generate_edge_positions_spec (rt : runtime) (self : RectanglePacker)
    (rect : Rectangle) (new_rotation : float) :
  (axis_aligned (rotation rect) = false ->
   _generate_edge_positions rt self rect new_rotation = Ret []) /\
  (axis_aligned (rotation rect) = true ->
   forall corners, get_corners rt rect = Ret corners ->
   exists right left top bottom,
     _generate_edge_positions rt self rect new_rotation
       = Ret [right; left; top; bottom] /\
     y right = y (rect_position rect) /\ y left = y (rect_position rect) /\
     x top = x (rect_position rect) /\ x bottom = x (rect_position rect)).
Proof.
  unfold _generate_edge_positions. split; intros Hrot; rewrite Hrot;
    [reflexivity |].
  intros corners Hc. rewrite Hc. cbn [bind].
  assert (Hne : corners <> []).
  { pose proof (get_corners_length rt _ _ Hc) as Hlen.
    intros ->. discriminate Hlen. }
  destruct (get_bounding_box_returns corners Hne) as [[[[a b] c] d] ->].
  cbn [bind]. do 4 eexists. split; [reflexivity |]. cbn [x y]. auto.
Qed.

Lemma generate_edge_positions_spec_witness :
  axis_aligned (rotation unit_square) = true /\
  get_corners ref_runtime unit_square = Ret unit_square_corners /\
  exists right left top bottom,
    _generate_edge_positions ref_runtime demo_packer unit_square 90
      = Ret [right; left; top; bottom] /\
    y right = y (rect_position unit_square) /\
    y left = y (rect_position unit_square) /\
    x top = x (rect_position unit_square) /\
    x bottom = x (rect_position unit_square).
Proof.
  split; [reflexivity |]. split; [vm_compute; reflexivity |].
  destruct (generate_edge_positions_spec ref_runtime demo_packer unit_square 90)
    as [_ H].
  apply (H eq_refl unit_square_corners). vm_compute. reflexivity.
Defined.

Lemma touches_any_filter (rt : runtime) (rect : Rectangle)
    (placed : list Rectangle) :
  touches_any rt rect placed
    = touches_any rt rect
        (filter (fun p => axis_aligned (rotation p)) placed).
Proof.
  induction placed as [| p rest IH]; [reflexivity |].
  cbn [touches_any filter].
  destruct (axis_aligned (rotation p)) eqn:Hp.
  - cbn [touches_any]. rewrite Hp.
    destruct (axis_aligned (rotation rect)); cbn [andb]; [| exact IH].
    destruct (get_corners rt rect) as [rc | |]; cbn [bind]; try reflexivity.
    destruct (_get_bounding_box rc) as [rb | |]; cbn [bind]; try reflexivity.
    destruct (get_corners rt p) as [pc | |]; cbn [bind]; try reflexivity.
    destruct (_get_bounding_box pc) as [pb | |]; cbn [bind]; try reflexivity.
    destruct (boxes_touch rb pb); [reflexivity | exact IH].
  - rewrite andb_false_r. exact IH.
Qed.

(** [_touches_existing]: above a tolerance of 1e-6 every rectangle counts
    as touching and nothing is computed; at or below it, a rectangle that
    is not at 0 or 90 degrees touches nothing, and placed rectangles that
    are not at 0 or 90 degrees are ignored. *)
Theorem touches_existing_spec (rt : runtime) (self : RectanglePacker)
    (rect : Rectangle) (placed : list Rectangle) :
  (fgt (tolerance self) epsilon = true ->
   _touches_existing rt self rect placed = Ret true) /\
  (fgt (tolerance self) epsilon = false ->
   (axis_aligned (rotation rect) = false ->
    _touches_existing rt self rect placed = Ret false) /\
   _touches_existing rt self rect placed
     = _touches_existing rt self rect
         (filter (fun p => axis_aligned (rotation p)) placed)).
Proof.
  unfold _touches_existing. split; intros Htol; rewrite Htol; [reflexivity |].
  split; [| apply touches_any_filter].
  intros Hrot. induction placed as [| p rest IH]; [reflexivity |].
  cbn [touches_any]. rewrite Hrot. cbn [andb]. exact IH.
Qed.

Lemma touches_existing_spec_witness :
  fgt (tolerance spaced_packer) epsilon = true /\
  _touches_existing ref_runtime spaced_packer unit_square [] = Ret true.
Proof.
  split; [reflexivity |].
  destruct (touches_existing_spec ref_runtime spaced_packer unit_square [])
    as [H _].
  apply H. reflexivity.
Defined.

(** ** The shape of a result

    The rectangles of the base grid are accepted on containment alone;
    every rectangle after them is tested, when it is added, against all
    the rectangles already in the list. *)

Section Structure.

Variable rt : runtime.
Variable self : RectanglePacker.

(** [l] is [base] followed by rectangles that each fitted in the circle and
    collided with none of the rectangles before them. *)
Inductive free_extension (base : list Rectangle) : list Rectangle -> Prop :=
| free_base : free_extension base base
| free_snoc (l : list Rectangle) (r : Rectangle) :
    free_extension base l ->
    _rectangle_fits_in_circle rt self r = Ret true ->
    rectangle_overlaps_any rt r l (tolerance self) = Ret false ->
    free_extension base (l ++ [r]).

Lemma free_extension_trans (base l l' : list Rectangle) :
  free_extension base l -> free_extension l l' -> free_extension base l'.
Proof.
  intros Hl Hl'. induction Hl' as [| l' r _ IH Hfits Hfree];
    [exact Hl | apply free_snoc; assumption].
Qed.

Lemma free_extension_spec (base l : list Rectangle) :
  free_extension base l ->
  exists extra,
    l = base ++ extra /\
    forall before r after,
      extra = before ++ r :: after ->
      _rectangle_fits_in_circle rt self r = Ret true /\
      rectangle_overlaps_any rt r (base ++ before) (tolerance self) = Ret false.
Proof.
  intros H. induction H as [| l r _ [extra [-> IH]] Hfits Hfree].
  - exists []. split; [symmetry; apply app_nil_r |].
    intros [| ? ?] r0 after H; discriminate H.
  - exists (extra ++ [r]). split; [symmetry; apply app_assoc |].
    intros before r' after Hsplit.
    destruct after as [| a after' _] using rev_ind.
    + apply app_inj_tail in Hsplit. destruct Hsplit as [-> ->]. auto.
    + rewrite app_comm_cons, app_assoc in Hsplit.
      apply app_inj_tail in Hsplit. destruct Hsplit as [-> _].
      apply (IH before r' after'). reflexivity.
Qed.

Lemma place_if_free_extension (base : list Rectangle) (r : Rectangle)
    (filled filled' : list Rectangle) :
  free_extension base filled ->
  place_if_free rt self r filled = Ret filled' ->
  free_extension base filled'.
Proof.
  intros Hf H. unfold place_if_free in H. run_inv H; try exact Hf.
  apply free_snoc; assumption.
Qed.

Lemma scan_line_extension (base : list Rectangle)
    (at_coord : float -> Rectangle) (start step : float)
    (filled filled' : list Rectangle) :
  free_extension base filled ->
  scan_line rt self at_coord start step filled = Ret filled' ->
  free_extension base filled'.
Proof.
  intros Hf H. unfold scan_line in H. run_inv H.
  match goal with Hfe : for_each _ _ _ = Ret _ |- _ => revert Hfe end.
  apply for_each_invariant; [| exact Hf].
  intros k s s' Hs Hbody. run_inv Hbody.
  eapply place_if_free_extension; eassumption.
Qed.

Section GridStructure.

Variable fuel : nat.
Variable rotation : Z.

Lemma edge_loop_extension (base : list Rectangle) (cond : edge_state -> bool)
    (body : edge_state -> outcome edge_state) (start : float)
    (filled : list Rectangle) (st : edge_state) :
  (forall s s', free_extension base (snd s) -> body s = Ret s' ->
                free_extension base (snd s')) ->
  free_extension base filled ->
  while fuel cond body (start, filled) = Ret st ->
  free_extension base (snd st).
Proof.
  intros Hbody Hf H.
  apply (while_invariant (fun s : edge_state => free_extension base (snd s)))
    in H; [tauto | | exact Hf].
  intros s s' Hs _ Hb. eapply Hbody; eassumption.
Qed.

Ltac edge_extension :=
  let H := fresh "H" in
  intros ? H; run_inv H;
  match goal with
  | Hw : while _ _ _ _ = Ret _ |- _ =>
      eapply edge_loop_extension; [| eassumption | exact Hw]
  end;
  let Hs := fresh "Hs" in
  let Hb := fresh "Hb" in
  intros ? ? Hs Hb; cbv beta in Hb; run_inv Hb; simpl;
  eapply scan_line_extension; eassumption.

Lemma fill_right_extension (base : list Rectangle) (g : grid_state)
    (filled filled' : list Rectangle) :
  free_extension base filled ->
  fill_right rt self fuel rotation g filled = Ret filled' ->
  free_extension base filled'.
Proof. unfold fill_right. edge_extension. Qed.

Lemma fill_left_extension (base : list Rectangle) (g : grid_state)
    (filled filled' : list Rectangle) :
  free_extension base filled ->
  fill_left rt self fuel rotation g filled = Ret filled' ->
  free_extension base filled'.
Proof. unfold fill_left. edge_extension. Qed.

Lemma fill_top_extension (base : list Rectangle) (g : grid_state)
    (filled filled' : list Rectangle) :
  free_extension base filled ->
  fill_top rt self fuel rotation g filled = Ret filled' ->
  free_extension base filled'.
Proof. unfold fill_top. edge_extension. Qed.

Lemma fill_bottom_extension (base : list Rectangle) (g : grid_state)
    (filled filled' : list Rectangle) :
  free_extension base filled ->
  fill_bottom rt self fuel rotation g filled = Ret filled' ->
  free_extension base filled'.
Proof. unfold fill_bottom. edge_extension. Qed.

Lemma center_step_extension (base : list Rectangle) (g : grid_state)
    (next_y : float -> float) (st st' : strip_state) :
  free_extension base (snd (fst st)) ->
  center_step rt self rotation g next_y st = Ret st' ->
  free_extension base (snd (fst st')).
Proof.
  intros Hf H. unfold center_step in H.
  destruct st as [[curr_y filled] broke]. simpl in Hf.
  run_inv H; simpl; try exact Hf. apply free_snoc; assumption.
Qed.

Lemma center_loop_extension (base : list Rectangle)
    (cond : strip_state -> bool) (g : grid_state) (next_y : float -> float)
    (start : float) (filled : list Rectangle) (st : strip_state) :
  free_extension base filled ->
  while fuel cond (center_step rt self rotation g next_y) (start, filled, false)
    = Ret st ->
  free_extension base (snd (fst st)).
Proof.
  intros Hf H.
  apply (while_invariant
           (fun s : strip_state => free_extension base (snd (fst s))))
    in H; [tauto | | exact Hf].
  intros s s' Hs _ Hb. eapply center_step_extension; eassumption.
Qed.

Lemma center_top_extension (base : list Rectangle) (g : grid_state)
    (filled filled' : list Rectangle) :
  free_extension base filled ->
  center_top rt self fuel rotation g filled = Ret filled' ->
  free_extension base filled'.
Proof.
  intros Hf H. unfold center_top in H. run_inv H.
  eapply center_loop_extension; eassumption.
Qed.

Lemma center_bottom_extension (base : list Rectangle) (g : grid_state)
    (filled filled' : list Rectangle) :
  free_extension base filled ->
  center_bottom rt self fuel rotation g filled = Ret filled' ->
  free_extension base filled'.
Proof.
  intros Hf H. unfold center_bottom in H. run_inv H.
  eapply center_loop_extension; eassumption.
Qed.

(** The best list of the search: empty, or the base grid of one offset
    with checked additions. *)
Definition grid_extension (rects : list Rectangle) : Prop :=
  rects = [] \/
  exists offset_x offset_y g,
    base_grid rt self rotation offset_x offset_y = Ret g /\
    free_extension (current_rects g) rects.

Lemma try_offset_extension (i j : Z) (st st' : search_state) :
  grid_extension (fst st) ->
  try_offset rt self fuel rotation i j st = Ret st' ->
  grid_extension (fst st').
Proof.
  intros Hbest H. unfold try_offset in H.
  destruct st as [best_rects max_count]. simpl in Hbest.
  run_inv H.
  1: exact Hbest.
  all: match goal with Hg : base_grid _ _ _ _ _ = Ret ?g |- _ =>
    pose proof (free_base (current_rects g)) as Hext;
    assert (Hfinal : forall rects, free_extension (current_rects g) rects ->
                                   grid_extension rects)
      by (intros rects Hr; right; eexists; eexists; exists g; split;
          [exact Hg | exact Hr])
  end.
  all: match goal with Hcur : current_rects _ = _ :: _ |- _ =>
    rewrite Hcur in Hext at 2
  end.
  all: repeat match goal with
    | Hf : fill_right _ _ _ _ _ _ = Ret _ |- _ =>
        apply (fill_right_extension _ _ _ _ Hext) in Hf; clear Hext;
        rename Hf into Hext
    | Hf : fill_left _ _ _ _ _ _ = Ret _ |- _ =>
        apply (fill_left_extension _ _ _ _ Hext) in Hf; clear Hext;
        rename Hf into Hext
    | Hf : fill_top _ _ _ _ _ _ = Ret _ |- _ =>
        apply (fill_top_extension _ _ _ _ Hext) in Hf; clear Hext;
        rename Hf into Hext
    | Hf : fill_bottom _ _ _ _ _ _ = Ret _ |- _ =>
        apply (fill_bottom_extension _ _ _ _ Hext) in Hf; clear Hext;
        rename Hf into Hext
    | Hf : center_top _ _ _ _ _ _ = Ret _ |- _ =>
        apply (center_top_extension _ _ _ _ Hext) in Hf; clear Hext;
        rename Hf into Hext
    | Hf : center_bottom _ _ _ _ _ _ = Ret _ |- _ =>
        apply (center_bottom_extension _ _ _ _ Hext) in Hf; clear Hext;
        rename Hf into Hext
    end.
  all: simpl.
  all: repeat match goal with
    | |- context [(?a >? ?b)%Z] => destruct (a >? b)%Z
    end.
  all: first [exact Hbest | apply Hfinal; exact Hext].
Qed.

Lemma offset_search_extension (st : search_state) :
  offset_search rt self fuel rotation = Ret st -> grid_extension (fst st).
Proof.
  unfold offset_search.
  apply (for_each_invariant (fun s : search_state => grid_extension (fst s))).
  - intros i s s' Hs.
    apply (for_each_invariant (fun s : search_state => grid_extension (fst s)));
      [| exact Hs].
    intros j s0 s1 Hs0 Hb. eapply try_offset_extension; eassumption.
  - left. reflexivity.
Qed.

End GridStructure.

Lemma scan_point_extension (base : list Rectangle) (sx sy : float)
    (rotations : list float) (filled filled' : list Rectangle) :
  free_extension base filled ->
  scan_point rt self sx sy rotations filled = Ret filled' ->
  free_extension base filled'.
Proof.
  induction rotations as [| rot rest IH]; simpl; intros Hf H.
  - injection H as <-. exact Hf.
  - apply bind_Ret in H. destruct H as [ok [Hok H]]. destruct ok.
    + injection H as <-. unfold fits_and_free in Hok.
      apply bind_Ret in Hok. destruct Hok as [fits [Hfits Hok]].
      destruct fits; [| discriminate].
      apply bind_Ret in Hok. destruct Hok as [hit [Hhit Hok]].
      destruct hit; [discriminate |]. apply free_snoc; assumption.
    + apply IH; assumption.
Qed.

Lemma systematic_gap_fill_extension (fuel : nat)
    (placed filled : list Rectangle) :
  _systematic_gap_fill rt self fuel placed = Ret filled ->
  free_extension placed filled.
Proof.
  intros H. unfold _systematic_gap_fill in H. run_inv H.
  match goal with Hw : while _ _ _ _ = Ret _ |- _ =>
    apply (while_invariant
             (fun s : edge_state => free_extension placed (snd s)))
      in Hw; [tauto | | apply free_base]
  end.
  intros s s' Hs _ Hb. cbv beta in Hb. run_inv Hb. simpl.
  match goal with Hw : while _ _ _ _ = Ret _ |- _ =>
    apply (while_invariant
             (fun s : edge_state => free_extension placed (snd s)))
      in Hw; [tauto | | exact Hs]
  end.
  intros s0 s1 Hs0 _ Hb. cbv beta in Hb. run_inv Hb. simpl.
  eapply scan_point_extension; eassumption.
Qed.

Lemma strict_grid_packing_extension (fuel : nat) (rotation : Z)
    (r : PackingResult) :
  _strict_grid_packing rt self fuel rotation = Ret r ->
  grid_extension rotation (rectangles r).
Proof.
  intros H. unfold _strict_grid_packing in H.
  apply bind_Ret in H. destruct H as [[best_rects max_count] [Hsearch H]].
  apply offset_search_extension in Hsearch. simpl in Hsearch.
  cbv beta iota in H. destruct best_rects as [| r0 rest].
  - injection H as <-. left. reflexivity.
  - apply bind_Ret in H. destruct H as [filled [Hfill H]].
    injection H as <-. simpl.
    apply systematic_gap_fill_extension in Hfill.
    destruct Hsearch as [Hnil | [ox [oy [g [Hg Hext]]]]]; [discriminate |].
    right. exists ox, oy, g. split; [exact Hg |].
    eapply free_extension_trans; eassumption.
Qed.

End Structure.

(** The base grid holds rectangles of the base orientation only. *)
Lemma base_grid_rotation (rt : runtime) (self : RectanglePacker)
    (rot : Z) (ox oy : float) (g : grid_state) :
  base_grid rt self rot ox oy = Ret g ->
  Forall (fun r => rotation r = of_int rot) (current_rects g).
Proof.
  intros H. unfold base_grid in H. run_inv H.
  match goal with Hf : for_each _ _ _ = Ret _ |- _ => revert Hf end.
  apply (for_each_invariant
           (fun g => Forall (fun r => rotation r = of_int rot)
                            (current_rects g)));
    [| constructor].
  intros r s s' Hs.
  apply (for_each_invariant
           (fun g => Forall (fun r => rotation r = of_int rot)
                            (current_rects g))); [| exact Hs].
  clear. intros c g g' Hg H. unfold grid_cell in H. run_inv H; simpl;
    try exact Hg.
  apply Forall_snoc; [exact Hg | reflexivity].
Qed.

(** A run in which the edge fill adds a rectangle to a base grid of one. *)
Definition fill_packer : RectanglePacker := new_packer 30 15 10 0 0.

Definition fill_result : PackingResult :=
  Eval vm_compute in returned (find_optimal_packing ref_runtime fill_packer 8).

Lemma fill_run : find_optimal_packing ref_runtime fill_packer 8 = Ret fill_result.
Proof. vm_compute. reflexivity. Qed.

(** A returned result is empty, or it is the base grid of one offset of one
    of the two strategies, followed by rectangles each of which fitted in
    the circle and, when it was added, collided with none of the rectangles
    before it in the list. *)
Theorem result_structure (rt : runtime) (self : RectanglePacker) (fuel : nat)
    (res : PackingResult) :
  find_optimal_packing rt self fuel = Ret res ->
  rectangles res = [] \/
  exists rotation offset_x offset_y g extra,
    (rotation = 0%Z \/ rotation = 90%Z) /\
    base_grid rt self rotation offset_x offset_y = Ret g /\
    rectangles res = current_rects g ++ extra /\
    forall before r after,
      extra = before ++ r :: after ->
      _rectangle_fits_in_circle rt self r = Ret true /\
      rectangle_overlaps_any rt r (current_rects g ++ before) (tolerance self)
        = Ret false.
Proof.
  intros H. apply find_optimal_packing_origin in H.
  destruct H as [rotation [best [Hrot [Hbest Heff]]]].
  apply calculate_efficiency_keeps in Heff. destruct Heff as [Hr _].
  apply strict_grid_packing_extension in Hbest. rewrite Hr.
  destruct Hbest as [Hnil | [ox [oy [g [Hg Hext]]]]]; [left; exact Hnil |].
  right. apply free_extension_spec in Hext.
  destruct Hext as [extra [Hl Hextra]].
  exists rotation, ox, oy, g, extra. auto.
Qed.

Lemma result_structure_witness :
  find_optimal_packing ref_runtime fill_packer 8 = Ret fill_result /\
  exists rotation offset_x offset_y g before r after,
    base_grid ref_runtime fill_packer rotation offset_x offset_y = Ret g /\
    rectangles fill_result = current_rects g ++ before ++ r :: after /\
    _rectangle_fits_in_circle ref_runtime fill_packer r = Ret true /\
    rectangle_overlaps_any ref_runtime r (current_rects g ++ before)
      (tolerance fill_packer) = Ret false.
Proof.
  split; [exact fill_run |].
  destruct (result_structure ref_runtime fill_packer 8 fill_result fill_run)
    as [Hnil | [rotation [ox [oy [g [extra [Hrot [Hg [Hres Hextra]]]]]]]]];
    [discriminate Hnil |].
  destruct extra as [| r after].
  - exfalso. apply base_grid_rotation in Hg.
    rewrite app_nil_r in Hres. rewrite <- Hres in Hg.
    apply Forall_inv_tail in Hg as Hg2. apply Forall_inv in Hg, Hg2.
    simpl in Hg, Hg2. rewrite <- Hg in Hg2.
    apply (f_equal (fun f => f =? 0)) in Hg2. discriminate Hg2.
  - exists rotation, ox, oy, g, [], r, after.
    split; [exact Hg |]. split; [exact Hres |].
    apply (Hextra [] r after). reflexivity.
Defined.

(** ** The rotation test of the test script *)

(** [test_rotation_angles] of [test.py]: the rectangles whose rotation is
    not in [[0, 90]] are collected, and the test passes when there are
    none.  (What it prints is left out.) *)
Definition test_rotation_angles (result : PackingResult) : bool :=
  let invalid_rotations :=
    filter (fun rect => negb (axis_aligned (rotation rect)))
           (rectangles result) in
  match invalid_rotations with
  | [] => true
  | _ => false
  end.

(** Every result of [find_optimal_packing] passes the rotation test. *)
Theorem test_rotation_angles_passes (rt : runtime) (self : RectanglePacker)
    (fuel : nat) (res : PackingResult) :
  find_optimal_packing rt self fuel = Ret res ->
  test_rotation_angles res = true.
Proof.
  intros H. apply find_optimal_packing_accepted in H. destruct H as [Hall _].
  unfold test_rotation_angles.
  induction Hall as [| r rest Hr _ IH]; [reflexivity |].
  cbn [filter]. destruct Hr as [[cx [cy [rot [Hin ->]]]] _].
  assert (Hrot : axis_aligned (rotation (make_rect self cx cy rot)) = true).
  { cbn [make_rect rotation]. destruct Hin as [<- | [<- | []]]; reflexivity. }
  rewrite Hrot. exact IH.
Qed.

Lemma test_rotation_angles_passes_witness :
  find_optimal_packing ref_runtime demo_packer 8 = Ret demo_result /\
  test_rotation_angles demo_result = true.
Proof.
  split; [exact demo_run |].
  apply (test_rotation_angles_passes ref_runtime demo_packer 8). exact demo_run.
Defined.

(** ** A grid step of zero *)

Lemma float_of_int_zero : float_of_int 0 = Ret 0.
Proof. vm_compute. reflexivity. Qed.

Lemma range_ten : range 0 10 = [0; 1; 2; 3; 4; 5; 6; 7; 8; 9]%Z.
Proof. vm_compute. reflexivity. Qed.

(** When [rect_width + tolerance] is zero the first division of the grid,
    [(circle_diameter + 2 * w) / grid_step_x], raises, and so does the
    whole run: nothing catches it. *)
Theorem zero_step_raises (rt : runtime) (self : RectanglePacker) (fuel : nat) :
  (rect_width self + tolerance self =? 0) = true ->
  find_optimal_packing rt self fuel = Raise ZeroDivisionError.
Proof.
  intros Hzero. unfold find_optimal_packing.
  assert (Hgrid : _strict_grid_packing rt self fuel 0 = Raise ZeroDivisionError).
  { unfold _strict_grid_packing, offset_search. rewrite range_ten.
    cbn [for_each].
    assert (Htry : try_offset rt self fuel 0 0 0 ([], 0%Z)
                   = Raise ZeroDivisionError).
    { unfold try_offset. rewrite float_of_int_zero. cbn [bind].
      unfold base_grid, fdiv, grid_step_x, cell_w. cbn [Z.eqb].
      rewrite Hzero. reflexivity. }
    rewrite Htry. reflexivity. }
  rewrite Hgrid. reflexivity.
Qed.

Definition flat_packer : RectanglePacker := new_packer 20 0 10 0 0.

Lemma zero_step_raises_witness :
  (rect_width flat_packer + tolerance flat_packer =? 0) = true /\
  find_optimal_packing ref_runtime flat_packer 8 = Raise ZeroDivisionError.
Proof.
  split; [reflexivity |].
  apply (zero_step_raises ref_runtime flat_packer 8). reflexivity.
Defined.

(** ** Division by zero

    The only divisions by a computed value are those by the grid steps.
    The form of the application refuses sizes that are zero or negative and
    clearances that are negative; what it lets through never divides by
    zero. *)

Definition no_zero_division {A : Type} (o : outcome A) : Prop :=
  o <> Raise ZeroDivisionError.

Lemma nzd_Ret {A : Type} (a : A) : no_zero_division (Ret a).
Proof. discriminate. Qed.

Lemma nzd_bind {A B : Type} (m : outcome A) (k : A -> outcome B) :
  no_zero_division m -> (forall a, no_zero_division (k a)) ->
  no_zero_division (bind m k).
Proof.
  intros Hm Hk. destruct m as [a | e |]; cbn [bind];
    [apply Hk | | discriminate].
  intros H. apply Hm. injection H as ->. reflexivity.
Qed.

Lemma nzd_if {A : Type} (c : bool) (a b : outcome A) :
  no_zero_division a -> no_zero_division b ->
  no_zero_division (if c then a else b).
Proof. destruct c; auto. Qed.

Lemma nzd_for_each {A S : Type} (body : A -> S -> outcome S)
    (items : list A) (s : S) :
  (forall a s, no_zero_division (body a s)) ->
  no_zero_division (for_each body items s).
Proof.
  intros Hbody. revert s. induction items as [| a rest IH]; intros s;
    cbn [for_each]; [apply nzd_Ret |].
  apply nzd_bind; [apply Hbody | exact IH].
Qed.

Lemma nzd_while {S : Type} (fuel : nat) (cond : S -> bool)
    (body : S -> outcome S) (s : S) :
  (forall s, no_zero_division (body s)) ->
  no_zero_division (while fuel cond body s).
Proof.
  intros Hbody. revert s. induction fuel as [| n IH]; intros s; cbn [while];
    destruct (cond s); try discriminate.
  apply nzd_bind; [apply Hbody | exact IH].
Qed.

Lemma nzd_math_sqrt (x : float) : no_zero_division (math_sqrt x).
Proof. unfold math_sqrt. destruct (x <? 0); discriminate. Qed.

Lemma nzd_py_int (x : float) : no_zero_division (py_int x).
Proof. unfold py_int. destruct (Prim2SF x); discriminate. Qed.

Lemma nzd_float_of_int (z : Z) : no_zero_division (float_of_int z).
Proof. unfold float_of_int. destruct (is_infinity (of_int z)); discriminate. Qed.

Lemma nzd_index (corners : list vec) (i : nat) :
  no_zero_division (index corners i).
Proof. unfold index. destruct (nth_error corners i); discriminate. Qed.

Lemma nzd_min_list (xs : list float) : no_zero_division (min_list xs).
Proof. destruct xs; discriminate. Qed.

Lemma nzd_max_list (xs : list float) : no_zero_division (max_list xs).
Proof. destruct xs; discriminate. Qed.

Lemma nzd_fdiv (a b : float) :
  (b =? 0) = false -> no_zero_division (fdiv a b).
Proof. intros H. unfold fdiv. rewrite H. discriminate. Qed.

Create HintDb nzd.

#[local] Hint Resolve nzd_math_sqrt nzd_py_int nzd_float_of_int nzd_index
  nzd_min_list nzd_max_list nzd_fdiv : nzd.

Ltac nzd_step :=
  match goal with
  | |- no_zero_division (Ret _) => apply nzd_Ret
  | |- no_zero_division (bind _ _) => apply nzd_bind; [| intros ?]
  | |- no_zero_division (if _ then _ else _) => apply nzd_if
  | |- no_zero_division (for_each _ _ _) => apply nzd_for_each; intros ? ?
  | |- no_zero_division (while _ _ _ _) => apply nzd_while; intros ?
  | |- no_zero_division (let '(_, _) := ?p in _) => destruct p
  | |- no_zero_division (match ?x with _ => _ end) => destruct x
  end.

Ltac nzd_auto := repeat nzd_step; auto with nzd.

(** A runtime whose functions do not raise [ZeroDivisionError]. *)
Definition quiet (rt : runtime) : Prop :=
  forall x,
    no_zero_division (math_cos rt x) /\ no_zero_division (math_sin rt x) /\
    no_zero_division (pow2 rt x).

Section NoZeroDivision.

Variable rt : runtime.
Hypothesis Hquiet : quiet rt.

Lemma nzd_cos (x : float) : no_zero_division (math_cos rt x).
Proof. apply Hquiet. Qed.

Lemma nzd_sin (x : float) : no_zero_division (math_sin rt x).
Proof. apply Hquiet. Qed.

Lemma nzd_pow2 (x : float) : no_zero_division (pow2 rt x).
Proof. apply Hquiet. Qed.

Hint Resolve nzd_cos nzd_sin nzd_pow2 : nzd.

Lemma nzd_get_corners (r : Rectangle) : no_zero_division (get_corners rt r).
Proof. unfold get_corners. nzd_auto. Qed.

Hint Resolve nzd_get_corners : nzd.

Lemma nzd_normalize_vector (v : vec) :
  no_zero_division (normalize_vector rt v).
Proof. unfold normalize_vector. nzd_auto. Qed.

Hint Resolve nzd_normalize_vector : nzd.

Lemma nzd_get_edge_normal (a b : vec) :
  no_zero_division (get_edge_normal rt a b).
Proof. unfold get_edge_normal. nzd_auto. Qed.

Lemma nzd_project_polygon (axis : vec) (vertices : list vec) :
  no_zero_division (project_polygon axis vertices).
Proof. unfold project_polygon. nzd_auto. Qed.

Hint Resolve nzd_get_edge_normal nzd_project_polygon : nzd.

Lemma nzd_sat_round (c1 c2 : list vec) (tol : float) (i : nat) :
  no_zero_division (sat_round rt c1 c2 tol i).
Proof. unfold sat_round. nzd_auto. Qed.

Hint Resolve nzd_sat_round : nzd.

Lemma nzd_sat_rounds (c1 c2 : list vec) (tol : float) (rounds : list nat) :
  no_zero_division (sat_rounds rt c1 c2 tol rounds).
Proof.
  induction rounds as [| i rest IH]; cbn [sat_rounds]; nzd_auto.
Qed.

Hint Resolve nzd_sat_rounds : nzd.

Lemma nzd_rectangles_overlap (r1 r2 : Rectangle) (tol : float) :
  no_zero_division (rectangles_overlap rt r1 r2 tol).
Proof. unfold rectangles_overlap, sat_rectangles_collide. nzd_auto. Qed.

Hint Resolve nzd_rectangles_overlap : nzd.

Lemma nzd_rectangle_overlaps_any (r : Rectangle) (placed : list Rectangle)
    (tol : float) :
  no_zero_division (rectangle_overlaps_any rt r placed tol).
Proof.
  induction placed as [| p rest IH]; cbn [rectangle_overlaps_any]; nzd_auto.
Qed.

Hint Resolve nzd_rectangle_overlaps_any : nzd.

Variable self : RectanglePacker.

Lemma nzd_all_corners_inside (corners : list Position) :
  no_zero_division (all_corners_inside rt self corners).
Proof.
  induction corners as [| c rest IH]; cbn [all_corners_inside];
    unfold corner_outside, corner_distance; nzd_auto.
Qed.

Hint Resolve nzd_all_corners_inside : nzd.

Lemma nzd_rectangle_fits (r : Rectangle) :
  no_zero_division (_rectangle_fits_in_circle rt self r).
Proof. unfold _rectangle_fits_in_circle. nzd_auto. Qed.

Hint Resolve nzd_rectangle_fits : nzd.

Lemma nzd_place_if_free (r : Rectangle) (filled : list Rectangle) :
  no_zero_division (place_if_free rt self r filled).
Proof. unfold place_if_free. nzd_auto. Qed.

Hint Resolve nzd_place_if_free : nzd.

Lemma nzd_validate_no_overlaps (rects : list Rectangle) :
  no_zero_division (_validate_no_overlaps rt self rects).
Proof.
  induction rects as [| r rest IH]; cbn [_validate_no_overlaps];
    unfold _validate_pair_row; nzd_auto.
Qed.

Lemma nzd_calculate_efficiency (res : PackingResult) :
  no_zero_division (_calculate_efficiency rt self res).
Proof. unfold _calculate_efficiency. nzd_auto. Qed.

Hint Resolve nzd_validate_no_overlaps nzd_calculate_efficiency : nzd.

(** The steps of the grid are not zero. *)
Hypothesis Hwidth : (rect_width self + tolerance self =? 0) = false.
Hypothesis Hheight : (rect_height self + tolerance self =? 0) = false.

Variable fuel : nat.

Section Rotation.

Variable rotation : Z.

Lemma grid_step_x_nonzero : (grid_step_x self rotation =? 0) = false.
Proof.
  unfold grid_step_x, cell_w. destruct (rotation =? 90)%Z; assumption.
Qed.

Lemma grid_step_y_nonzero : (grid_step_y self rotation =? 0) = false.
Proof.
  unfold grid_step_y, cell_h. destruct (rotation =? 90)%Z; assumption.
Qed.

Lemma ortho_step_x_nonzero : (ortho_step_x self rotation =? 0) = false.
Proof.
  unfold ortho_step_x, ortho_w, cell_h. destruct (rotation =? 90)%Z; assumption.
Qed.

Lemma ortho_step_y_nonzero : (ortho_step_y self rotation =? 0) = false.
Proof.
  unfold ortho_step_y, ortho_h, cell_w. destruct (rotation =? 90)%Z; assumption.
Qed.

Hint Resolve grid_step_x_nonzero grid_step_y_nonzero ortho_step_x_nonzero
  ortho_step_y_nonzero : nzd.

Lemma nzd_grid_cell (ox oy sx sy : float) (r c : Z) (g : grid_state) :
  no_zero_division (grid_cell rt self rotation ox oy sx sy r c g).
Proof. unfold grid_cell. nzd_auto. Qed.

Hint Resolve nzd_grid_cell : nzd.

Lemma nzd_base_grid (ox oy : float) :
  no_zero_division (base_grid rt self rotation ox oy).
Proof. unfold base_grid. nzd_auto. Qed.

Lemma nzd_scan_line (at_coord : float -> Rectangle) (start step : float)
    (filled : list Rectangle) :
  (step =? 0) = false ->
  no_zero_division (scan_line rt self at_coord start step filled).
Proof. intros Hstep. unfold scan_line, scan_indices. nzd_auto. Qed.

Hint Resolve nzd_base_grid nzd_scan_line : nzd.

Lemma nzd_fill_right (g : grid_state) (filled : list Rectangle) :
  no_zero_division (fill_right rt self fuel rotation g filled).
Proof. unfold fill_right. nzd_auto. Qed.

Lemma nzd_fill_left (g : grid_state) (filled : list Rectangle) :
  no_zero_division (fill_left rt self fuel rotation g filled).
Proof. unfold fill_left. nzd_auto. Qed.

Lemma nzd_fill_top (g : grid_state) (filled : list Rectangle) :
  no_zero_division (fill_top rt self fuel rotation g filled).
Proof. unfold fill_top. nzd_auto. Qed.

Lemma nzd_fill_bottom (g : grid_state) (filled : list Rectangle) :
  no_zero_division (fill_bottom rt self fuel rotation g filled).
Proof. unfold fill_bottom. nzd_auto. Qed.

Lemma nzd_center_step (g : grid_state) (next_y : float -> float)
    (st : strip_state) :
  no_zero_division (center_step rt self rotation g next_y st).
Proof. unfold center_step. destruct st as [[curr_y filled] broke]. nzd_auto. Qed.

Hint Resolve nzd_fill_right nzd_fill_left nzd_fill_top nzd_fill_bottom
  nzd_center_step : nzd.

Lemma nzd_center_top (g : grid_state) (filled : list Rectangle) :
  no_zero_division (center_top rt self fuel rotation g filled).
Proof. unfold center_top. nzd_auto. Qed.

Lemma nzd_center_bottom (g : grid_state) (filled : list Rectangle) :
  no_zero_division (center_bottom rt self fuel rotation g filled).
Proof. unfold center_bottom. nzd_auto. Qed.

Hint Resolve nzd_center_top nzd_center_bottom : nzd.

Lemma nzd_try_offset (i j : Z) (st : search_state) :
  no_zero_division (try_offset rt self fuel rotation i j st).
Proof. unfold try_offset. destruct st as [best_rects max_count]. nzd_auto. Qed.

Hint Resolve nzd_try_offset : nzd.

Lemma nzd_offset_search :
  no_zero_division (offset_search rt self fuel rotation).
Proof. unfold offset_search. nzd_auto. Qed.

End Rotation.

Lemma nzd_scan_point (sx sy : float) (rotations : list float)
    (filled : list Rectangle) :
  no_zero_division (scan_point rt self sx sy rotations filled).
Proof.
  induction rotations as [| rot rest IH]; cbn [scan_point];
    unfold fits_and_free; nzd_auto.
Qed.

Hint Resolve nzd_scan_point nzd_offset_search : nzd.

Lemma nzd_systematic_gap_fill (placed : list Rectangle) :
  no_zero_division (_systematic_gap_fill rt self fuel placed).
Proof. unfold _systematic_gap_fill. nzd_auto. Qed.

Hint Resolve nzd_systematic_gap_fill : nzd.

Lemma nzd_strict_grid_packing (rotation : Z) :
  no_zero_division (_strict_grid_packing rt self fuel rotation).
Proof. unfold _strict_grid_packing. nzd_auto. Qed.

Hint Resolve nzd_strict_grid_packing : nzd.

Lemma nzd_find_optimal_packing :
  no_zero_division (find_optimal_packing rt self fuel).
Proof. unfold find_optimal_packing, valid_results. nzd_auto. Qed.

End NoZeroDivision.

Lemma eqb_fkey (a b : float) :
  (a =? b) = true ->
  Rounding.numeric a /\ Rounding.numeric b /\ Rounding.fkey a = Rounding.fkey b.
Proof.
  rewrite eqb_spec. unfold SFeqb.
  destruct (Rounding.nan_dec (Prim2SF a)) as [Ha | Ha];
    [rewrite Rounding.SFcompare_nan by auto; discriminate |].
  destruct (Rounding.nan_dec (Prim2SF b)) as [Hb | Hb];
    [rewrite Rounding.SFcompare_nan by auto; discriminate |].
  rewrite Rounding.compare_fkey by assumption.
  destruct (Z.compare_spec (Rounding.fkey a) (Rounding.fkey b)) as [Hk | Hk | Hk];
    intros Heq; try discriminate. auto.
Qed.

Lemma sum_numeric (a b : float) :
  Rounding.numeric (a + b) -> Rounding.numeric a /\ Rounding.numeric b.
Proof.
  unfold Rounding.numeric. rewrite add_spec. intros Hn.
  destruct (Prim2SF a), (Prim2SF b); split; try discriminate;
    exfalso; apply Hn; reflexivity.
Qed.

(** A positive size plus a clearance that is not negative is not zero. *)
Lemma positive_step (size clearance : float) :
  (size <=? 0) = false -> (clearance <? 0) = false ->
  (size + clearance =? 0) = false.
Proof.
  intros Hsize Hclear. destruct (size + clearance =? 0) eqn:H; [| reflexivity].
  exfalso. apply eqb_fkey in H. destruct H as [Hn [Hz Hk]].
  destruct (sum_numeric _ _ Hn) as [Hns Hnc].
  pose proof (Rounding.ltb_false_fkey _ _ Hnc Hz Hclear) as Hc.
  assert (Hc0 : (0 <=? clearance) = true) by (apply Rounding.leb_fkey; auto).
  destruct (Rounding.add_nonneg_key size clearance Hc0 Hn) as [_ Hge].
  assert (Hle : (size <=? 0) = true).
  { apply Rounding.leb_fkey. split; [exact Hns | split; [exact Hz | lia]]. }
  congruence.
Qed.

(** The validation of [calculate] in [rectangles_in_circle.py]: what it
    does not refuse is passed to the packer. *)
Definition form_accepts (circle_diameter rect_width rect_height tolerance
    safe_zone : float) : bool :=
  negb ((circle_diameter <=? 0) || (rect_width <=? 0) || (rect_height <=? 0))
  && negb ((tolerance <? 0) || (safe_zone <? 0)).

(** With values the form accepts, and a runtime that does not raise it
    itself, [find_optimal_packing] never raises [ZeroDivisionError]. *)
Theorem accepted_values_never_divide_by_zero (rt : runtime)
    (d w h tol sz : float) (fuel : nat) :
  quiet rt -> form_accepts d w h tol sz = true ->
  find_optimal_packing rt (new_packer d w h tol sz) fuel
    <> Raise ZeroDivisionError.
Proof.
  intros Hquiet Hform. unfold form_accepts in Hform.
  apply andb_true_iff in Hform. destruct Hform as [Hsizes Hclear].
  apply negb_true_iff in Hsizes, Hclear.
  apply orb_false_iff in Hsizes. destruct Hsizes as [Hsizes Hh].
  apply orb_false_iff in Hsizes. destruct Hsizes as [_ Hw].
  apply orb_false_iff in Hclear. destruct Hclear as [Htol _].
  apply nzd_find_optimal_packing; [exact Hquiet | |];
    cbn [new_packer rect_width rect_height tolerance];
    apply positive_step; assumption.
Qed.

Lemma ref_runtime_quiet : quiet ref_runtime.
Proof.
  intros x. cbn [ref_runtime math_cos math_sin pow2].
  unfold ref_cos, ref_sin, ref_pow2. repeat split.
  - destruct (x =? 0); [discriminate |].
    destruct (x =? math_radians 90); discriminate.
  - destruct (x =? 0); [discriminate |].
    destruct (x =? math_radians 90); discriminate.
  - destruct (is_infinity (x * x) && negb (is_infinity x)); discriminate.
Qed.

Lemma accepted_values_never_divide_by_zero_witness :
  form_accepts 20 15 10 0 0 = true /\
  find_optimal_packing ref_runtime (new_packer 20 15 10 0 0) 8
    <> Raise ZeroDivisionError.
Proof.
  split; [reflexivity |].
  apply (accepted_values_never_divide_by_zero ref_runtime 20 15 10 0 0 8
           ref_runtime_quiet).
  reflexivity.
Defined.

(** ** What a validated result guarantees *)

Lemma validate_true_pairs (rt : runtime) (self : RectanglePacker)
    (rects : list Rectangle) :
  _validate_no_overlaps rt self rects = Ret true ->
  ForallOrdPairs
    (fun a b => rectangles_overlap rt a b (tolerance self) = Ret false) rects.
Proof.
  induction rects as [| r rest IH]; intros H; [constructor |].
  cbn [_validate_no_overlaps] in H. unfold _validate_pair_row in H.
  destruct (rectangle_overlaps_any rt r rest (tolerance self))
    as [[|] | |] eqn:Hrow; cbn [bind negb] in H; try discriminate.
  constructor; [apply rectangle_overlaps_any_false; exact Hrow | apply IH; exact H].
Qed.

(** When one of the two strategy results passes the final validation, no
    two rectangles of the returned result collide under the configured
    tolerance. *)
Theorem validated_result_is_free (rt : runtime) (self : RectanglePacker)
    (fuel : nat) (res r0 r90 : PackingResult) :
  find_optimal_packing rt self fuel = Ret res ->
  _strict_grid_packing rt self fuel 0 = Ret r0 ->
  _strict_grid_packing rt self fuel 90 = Ret r90 ->
  _validate_no_overlaps rt self (rectangles r0) = Ret true \/
  _validate_no_overlaps rt self (rectangles r90) = Ret true ->
  ForallOrdPairs
    (fun a b => rectangles_overlap rt a b (tolerance self) = Ret false)
    (rectangles res).
Proof.
  intros H H0 H90 Hvalid. apply validate_true_pairs.
  unfold find_optimal_packing in H. rewrite H0, H90 in H. cbn [bind] in H.
  unfold valid_results in H. cbn [for_each] in H.
  destruct (_validate_no_overlaps rt self (rectangles r0)) as [v0 | |] eqn:Hv0;
    cbn [bind] in H; try discriminate.
  destruct v0; cbn [bind app] in H;
    (destruct (_validate_no_overlaps rt self (rectangles r90))
       as [v90 | |] eqn:Hv90; cbn [bind] in H; try discriminate);
    destruct v90; cbn [bind app] in H; unfold max_by_count in H;
    cbn [fold_left] in H;
    try (destruct Hvalid; discriminate);
    try destruct (count r90 >? count r0)%Z;
    apply calculate_efficiency_keeps in H; destruct H as [-> _]; assumption.
Qed.

Lemma validated_result_is_free_witness :
  (exists a b rest, rectangles five_result = a :: b :: rest /\
     rectangles_overlap ref_runtime a b (tolerance five_packer) = Ret false) /\
  ForallOrdPairs
    (fun a b => rectangles_overlap ref_runtime a b (tolerance five_packer)
                = Ret false)
    (rectangles five_result).
Proof.
  assert (H : ForallOrdPairs
    (fun a b => rectangles_overlap ref_runtime a b (tolerance five_packer)
                = Ret false)
    (rectangles five_result)).
  { apply (validated_result_is_free ref_runtime five_packer 50 five_result
             (returned (_strict_grid_packing ref_runtime five_packer 50 0))
             (returned (_strict_grid_packing ref_runtime five_packer 50 90))
             five_run).
    - vm_compute. reflexivity.
    - vm_compute. reflexivity.
    - left. vm_compute. reflexivity. }
  split; [| exact H].
  do 3 eexists. split; [reflexivity |].
  inversion H as [| a l Ha _]. apply Forall_inv in Ha. exact Ha.
Defined.

(** With equal validation outcomes, the rotation-0 strategy wins unless the
    rotation-90 strategy places strictly more rectangles. *)
Theorem ties_prefer_rotation_0 (rt : runtime) (self : RectanglePacker)
    (fuel : nat) (res r0 r90 : PackingResult) (v : bool) :
  find_optimal_packing rt self fuel = Ret res ->
  _strict_grid_packing rt self fuel 0 = Ret r0 ->
  _strict_grid_packing rt self fuel 90 = Ret r90 ->
  _validate_no_overlaps rt self (rectangles r0) = Ret v ->
  _validate_no_overlaps rt self (rectangles r90) = Ret v ->
  (count r90 <= count r0)%Z ->
  rectangles res = rectangles r0 /\
  strategy res = "Strict Grid (Rot: 0° + Fill)"%string.
Proof.
  intros H H0 H90 Hv0 Hv90 Hle.
  unfold find_optimal_packing in H. rewrite H0, H90 in H. cbn [bind] in H.
  unfold valid_results in H. cbn [for_each] in H.
  rewrite Hv0 in H. cbn [bind] in H.
  assert (Hbest : _calculate_efficiency rt self r0 = Ret res).
  { destruct v; cbn [bind app] in H; rewrite Hv90 in H; cbn [bind app] in H;
      unfold max_by_count in H; cbn [fold_left] in H;
      destruct (Z.gtb_spec (count r90) (count r0)); try lia; exact H. }
  apply calculate_efficiency_keeps in Hbest.
  destruct Hbest as [Hr [_ [Hs _]]]. split; [exact Hr |].
  rewrite Hs. exact (strict_grid_packing_strategy _ _ _ _ _ H0).
Qed.

Lemma ties_prefer_rotation_0_witness :
  rectangles demo_result
    = rectangles (returned (_strict_grid_packing ref_runtime demo_packer 8 0)) /\
  strategy demo_result = "Strict Grid (Rot: 0° + Fill)"%string.
Proof.
  apply (ties_prefer_rotation_0 ref_runtime demo_packer 8 demo_result
           (returned (_strict_grid_packing ref_runtime demo_packer 8 0))
           (returned (_strict_grid_packing ref_runtime demo_packer 8 90))
           true demo_run); vm_compute; first [reflexivity | discriminate].
Defined.

(** ** The gap fill only appends *)

(** [_systematic_gap_fill] keeps the placed rectangles, in order, at the
    head of its result; every rectangle it appends fitted in the circle and
    collided with none of the rectangles before it. *)
Theorem systematic_gap_fill_appends (rt : runtime) (self : RectanglePacker)
    (fuel : nat) (placed filled : list Rectangle) :
  _systematic_gap_fill rt self fuel placed = Ret filled ->
  exists extra,
    filled = placed ++ extra /\
    forall before r after,
      extra = before ++ r :: after ->
      _rectangle_fits_in_circle rt self r = Ret true /\
      rectangle_overlaps_any rt r (placed ++ before) (tolerance self)
        = Ret false.
Proof.
  intros H. apply systematic_gap_fill_extension in H.
  apply free_extension_spec in H. exact H.
Qed.

Definition demo_gap_fill : list Rectangle :=
  Eval vm_compute in
    match _systematic_gap_fill ref_runtime demo_packer 8 [] with
    | Ret l => l
    | _ => []
    end.

Lemma systematic_gap_fill_appends_witness :
  _systematic_gap_fill ref_runtime demo_packer 8 [] = Ret demo_gap_fill /\
  exists extra,
    demo_gap_fill = [] ++ extra /\
    forall before r after,
      extra = before ++ r :: after ->
      _rectangle_fits_in_circle ref_runtime demo_packer r = Ret true /\
      rectangle_overlaps_any ref_runtime r ([] ++ before)
        (tolerance demo_packer) = Ret false.
Proof.
  split; [vm_compute; reflexivity |].
  apply (systematic_gap_fill_appends ref_runtime demo_packer 8 [] demo_gap_fill).
  vm_compute. reflexivity.
Defined.

(** ** Inside the circle itself *)

(** Subtracting something that is not negative does not make a float
    larger. *)
Lemma sub_nonneg_key (a s : float) :
  (0 <=? s) = true -> Rounding.numeric (a - s) ->
  Rounding.numeric a /\ (Rounding.fkey (a - s) <= Rounding.fkey a)%Z.
Proof.
  intros Hs Hdiff. apply Rounding.leb_fkey in Hs. destruct Hs as [_ [Hns Hs]].
  unfold Rounding.numeric, Rounding.fkey in *.
  change (Rounding.key (Prim2SF 0)) with 0%Z in Hs.
  rewrite sub_spec in *. unfold SF64sub in *.
  pose proof (Prim2SF_valid a) as Hva. pose proof (Prim2SF_valid s) as Hvs.
  pose proof (Rounding.key_bounds _ Hva) as Hba. pose proof Rounding.huge_pos.
  destruct (Prim2SF a) as [sa | sa | | sa ma ea] eqn:HA;
    destruct (Prim2SF s) as [ss | ss | | ss ms es] eqn:HS;
    try congruence; try (cbn [SFsub] in Hdiff; congruence).
  all: split; [discriminate |].
  all: try (destruct (Rounding.SFsub_key _ _ Hva Hvs I I) as [_ Hk]; rewrite Hk;
            rewrite <- (Rounding.round_key_exact _ Hva I) at 2;
            apply Rounding.round_key_mono; lia).
  all: destruct sa, ss; cbn [SFsub Rounding.key cond_Zopp negb] in *;
    try lia; congruence.
Qed.

Lemma sub_nonneg_not_below (a s d : float) :
  (0 <=? s) = true -> (a - s <? d) = false -> (a <? d) = false.
Proof.
  intros Hs Hlow. destruct (a <? d) eqn:Hlt; [| reflexivity].
  exfalso. apply Rounding.ltb_fkey in Hlt. destruct Hlt as [Ha [Hd Hk]].
  destruct (Rounding.nan_dec (Prim2SF (a - s))) as [Hnan | Hn].
  - pose proof (Rounding.fkey_bounds d) as Hbd.
    pose proof Hs as Hs'. apply Rounding.leb_fkey in Hs'.
    destruct Hs' as [_ [Hns Hks]].
    unfold Rounding.numeric, Rounding.fkey in *.
    change (Rounding.key (Prim2SF 0)) with 0%Z in Hks.
    rewrite sub_spec in Hnan. unfold SF64sub in Hnan.
    pose proof Rounding.huge_pos.
    pose proof (Prim2SF_valid a) as Hva. pose proof (Prim2SF_valid s) as Hvs.
    destruct (Prim2SF a) as [sa | sa | | sa ma ea];
      destruct (Prim2SF s) as [ss | ss | | ss ms es];
      try congruence;
      try (destruct (Rounding.SFsub_key _ _ Hva Hvs I I) as [Hne _];
           contradiction);
      try destruct sa; try destruct ss;
      cbn [SFsub Rounding.key cond_Zopp] in *; try discriminate; lia.
  - destruct (sub_nonneg_key a s Hs Hn) as [_ Hle].
    assert (Ht : (a - s <? d) = true).
    { apply Rounding.ltb_fkey. split; [exact Hn | split; [exact Hd | lia]]. }
    congruence.
Qed.

(** With a safe zone that is not negative, every corner of every returned
    rectangle lies within the radius of the circle itself, unless its
    computed distance or the radius is NaN. *)
Theorem inside_circle (rt : runtime) (d w h tol sz : float) (fuel : nat)
    (res : PackingResult) :
  (0 <=? sz) = true ->
  find_optimal_packing rt (new_packer d w h tol sz) fuel = Ret res ->
  Forall (corners_within rt (d / 2)) (rectangles res).
Proof.
  intros Hsz H. pose proof (find_optimal_packing_accepted _ _ _ _ H) as [Hall _].
  eapply Forall_impl; [| exact Hall].
  intros r Hr. apply accepted_corners in Hr.
  apply corners_not_beyond_within.
  destruct Hr as [corners [Hc Hin]]. exists corners. split; [exact Hc |].
  eapply Forall_impl; [| exact Hin].
  intros corner [dist [Hd Hgt]]. exists dist. split; [exact Hd |].
  cbn [new_packer effective_radius] in Hgt. unfold fgt in *.
  exact (sub_nonneg_not_below (d / 2) sz dist Hsz Hgt).
Qed.

Lemma inside_circle_witness :
  (0 <=? 0) = true /\
  find_optimal_packing ref_runtime (new_packer 20 15 10 0 0) 8 = Ret demo_result /\
  Forall (corners_within ref_runtime (20 / 2)) (rectangles demo_result).
Proof.
  split; [reflexivity |]. split; [exact demo_run |].
  apply (inside_circle ref_runtime 20 15 10 0 0 8 demo_result eq_refl demo_run).
Defined.
